(** * Storybook: a shallow embedding of the story parser, the PCM decode
      helper, the asset pipeline, the viewer's navigation, playback transport
      and PDF export, and the top-level state machine.

    Source files embedded here:
    - services/geminiService.ts  ([parseStoryResponse], [generateStoryText],
      [generateIllustration], [generateNarration]);
    - services/audioUtils.ts     ([decodeBase64], [decodeAudioData] and its
      raw PCM fallback);
    - components/BookViewer.tsx  ([handleNext], [handlePrev], [stopAudio],
      [playAudio], [toggleAudio], [handleDownloadPdf]);
    - App.tsx                    ([handleGenerate], [updatePage],
      [generateAssetsInBackground], [resetApp]). *)

From Stdlib Require Import ZArith NArith QArith Qabs List String Ascii Bool Lia Sorted.
From stdpp Require Import base list.
Import ListNotations.

Set Default Proof Using "Type".
Local Open Scope nat_scope.

(** ** JavaScript strings

    A JavaScript string is a sequence of UTF-16 code units; a code unit is
    kept as a number.  [js] writes an ASCII literal as such a sequence. *)

Module JsString.

Definition char := N.
Definition jsstring := list char.

Definition js (s : string) : jsstring :=
  map N_of_ascii (list_ascii_of_string s).

(** [WhiteSpace] and [LineTerminator] code units of ECMAScript: the set
    that both [\s] and [String.prototype.trim] use. *)
Definition is_space (c : char) : bool :=
  ((9 <=? c) && (c <=? 13) || (c =? 32) || (c =? 160) || (c =? 5760)
   || (8192 <=? c) && (c <=? 8202) || (c =? 8232) || (c =? 8233)
   || (c =? 8239) || (c =? 8287) || (c =? 12288) || (c =? 65279))%N.

(** [\d] is [0-9]. *)
Definition is_digit (c : char) : bool := ((48 <=? c) && (c <=? 57))%N.

(** [Canonicalize] of a code unit under the [i] flag (no [u] flag): the
    upper-case mapping.  On ASCII it sends a-z to A-Z.  A code unit from
    128 on is never mapped into ASCII by the host, so against the
    ASCII-only patterns of this program the identity there gives the same
    comparisons. *)
Definition canonicalize (c : char) : char :=
  if ((97 <=? c) && (c <=? 122))%N then (c - 32)%N else c.

Fixpoint drop_space (s : jsstring) : jsstring :=
  match s with
  | c :: s' => if is_space c then drop_space s' else s
  | [] => []
  end.

(** [String.prototype.trim]. *)
Definition trim (s : jsstring) : jsstring :=
  rev (drop_space (rev (drop_space s))).

End JsString.
Export JsString.

(** ** Regular expressions

    The backtracking matcher of ECMAScript, restricted to the constructs
    that the four patterns of [parseStoryResponse] use.  Alternatives are
    tried in priority order, a greedy quantifier tries one more iteration
    before the continuation, a lazy one tries the continuation first.  All
    patterns of the program carry the [i] flag and none carries [m], [s],
    [u] or [g]. *)

Module Regex.

Inductive atom : Type :=
| ASpace      (* \s *)
| ANonSpace   (* \S *)
| ADigit.     (* \d *)

Inductive regex : Type :=
| Eps                                     (* the empty pattern *)
| Chr (c : char)                          (* a pattern character *)
| Cls (atoms : list atom)                 (* \s, \d, or a class [...] *)
| Cat (r1 r2 : regex)                     (* r1 r2 *)
| Alt (r1 r2 : regex)                     (* r1 | r2 *)
| Rep (greedy : bool) (min : nat) (r : regex)  (* r{min,} or r{min,}? *)
| Grp (r : regex)                         (* ( r ), capture 1 *)
| Eoi.                                    (* $ *)

Definition atom_matches (a : atom) (c : char) : bool :=
  match a with
  | ASpace => is_space c
  | ANonSpace => negb (is_space c)
  | ADigit => is_digit c
  end.

(** Matcher state: what is left of the input, and capture 1. *)
Record mstate : Type := MState { rest : jsstring; cap1 : option jsstring }.

Definition orelse {A} (x y : option A) : option A :=
  match x with Some _ => x | None => y end.

(** [RepeatMatcher] for [r{min,}]: [body] matches one iteration.  Each
    iteration past the minimum has to consume input, so [fuel], the
    minimum plus the length of the input, is never exhausted before the
    iterations are ([rep_loop_fuel], [m_Rep_zero], [m_Rep_succ]). *)
Fixpoint rep_loop (body : mstate -> (mstate -> option mstate) -> option mstate)
    (greedy : bool) (k : mstate -> option mstate)
    (fuel min : nat) (x : mstate) {struct fuel} : option mstate :=
  match fuel with
  | O => match min with O => k x | S _ => None end
  | S fuel' =>
      match min with
      | S min' => body x (fun y => rep_loop body greedy k fuel' min' y)
      | O =>
          let again :=
            body x (fun y =>
              (* an iteration that consumed nothing is rejected *)
              if length (rest y) =? length (rest x) then None
              else rep_loop body greedy k fuel' O y) in
          if greedy then orelse again (k x) else orelse (k x) again
      end
  end.

Fixpoint m (r : regex) (x : mstate) (k : mstate -> option mstate)
  {struct r} : option mstate :=
  match r with
  | Eps => k x
  | Chr c =>
      match rest x with
      | d :: s' =>
          if (canonicalize d =? canonicalize c)%N
          then k (MState s' (cap1 x)) else None
      | [] => None
      end
  | Cls atoms =>
      match rest x with
      | d :: s' =>
          if existsb (fun a => atom_matches a d) atoms
          then k (MState s' (cap1 x)) else None
      | [] => None
      end
  | Cat r1 r2 => m r1 x (fun y => m r2 y k)
  | Alt r1 r2 => orelse (m r1 x k) (m r2 x k)
  | Rep greedy min r' =>
      rep_loop (m r') greedy k (min + length (rest x)) min x
  | Grp r' =>
      m r' x (fun y =>
        k (MState (rest y)
             (Some (firstn (length (rest x) - length (rest y)) (rest x)))))
  | Eoi => match rest x with [] => k x | _ :: _ => None end
  end.

(** The result of a successful match: the text after it and capture 1. *)
Definition match_at (r : regex) (s : jsstring) : option mstate :=
  m r (MState s None) Some.

(** [RegExp.prototype.exec] from index 0 without the [g] flag: the first
    start position, left to right, at which the matcher succeeds. *)
Fixpoint exec (r : regex) (s : jsstring) : option mstate :=
  match match_at r s with
  | Some y => Some y
  | None => match s with
            | [] => None
            | _ :: s' => exec r s'
            end
  end.

(** [String.prototype.split] with a pattern that has no capture group.
    [skip] counts the code units of the separator found last that are
    still to be passed over, [cur] is the piece being collected, in
    reverse.  A separator is looked for at every position before the end
    of the input; an empty match splits only when the piece collected so
    far is not empty. *)
Fixpoint split_scan (r : regex) (s : jsstring) (skip : nat) (cur : jsstring)
  : list jsstring :=
  match s with
  | [] => [rev cur]
  | c :: s' =>
      match skip with
      | S skip' => split_scan r s' skip' cur
      | O =>
          match match_at r s with
          | Some y =>
              match length s - length (rest y) with
              | S n => rev cur :: split_scan r s' n []
              | O =>
                  match cur with
                  | [] => split_scan r s' O [c]
                  | _ :: _ => rev cur :: split_scan r s' O [c]
                  end
              end
          | None => split_scan r s' O (c :: cur)
          end
      end
  end.

Definition split (r : regex) (s : jsstring) : list jsstring :=
  match s with
  | [] => match match_at r [] with Some _ => [] | None => [[]] end
  | _ :: _ => split_scan r s 0 []
  end.

(** A literal run of pattern characters. *)
Fixpoint lit (s : jsstring) : regex :=
  match s with
  | [] => Eps
  | c :: s' => Cat (Chr c) (lit s')
  end.

(** [r1 r2 ... rn]. *)
Fixpoint cat (rs : list regex) : regex :=
  match rs with
  | [] => Eps
  | r :: rs' => Cat r (cat rs')
  end.

End Regex.
Export Regex.

(** ** The data model (types.ts) *)

(** An [AudioBuffer] of the host: the sample rate and one list of samples
    per channel.  A sample of this program's own buffers is an integer
    divided by 32768, which a 32-bit float holds exactly, so the samples are
    kept as rationals. *)
Record AudioBuffer : Type := {
  sampleRate : Z;
  channels : list (list Q)
}.

(** The buffer after its channel data was written. *)
Definition with_channels (buffer : AudioBuffer) (chans : list (list Q))
  : AudioBuffer :=
  {| sampleRate := sampleRate buffer; channels := chans |}.

Inductive IllustrationStyle : Type :=
| Watercolor | Disney | Ghibli | Pastel.

Definition style_name (st : IllustrationStyle) : jsstring :=
  match st with
  | Watercolor => js "Watercolor Storybook"
  | Disney => js "Disney Storybook 2D"
  | Ghibli => js "Studio Ghibli Style"
  | Pastel => js "Soft Pastel Cartoon"
  end.

(** An optional field is [None] when the property is absent or undefined. *)
Record StoryPage : Type := {
  pageNumber : nat;
  illustrationDescription : jsstring;
  storyText : jsstring;
  voiceText : jsstring;
  imageUrl : option jsstring;
  audioBuffer : option AudioBuffer;
  isLoadingAssets : option bool
}.

(** ['input' | 'generating_text' | 'generating_assets' | 'reading' | 'error'] *)
Inductive AppState : Type :=
| Input | Generating_text | Generating_assets | Reading | Error.

(** ** The story parser (services/geminiService.ts) *)

Module Parser.

Definition eq10 : regex := Rep true 10 (Chr 61%N).      (* ={10,} *)
Definition ws : regex := Rep true 0 (Cls [ASpace]).   (* \s* *)
Definition any_lazy : regex :=                        (* [\s\S]*? *)
  Rep false 0 (Cls [ASpace; ANonSpace]).

(** /={10,}\s*HALAMAN\s*\d+\s*={10,}/i *)
Definition separator : regex :=
  cat [eq10; ws; lit (js "HALAMAN"); ws; Rep true 1 (Cls [ADigit]); ws; eq10].

Definition DESKRIPSI_ILUSTRASI : jsstring := js "[DESKRIPSI ILUSTRASI]".
Definition TEKS_CERITA : jsstring := js "[TEKS CERITA]".
Definition TEKS_SUARA : jsstring := js "[TEKS SUARA]".

(** /\[DESKRIPSI ILUSTRASI\]([\s\S]*?)\[TEKS CERITA\]/i *)
Definition descRe : regex :=
  cat [lit DESKRIPSI_ILUSTRASI; Grp any_lazy; lit TEKS_CERITA].

(** /\[TEKS CERITA\]([\s\S]*?)\[TEKS SUARA\]/i *)
Definition storyRe : regex :=
  cat [lit TEKS_CERITA; Grp any_lazy; lit TEKS_SUARA].

(** /\[TEKS SUARA\]([\s\S]*?)(?:={10,}|$)/i *)
Definition voiceRe : regex :=
  cat [lit TEKS_SUARA; Grp any_lazy; Alt eq10 Eoi].

(** [text.split(separator).slice(1)] *)
Definition rawPages (text : jsstring) : list jsstring :=
  drop 1 (split separator text).

(** [match[1].trim()]; capture 1 takes part in every match of the three
    patterns above (see [section_match_cap1]). *)
Definition group1_trim (y : mstate) : jsstring :=
  trim (default [] (cap1 y)).

(** The body of the [forEach] callback: what it pushes, if anything. *)
Definition page_of_block (rawPage : jsstring) (index : nat) : option StoryPage :=
  match exec descRe rawPage, exec storyRe rawPage, exec voiceRe rawPage with
  | Some descMatch, Some storyMatch, Some voiceMatch =>
      Some {| pageNumber := index + 1;
              illustrationDescription := group1_trim descMatch;
              storyText := group1_trim storyMatch;
              voiceText := group1_trim voiceMatch;
              imageUrl := None;
              audioBuffer := None;
              isLoadingAssets := Some true |}
  | _, _, _ => None
  end.

(** [rawPages.forEach((rawPage, index) => ...)], threading [pages]. *)
Fixpoint forEach_block (blocks : list jsstring) (index : nat)
    (pages : list StoryPage) : list StoryPage :=
  match blocks with
  | [] => pages
  | rawPage :: blocks' =>
      forEach_block blocks' (S index)
        match page_of_block rawPage index with
        | Some page => pages ++ [page]
        | None => pages
        end
  end.

Definition parseStoryResponse (text : jsstring) : list StoryPage :=
  forEach_block (rawPages text) 0 [].

End Parser.
Export Parser.

(** ** Exceptions

    A computation that may throw returns [Ok] or [Throw] with the message of
    the error. *)

Inductive outcome (A : Type) : Type :=
| Ok (a : A)
| Throw (message : jsstring).
Arguments Ok {A} a.
Arguments Throw {A} message.

Definition try_catch {A} (body : outcome A) (handler : jsstring -> outcome A)
  : outcome A :=
  match body with
  | Ok a => Ok a
  | Throw e => handler e
  end.

#[global] Instance outcome_ret : MRet outcome := fun A a => Ok a.
#[global] Instance outcome_bind : MBind outcome := fun A B f c =>
  match c with
  | Ok a => f a
  | Throw e => Throw e
  end.

(** JavaScript truthiness of an optional string: neither undefined nor
    empty. *)
Definition truthy (o : option jsstring) : bool :=
  match o with
  | Some (_ :: _) => true
  | _ => false
  end.

(** ** The audio decode helper (services/audioUtils.ts) *)

Module AudioUtils.

Local Open Scope Z_scope.

(** [decodeBase64]: the code units of [atob(base64)], stored in a
    [Uint8Array].  [atob] is the host's; it throws on a string that is not
    base64. *)
Definition decodeBase64 (atob : jsstring -> outcome jsstring)
    (base64 : jsstring) : outcome (list Z) :=
  binaryString ← atob base64;
  Ok (map (fun c => Z.of_N c mod 256) binaryString).

(** One element of an [Int16Array] over little-endian bytes: the low byte
    first, the 16-bit value read as two's complement. *)
Definition int16_le (lo hi : Z) : Z :=
  let u := lo + 256 * hi in
  if u <? 32768 then u else u - 65536.

(** [new Int16Array(data.buffer)]: a [RangeError] when the byte length is
    odd. *)
Fixpoint Int16Array_of (data : list Z) : outcome (list Z) :=
  match data with
  | [] => Ok []
  | lo :: hi :: data' =>
      match Int16Array_of data' with
      | Ok l => Ok (int16_le lo hi :: l)
      | Throw e => Throw e
      end
  | [_] => Throw (js "RangeError: byte length of Int16Array should be a multiple of 2")
  end.

(** The [AudioContext] that [decodeAudioData] is given: the host's
    decoder of audio containers, which rejects what it cannot decode, and
    the host's allocation of a buffer of [numChannels] channels of [length]
    frames. *)
Record AudioContext : Type := {
  ctx_decodeAudioData : list Z -> outcome AudioBuffer;
  ctx_createBuffer :
    forall (numChannels length : nat) (sampleRate : Z), outcome AudioBuffer
}.

(** [dataInt16[i * numChannels + channel] / 32768.0], stored in a
    [Float32Array].  The quotient of a 16-bit integer by 2^15 is a binary
    fraction with at most 16 significant bits, so neither the division
    nor the store rounds. *)
Definition sample_at (dataInt16 : list Z) (numChannels channel i : nat) : Q :=
  Qmake (nth (i * numChannels + channel)%nat dataInt16 0) 32768.

(** The inner loop: [channelData[i] = ...] for [i] below [frameCount]; a
    store past the end of a typed array does nothing. *)
Definition fill_channel (dataInt16 : list Z) (numChannels frameCount channel : nat)
    (channelData : list Q) : list Q :=
  foldl (fun cd i => <[i := sample_at dataInt16 numChannels channel i]> cd)
        channelData (seq 0 frameCount).

(** The outer loop from [channel] on, [todo] channels to go;
    [buffer.getChannelData(channel)] throws for a channel that the buffer
    does not have. *)
Fixpoint fill_channels (dataInt16 : list Z) (numChannels frameCount : nat)
    (channel todo : nat) (chans : list (list Q)) : outcome (list (list Q)) :=
  match todo with
  | O => Ok chans
  | S todo' =>
      match chans !! channel with
      | Some channelData =>
          fill_channels dataInt16 numChannels frameCount (S channel) todo'
            (<[channel := fill_channel dataInt16 numChannels frameCount channel
                            channelData]> chans)
      | None => Throw (js "IndexSizeError")
      end
  end.

(** The [catch] branch of [decodeAudioData].  [frameCount] is the quotient
    as [createBuffer] takes it, an integer. *)
Definition rawPcmFallback (data : list Z) (ctx : AudioContext) (sampleRate : Z)
    (numChannels : nat) : outcome AudioBuffer :=
  dataInt16 ← Int16Array_of data;
  let frameCount := (length dataInt16 / numChannels)%nat in
  buffer ← ctx_createBuffer ctx numChannels frameCount sampleRate;
  chans ← fill_channels dataInt16 numChannels frameCount 0 numChannels
             (channels buffer);
  Ok (with_channels buffer chans).

(** [decodeAudioData]: the host's decoder first; when it rejects, the
    bytes are read as raw PCM. *)
Definition decodeAudioData (data : list Z) (ctx : AudioContext)
    (sampleRate : Z) (numChannels : nat) : outcome AudioBuffer :=
  try_catch (ctx_decodeAudioData ctx data)
    (fun _ => rawPcmFallback data ctx sampleRate numChannels).

(** What [createBuffer] returns for arguments that the host accepts:
    silence. *)
Definition silence (numChannels length : nat) (sampleRate : Z) : AudioBuffer :=
  {| sampleRate := sampleRate;
     channels := repeat (repeat 0%Q length) numChannels |}.

(** The encoder of the round trip: a 16-bit sample as two little-endian
    bytes. *)
Definition encode_le (samples : list Z) : list Z :=
  flat_map (fun s => [s mod 256; (s / 256) mod 256]) samples.

Definition is_int16 (s : Z) : Prop := -32768 <= s <= 32767.

End AudioUtils.
Export AudioUtils.

(** ** The AI service client (services/geminiService.ts) *)

Module GeminiService.

(** The part of a [GenerateContentResponse] that the program reads. *)
Record InlineData : Type := { data : option jsstring }.
Record Part : Type := { inlineData : option InlineData }.
Record Content : Type := { parts : option (list Part) }.
Record Candidate : Type := { content : option Content }.
Record Response : Type := {
  text : option jsstring;
  candidates : option (list Candidate)
}.

(** The three requests of the program, by model and payload. *)
Inductive Request : Type :=
| TextRequest (contents : jsstring)     (* gemini-2.5-flash *)
| ImageRequest (prompt : jsstring)      (* gemini-2.5-flash-image *)
| SpeechRequest (text : jsstring).      (* gemini-2.5-flash-preview-tts *)

(** The backend: the reply to a request, given how many requests were
    made before it.  A reply is a response or a rejection. *)
Definition Backend : Type := nat -> Request -> outcome Response.

(** What the program takes from the host besides the backend. *)
Record Host : Type := {
  atob : jsstring -> outcome jsstring;
  audioContext : AudioContext;   (* new AudioContext({sampleRate: 24000}) *)
  Math_random : jsstring                              (* as it prints *)
}.

(** Calls to the backend are recorded: a computation threads the list of
    the requests made so far. *)
Definition IO (A : Type) : Type := list Request -> A * list Request.

Definition io_ret {A} (a : A) : IO A := fun log => (a, log).
Definition io_bind {A B} (c : IO A) (f : A -> IO B) : IO B :=
  fun log => let (a, log') := c log in f a log'.

Definition generateContent (ai : Backend) (req : Request) : IO (outcome Response) :=
  fun log => (ai (length log) req, log ++ [req]).

Definition generateStoryText (ai : Backend) (topic : jsstring)
    (style : IllustrationStyle) : IO (outcome (list StoryPage)) :=
  io_bind
    (generateContent ai
       (TextRequest (js "Buatkan storybook berdasarkan: " ++ topic
                     ++ js ". Gaya ilustrasi: " ++ style_name style ++ js ".")))
    (fun reply =>
       io_ret
         (try_catch
            (response ← reply;
             match text response with
             | Some (c :: t) => Ok (parseStoryResponse (c :: t))
             | _ => Throw (js "No text generated")
             end)
            (fun error => Throw error))).

(** [response.candidates?.[0]?.content?.parts] *)
Definition first_parts (response : Response) : option (list Part) :=
  match candidates response with
  | Some (candidate :: _) =>
      match content candidate with
      | Some c => parts c
      | None => None
      end
  | _ => None
  end.

(** The [for] loop over the parts: the data of the first part with
    [part.inlineData && part.inlineData.data]. *)
Fixpoint first_inline_data (ps : list Part) : option jsstring :=
  match ps with
  | [] => None
  | part :: ps' =>
      match inlineData part with
      | Some {| data := Some (c :: d) |} => Some (c :: d)
      | _ => first_inline_data ps'
      end
  end.

Definition data_uri (d : jsstring) : jsstring :=
  js "data:image/png;base64," ++ d.

Definition placeholder (host : Host) : jsstring :=
  js "https://picsum.photos/1024/1024?random=" ++ Math_random host.

Definition generateIllustration (ai : Backend) (host : Host)
    (prompt : jsstring) (style : IllustrationStyle) : IO (outcome jsstring) :=
  let finalPrompt := style_name style ++ js " style. " ++ prompt in
  io_bind (generateContent ai (ImageRequest finalPrompt))
    (fun reply =>
       io_ret
         (try_catch
            (response ← reply;
             match first_parts response with
             | Some ps =>
                 match first_inline_data ps with
                 | Some d => Ok (data_uri d)
                 | None => Throw (js "No image data found in response")
                 end
             | None => Throw (js "No image data found in response")
             end)
            (fun _ => Ok (placeholder host)))).

(** [response.candidates?.[0]?.content?.parts?.[0]?.inlineData?.data] *)
Definition first_audio (response : Response) : option jsstring :=
  match first_parts response with
  | Some (part :: _) =>
      match inlineData part with
      | Some i => data i
      | None => None
      end
  | _ => None
  end.

Definition generateNarration (ai : Backend) (host : Host) (text : jsstring)
  : IO (outcome (option AudioBuffer)) :=
  io_bind (generateContent ai (SpeechRequest text))
    (fun reply =>
       io_ret
         (try_catch
            (response ← reply;
             match first_audio response with
             | Some (c :: b) =>
                 audioBytes ← decodeBase64 (atob host) (c :: b);
                 buffer ← decodeAudioData audioBytes (audioContext host)
                            24000 1;
                 Ok (Some buffer)
             | _ => Ok None
             end)
            (fun _ => Ok None))).

End GeminiService.
Export GeminiService.

(** ** The top-level app (App.tsx) *)

Module App.

Inductive ReadingMode : Type := slide | scroll.

Record AppModel : Type := {
  appState : AppState;
  topic : jsstring;
  style : IllustrationStyle;
  readingMode : ReadingMode;
  pages : list StoryPage;
  loadingMessage : jsstring;
  error : option jsstring
}.


(** [Partial<StoryPage>]: a field is [None] when the key is absent and
    [Some v] when it is there, with the value [v] that may itself be
    undefined for the optional fields. *)
Record Updates : Type := {
  u_pageNumber : option nat;
  u_illustrationDescription : option jsstring;
  u_storyText : option jsstring;
  u_voiceText : option jsstring;
  u_imageUrl : option (option jsstring);
  u_audioBuffer : option (option AudioBuffer);
  u_isLoadingAssets : option (option bool)
}.


(** [{ ...page, ...updates }] *)
Definition spread (page : StoryPage) (updates : Updates) : StoryPage :=
  {| pageNumber := default (pageNumber page) (u_pageNumber updates);
     illustrationDescription :=
       default (illustrationDescription page) (u_illustrationDescription updates);
     storyText := default (storyText page) (u_storyText updates);
     voiceText := default (voiceText page) (u_voiceText updates);
     imageUrl := default (imageUrl page) (u_imageUrl updates);
     audioBuffer := default (audioBuffer page) (u_audioBuffer updates);
     isLoadingAssets := default (isLoadingAssets page) (u_isLoadingAssets updates) |}.

Definition set_isLoadingAssets (b : bool) (page : StoryPage) : StoryPage :=
  {| pageNumber := pageNumber page;
     illustrationDescription := illustrationDescription page;
     storyText := storyText page;
     voiceText := voiceText page;
     imageUrl := imageUrl page;
     audioBuffer := audioBuffer page;
     isLoadingAssets := Some b |}.

(** The function that [updatePage] hands to [setPages]. *)
Definition updatePage (index : nat) (updates : Updates)
    (prev : list StoryPage) : list StoryPage :=
  let newPages := prev in
  match newPages !! index with
  | None => newPages
  | Some page =>
      let merged := spread page updates in
      let merged :=
        if truthy (imageUrl merged) && bool_decide (is_Some (audioBuffer merged))
        then set_isLoadingAssets false merged
        else merged in
      <[index := merged]> newPages
  end.

(** One turn of the loop of [generateAssetsInBackground]: the two requests
    of page [i], made in this order and awaited together, then the merge
    into the page sequence current at that time. *)
Definition assets_of_page (ai : Backend) (host : Host)
    (selectedStyle : IllustrationStyle) (i : nat) (page : StoryPage)
  : IO (list StoryPage -> list StoryPage) :=
  io_bind (generateIllustration ai host (illustrationDescription page) selectedStyle)
    (fun image =>
  io_bind (generateNarration ai host (storyText page))
    (fun narration =>
       io_ret
         match image, narration with
         | Ok imageUrl, Ok audioBuffer =>
             updatePage i
               {| u_pageNumber := None; u_illustrationDescription := None;
                  u_storyText := None; u_voiceText := None;
                  u_imageUrl := Some (Some imageUrl);
                  u_audioBuffer := Some audioBuffer;
                  u_isLoadingAssets := Some (Some false) |}
         | _, _ =>
             updatePage i
               {| u_pageNumber := None; u_illustrationDescription := None;
                  u_storyText := None; u_voiceText := None;
                  u_imageUrl := None; u_audioBuffer := None;
                  u_isLoadingAssets := Some (Some false) |}
         end)).

(** [generateAssetsInBackground] when nothing else touches the page
    sequence in between: [current] is the state held by [setPages]. *)
Fixpoint generateAssetsInBackground_from (ai : Backend) (host : Host)
    (selectedStyle : IllustrationStyle) (i : nat) (storyPages : list StoryPage)
    (current : list StoryPage) : IO (list StoryPage) :=
  match storyPages with
  | [] => io_ret current
  | page :: storyPages' =>
      io_bind (assets_of_page ai host selectedStyle i page)
        (fun merge =>
           generateAssetsInBackground_from ai host selectedStyle (S i)
             storyPages' (merge current))
  end.

Definition generateAssetsInBackground (ai : Backend) (host : Host)
    (storyPages : list StoryPage) (selectedStyle : IllustrationStyle)
    (current : list StoryPage) : IO (list StoryPage) :=
  generateAssetsInBackground_from ai host selectedStyle 0 storyPages current.

Definition with_state (app : AppModel) (st : AppState) (pgs : list StoryPage)
    (msg : jsstring) (err : option jsstring) : AppModel :=
  {| appState := st; topic := topic app; style := style app;
     readingMode := readingMode app; pages := pgs;
     loadingMessage := msg; error := err |}.

(** [handleGenerate] up to the point where the reading view is shown; the
    asset pipeline that it starts runs on afterwards. *)
Definition handleGenerate (ai : Backend) (app : AppModel) : IO AppModel :=
  match trim (topic app) with
  | [] => io_ret app
  | _ :: _ =>
      let app1 := with_state app Generating_text (pages app)
                    (js "Weaving your story text with Gemini...") None in
      io_bind (generateStoryText ai (topic app) (style app))
        (fun result =>
           io_ret
             match (storyPages ← result;
                    match storyPages with
                    | [] => Throw (js "Failed to generate valid story structure.")
                    | _ :: _ => Ok storyPages
                    end) with
             | Ok storyPages =>
                 with_state app1 Reading storyPages
                   (js "Painting illustrations and recording voices...") None
             | Throw message =>
                 with_state app1 Error (pages app1) (loadingMessage app1)
                   (Some match message with
                         | [] => js "Something went wrong while creating your story."
                         | _ :: _ => message
                         end)
             end)
  end.

Definition resetApp (app : AppModel) : AppModel :=
  {| appState := Input; topic := []; style := style app;
     readingMode := readingMode app; pages := [];
     loadingMessage := loadingMessage app; error := None |}.

End App.
Export App.

(** ** The viewer (components/BookViewer.tsx) *)

Module BookViewer.

(** *** Navigation

    A handler closes over the [currentPageIndex] of the render that made
    it and hands [setCurrentPageIndex] a function of the state of that
    time, [prev]. *)

Definition handleNext (pages : list StoryPage) (currentPageIndex : Z) (prev : Z) : Z :=
  if (currentPageIndex <? Z.of_nat (length pages) - 1)%Z
  then (prev + 1)%Z else prev.

Definition handlePrev (pages : list StoryPage) (currentPageIndex : Z) (prev : Z) : Z :=
  if (currentPageIndex >? 0)%Z
  then (prev + 1)%Z else prev.

(** [pages[currentPageIndex]] *)
Definition currentPage (pages : list StoryPage) (currentPageIndex : Z)
  : option StoryPage :=
  if (currentPageIndex <? 0)%Z then None
  else pages !! Z.to_nat currentPageIndex.

(** The indexing invariant of the slide view. *)
Definition index_in_range (pages : list StoryPage) (currentPageIndex : Z) : Prop :=
  (0 <= currentPageIndex <= Z.of_nat (length pages) - 1)%Z.

(** *** Playback transport *)

Section Transport.

(** Audio buffer objects; [===] on them is identity. *)
Context {B : Type} `{EqDecision B}.

Inductive ContextState : Type := Suspended | Running | Closed.

(** An [AudioBufferSourceNode] and what happened to it.  [onended_saw]
    is the [playingAudioBuffer] that its [onended] handler closed
    over. *)
Record SourceNode : Type := {
  buffer : B;
  connected : bool;
  started : bool;
  stopped : bool;
  ended : bool;
  onended_saw : option B
}.

(** A node sounds from [start()] until [stop()] or the end of its
    buffer. *)
Definition active (n : SourceNode) : bool :=
  started n && negb (stopped n) && negb (ended n).

Record Transport : Type := {
  audioContextRef : option ContextState;
  sourceNodeRef : option nat;       (* an index into [nodes] *)
  nodes : list SourceNode;          (* every node created so far *)
  playingAudioBuffer : option B
}.

Definition mounted : Transport :=
  {| audioContextRef := None; sourceNodeRef := None; nodes := [];
     playingAudioBuffer := None |}.

Definition active_nodes (t : Transport) : list SourceNode :=
  filter (fun n => active n = true) (nodes t).

(** [node.stop(); node.disconnect()] inside [try]: [stop()] throws on a
    node that was never started, and then [disconnect()] is not
    reached. *)
Definition stop_and_disconnect (n : SourceNode) : SourceNode :=
  if started n
  then {| buffer := buffer n; connected := false; started := started n;
          stopped := true; ended := ended n; onended_saw := onended_saw n |}
  else n.

Definition stopAudio (t : Transport) : Transport :=
  match sourceNodeRef t with
  | Some id =>
      {| audioContextRef := audioContextRef t;
         sourceNodeRef := None;
         nodes := alter stop_and_disconnect id (nodes t);
         playingAudioBuffer := None |}
  | None =>
      {| audioContextRef := audioContextRef t;
         sourceNodeRef := sourceNodeRef t;
         nodes := nodes t;
         playingAudioBuffer := None |}
  end.

(** The first statement of [playAudio]: a context is made when there is
    none or it is closed; [fresh] is the state the host gives it. *)
Definition open_context (fresh : ContextState) (t : Transport) : Transport :=
  match audioContextRef t with
  | Some Suspended | Some Running => t
  | Some Closed | None =>
      {| audioContextRef := Some fresh; sourceNodeRef := sourceNodeRef t;
         nodes := nodes t; playingAudioBuffer := playingAudioBuffer t |}
  end.

Definition resumed (t : Transport) : Transport :=
  {| audioContextRef :=
       match audioContextRef t with
       | Some Suspended => Some Running
       | o => o
       end;
     sourceNodeRef := sourceNodeRef t;
     nodes := nodes t; playingAudioBuffer := playingAudioBuffer t |}.

(** [createBufferSource], [source.buffer = buffer], [connect], the
    [onended] closure, and [sourceNodeRef.current = source]. *)
Definition create_source (saw : option B) (b : B) (t : Transport) : Transport :=
  {| audioContextRef := audioContextRef t;
     sourceNodeRef := Some (length (nodes t));
     nodes := nodes t ++ [{| buffer := b; connected := true; started := false;
                             stopped := false; ended := false;
                             onended_saw := saw |}];
     playingAudioBuffer := playingAudioBuffer t |}.

Definition start_node (n : SourceNode) : SourceNode :=
  {| buffer := buffer n; connected := connected n; started := true;
     stopped := stopped n; ended := ended n; onended_saw := onended_saw n |}.

(** [source.start(); setPlayingAudioBuffer(buffer)] on the node just
    stored in [sourceNodeRef]. *)
Definition start_source (b : B) (t : Transport) : Transport :=
  {| audioContextRef := audioContextRef t;
     sourceNodeRef := sourceNodeRef t;
     nodes := match sourceNodeRef t with
              | Some id => alter start_node id (nodes t)
              | None => nodes t
              end;
     playingAudioBuffer := Some b |}.

(** [playAudio] from [stopAudio()] on: it runs without suspension. *)
Definition playAudio_body (saw : option B) (b : B) (t : Transport) : Transport :=
  start_source b (create_source saw b (stopAudio t)).

(** [playAudio] up to its first suspension: with a suspended context
    the call waits for [resume()], and [playAudio_body] runs later. *)
Definition playAudio (fresh : ContextState) (saw : option B) (b : B)
    (t : Transport) : Transport :=
  let t1 := open_context fresh t in
  match audioContextRef t1 with
  | Some Suspended => t1
  | _ => playAudio_body saw b t1
  end.

(** [toggleAudio] of a render in which [playingAudioBuffer] was [saw]. *)
Definition toggleAudio (fresh : ContextState) (saw : option B)
    (b : option B) (t : Transport) : Transport :=
  match b with
  | None => t
  | Some b =>
      if decide (saw = Some b) then stopAudio t
      else playAudio fresh saw b t
  end.

(** The [ended] event of node [id] and its [onended] handler. *)
Definition mark_ended (n : SourceNode) : SourceNode :=
  {| buffer := buffer n; connected := connected n; started := started n;
     stopped := stopped n; ended := true; onended_saw := onended_saw n |}.

Definition on_ended (id : nat) (t : Transport) : Transport :=
  match nodes t !! id with
  | Some n =>
      {| audioContextRef := audioContextRef t;
         sourceNodeRef := sourceNodeRef t;
         nodes := alter mark_ended id (nodes t);
         playingAudioBuffer :=
           if decide (onended_saw n = Some (buffer n)) then None
           else playingAudioBuffer t |}
  | None => t
  end.

(** The cleanup on unmount: [stopAudio()], and [close()] on a context
    that is not closed yet. *)
Definition unmount (t : Transport) : Transport :=
  let t1 := stopAudio t in
  {| audioContextRef :=
       match audioContextRef t1 with
       | Some _ => Some Closed
       | None => None
       end;
     sourceNodeRef := sourceNodeRef t1;
     nodes := nodes t1;
     playingAudioBuffer := playingAudioBuffer t1 |}.

(** What can happen to the transport: a click on a play control of any
    render, the continuation of a [playAudio] that waited for
    [resume()], the end of a node that sounds, [stopAudio] from the
    page-change effect, and the cleanup on unmount. *)
Inductive step : Transport -> Transport -> Prop :=
| step_toggle fresh saw b t :
    step t (toggleAudio fresh saw b t)
| step_resumed saw b t :
    step t (playAudio_body saw b (resumed t))
| step_ended id n t :
    nodes t !! id = Some n -> active n = true ->
    step t (on_ended id t)
| step_stop t :
    step t (stopAudio t)
| step_unmount t :
    step t (unmount t).

Inductive reachable : Transport -> Prop :=
| reachable_mounted : reachable mounted
| reachable_step t t' : reachable t -> step t t' -> reachable t'.

(** A node that sounds is the one [sourceNodeRef] holds. *)
Definition one_source (t : Transport) : Prop :=
  forall id n, nodes t !! id = Some n -> active n = true ->
               sourceNodeRef t = Some id.

End Transport.

(** *** PDF export *)

(** The document of jsPDF: its pages, each with the images drawn on it.
    A new document has one page; [addPage] appends a page and makes it
    the current one; [addImage] draws on the current page. *)
Definition PdfDoc : Type := list (list jsstring).

Definition jsPDF_new : PdfDoc := [[]].
Definition addPage (doc : PdfDoc) : PdfDoc := doc ++ [[]].
Definition addImage (imgData : jsstring) (doc : PdfDoc) : PdfDoc :=
  match rev doc with
  | [] => []
  | last :: before => rev before ++ [last ++ [imgData]]
  end.

(** The [for] loop of [handleDownloadPdf] from index [i] on.
    [html2canvas] stands for rendering [PdfPage] off screen, waiting for
    its image and rasterizing it to a PNG data URL. *)
Fixpoint export_from (html2canvas : StoryPage -> outcome jsstring)
    (i : nat) (pages : list StoryPage) (doc : PdfDoc) : outcome PdfDoc :=
  match pages with
  | [] => Ok doc
  | page :: pages' =>
      if negb (truthy (imageUrl page))
      then export_from html2canvas (S i) pages' doc
      else
        imgData ← html2canvas page;
        let doc := if 0 <? i then addPage doc else doc in
        export_from html2canvas (S i) pages' (addImage imgData doc)
  end.

(** [handleDownloadPdf]: the document handed to [doc.save], if any. *)
Definition handleDownloadPdf (libraries_found : bool)
    (html2canvas : StoryPage -> outcome jsstring) (pages : list StoryPage)
  : option PdfDoc :=
  if negb libraries_found then None
  else
    match export_from html2canvas 0 pages jsPDF_new with
    | Ok doc => Some doc
    | Throw _ => None
    end.

(** What the export is meant to print: the pages with an image. *)
Definition with_image (pages : list StoryPage) : list StoryPage :=
  filter (fun page => truthy (imageUrl page) = true) pages.

End BookViewer.
Export BookViewer.

(** ** Notions used to state the properties *)

Module Notions.

(** [strip_ci l s]: [s] without a leading copy of [l], compared the way
    a pattern character is compared under the [i] flag. *)
Fixpoint strip_ci (l s : jsstring) : option jsstring :=
  match l with
  | [] => Some s
  | c :: l' =>
      match s with
      | d :: s' =>
          if (canonicalize d =? canonicalize c)%N then strip_ci l' s' else None
      | [] => None
      end
  end.

(** The first success of [k] over the suffixes of [s], longest first. *)
Fixpoint scan_lazy (k : mstate -> option mstate) (c : option jsstring)
    (s : jsstring) : option mstate :=
  orelse (k (MState s c))
         match s with
         | [] => None
         | _ :: s' => scan_lazy k c s'
         end.

(** Equality up to the case of ASCII letters. *)
Definition ci_eq (a b : jsstring) : Prop :=
  map canonicalize a = map canonicalize b.

(** [l1] occurs in [raw], and [l2] occurs somewhere after it. *)
Definition labels_in_order (l1 l2 raw : jsstring) : Prop :=
  exists pre a mid b post,
    raw = pre ++ a ++ mid ++ b ++ post /\ ci_eq a l1 /\ ci_eq b l2.

(** [l] occurs in [raw]. *)
Definition label_present (l raw : jsstring) : Prop :=
  exists pre a post, raw = pre ++ a ++ post /\ ci_eq a l.

(** The block is one for which the callback of [parseStoryResponse]
    pushes a page. *)
Definition emitted (rawPage : jsstring) : bool :=
  match page_of_block rawPage 0 with Some _ => true | None => false end.

Definition nonempty (s : jsstring) : bool :=
  match s with [] => false | _ :: _ => true end.

(** A well-formed block: the three sections are found and none is empty
    after trimming. *)
Definition well_formed (rawPage : jsstring) : bool :=
  match page_of_block rawPage 0 with
  | Some page =>
      nonempty (illustrationDescription page) && nonempty (storyText page)
      && nonempty (voiceText page)
  | None => false
  end.

(** The 1-based positions, from [index] on, of the blocks that are
    emitted. *)
Fixpoint emitted_positions (blocks : list jsstring) (index : nat) : list nat :=
  match blocks with
  | [] => []
  | rawPage :: blocks' =>
      if emitted rawPage then (index + 1) :: emitted_positions blocks' (S index)
      else emitted_positions blocks' (S index)
  end.

(** The pages of the blocks from [index] on, in order. *)
Fixpoint pages_of_blocks (blocks : list jsstring) (index : nat) : list StoryPage :=
  match blocks with
  | [] => []
  | rawPage :: blocks' =>
      match page_of_block rawPage index with
      | Some page => page :: pages_of_blocks blocks' (S index)
      | None => pages_of_blocks blocks' (S index)
      end
  end.

End Notions.
Export Notions.

(** Patterns without a capture group. *)
Fixpoint no_grp (r : regex) : bool :=
  match r with
  | Eps | Chr _ | Cls _ | Eoi => true
  | Cat r1 r2 | Alt r1 r2 => no_grp r1 && no_grp r2
  | Rep _ _ r' => no_grp r'
  | Grp _ => false
  end.

(** What the claim about non-empty sections says of the parser: a page
    that is returned has no empty field. *)
Definition only_nonempty_sections_emitted : Prop :=
  forall text page,
    In page (parseStoryResponse text) ->
    illustrationDescription page <> [] /\ storyText page <> []
    /\ voiceText page <> [].

(** A response whose only block has the three labels and nothing between
    the first two. *)
Definition blob_empty_section : jsstring := js
"========================================
HALAMAN 1
========================================
[DESKRIPSI ILUSTRASI]
[TEKS CERITA] Once upon a time.
[TEKS SUARA] Meow.
".

(** What the claim about page numbers says of the parser: with K
    well-formed blocks in the response, the page numbers returned are
    1..K. *)
Definition pages_numbered_1_to_K : Prop :=
  forall text,
    map pageNumber (parseStoryResponse text)
    = seq 1 (length (filter (fun b => well_formed b = true) (rawPages text))).

(** A response whose first block lacks the voice section and whose second
    block is complete. *)
Definition blob_dropped_first : jsstring := js
"========================================
HALAMAN 1
========================================
[DESKRIPSI ILUSTRASI] A dog.
[TEKS CERITA] Woof.
========================================
HALAMAN 2
========================================
[DESKRIPSI ILUSTRASI] A cat.
[TEKS CERITA] Once upon a time.
[TEKS SUARA] Meow.
".

(** The separator line as the system instruction prints it, with [token]
    for [{N}]. *)
Definition eq40 : jsstring := repeat 61%N 40.
Definition nl : jsstring := [10%N].
Definition separator_lines (token : jsstring) : jsstring :=
  eq40 ++ nl ++ js "HALAMAN " ++ token ++ nl ++ eq40.

(** A response: a preamble, then for every block its separator lines with
    the block's token, and its body. *)
Definition blob (preamble : jsstring) (blocks : list (jsstring * jsstring))
  : jsstring :=
  preamble ++ flat_map (fun b => separator_lines (fst b) ++ snd b) blocks.

Definition is_token (token : jsstring) : Prop :=
  token <> [] /\ Forall (fun c => is_digit c = true) token.

(** A body of a block: not empty, and without the character [=]. *)
Definition is_body (body : jsstring) : Prop :=
  body <> [] /\ Forall (fun c => c <> 61%N) body.

(** The matcher of a pattern that takes one character: [Chr] and [Cls]
    are instances ([m_Chr_char_step], [m_Cls_char_step]). *)
Definition char_step (P : char -> bool)
  : mstate -> (mstate -> option mstate) -> option mstate :=
  fun x k =>
    match rest x with
    | d :: s' => if P d then k (MState s' (cap1 x)) else None
    | [] => None
    end.

(** [s] is empty or starts with a character that fails [P]. *)
Definition stops (P : char -> bool) (s : jsstring) : Prop :=
  match s with
  | [] => True
  | d :: _ => P d = false
  end.

(** A block of a response in the prescribed format: a token of digits and
    a body. *)
Definition is_block (b : jsstring * jsstring) : Prop :=
  is_token (fst b) /\ is_body (snd b).

(** The page that the parser returns for [blob_empty_section]. *)
Definition page_empty_description : StoryPage :=
  {| pageNumber := 1;
     illustrationDescription := [];
     storyText := js "Once upon a time.";
     voiceText := js "Meow.";
     imageUrl := None;
     audioBuffer := None;
     isLoadingAssets := Some true |}.

(** Two blocks in the prescribed format whose tokens are not their
    positions. *)
Definition sample_blocks : list (jsstring * jsstring) :=
  [ (js "7", js "
[DESKRIPSI ILUSTRASI] A dog.
[TEKS CERITA] Woof.
");
    (js "3", js "
[DESKRIPSI ILUSTRASI] A cat.
[TEKS CERITA] Once upon a time.
[TEKS SUARA] Meow.
") ].

(** The texts of the speech requests in a record of requests. *)
Definition narration_texts (log : list Request) : list jsstring :=
  omap (fun req => match req with SpeechRequest t => Some t | _ => None end) log.

(** The two requests that the pipeline makes for a page. *)
Definition requests_of_page (selectedStyle : IllustrationStyle) (page : StoryPage)
  : list Request :=
  [ ImageRequest (style_name selectedStyle ++ js " style. "
                  ++ illustrationDescription page);
    SpeechRequest (storyText page) ].

Definition with_voiceText (v : jsstring) (page : StoryPage) : StoryPage :=
  {| pageNumber := pageNumber page;
     illustrationDescription := illustrationDescription page;
     storyText := storyText page;
     voiceText := v;
     imageUrl := imageUrl page;
     audioBuffer := audioBuffer page;
     isLoadingAssets := isLoadingAssets page |}.

(** The backend gave no text: the call was rejected, or the text of the
    response is undefined or empty. *)
Definition no_text (reply : outcome Response) : Prop :=
  match reply with
  | Ok response => truthy (text response) = false
  | Throw _ => True
  end.

(** The backend gave a text in which the parser finds no page. *)
Definition no_pages (reply : outcome Response) : Prop :=
  exists response t,
    reply = Ok response /\ text response = Some t /\ t <> []
    /\ parseStoryResponse t = [].

Definition text_request (app : AppModel) : Request :=
  TextRequest (js "Buatkan storybook berdasarkan: " ++ topic app
               ++ js ". Gaya ilustrasi: " ++ style_name (style app) ++ js ".").

(** The part has inline data that counts as an image for
    [generateIllustration]. *)
Definition image_of_part (part : Part) : option jsstring :=
  match inlineData part with
  | Some {| data := Some (c :: d) |} => Some (c :: d)
  | _ => None
  end.

(** Sample pages, replies and hosts. *)
Definition sample_page (n : nat) (image : option jsstring) : StoryPage :=
  {| pageNumber := n;
     illustrationDescription := js "A cat.";
     storyText := js "Once upon a time.";
     voiceText := js "Meow.";
     imageUrl := image;
     audioBuffer := None;
     isLoadingAssets := Some true |}.

Definition sample_app : AppModel :=
  {| appState := Input; topic := js "a cat"; style := Watercolor;
     readingMode := slide; pages := [];
     loadingMessage := js "Generating Story..."; error := None |}.

Definition backend_down : Backend := fun _ _ => Throw (js "Failed to fetch").

Definition backend_story : Backend := fun _ _ =>
  Ok {| text := Some blob_dropped_first; candidates := None |}.

(** An audio context whose decoder knows no container and whose
    [createBuffer] follows the Web Audio contract: it refuses a count of
    channels or of frames that is zero. *)
Definition sample_context : AudioContext :=
  {| ctx_decodeAudioData := fun _ => Throw (js "EncodingError");
     ctx_createBuffer := fun numChannels length sampleRate =>
       match numChannels, length with
       | S _, S _ => Ok (silence numChannels length sampleRate)
       | _, _ => Throw (js "NotSupportedError")
       end |}.

Definition sample_host : Host :=
  {| atob := fun _ => Ok [];
     audioContext := sample_context;
     Math_random := js "0.5" |}.

(** A book of two pages in which only the second has its image. *)
Definition png_of_cat : jsstring := js "data:image/png;base64,iVBORw0KGgo=".

Definition book_without_first_image : list StoryPage :=
  [sample_page 1 None; sample_page 2 (Some png_of_cat)].

(** A rasterizer that succeeds: the PNG of a page is named after its
    number. *)
Definition sample_html2canvas (page : StoryPage) : outcome jsstring :=
  Ok (js "data:image/png;base64,page" ++ repeat 43%N (pageNumber page)).

(** The images that a document shows, page after page. *)
Definition images_of (doc : PdfDoc) : list jsstring := concat doc.

(** No node sounds. *)
Definition silent {B} (t : @Transport B) : Prop :=
  forall id n, nodes t !! id = Some n -> active n = false.

(** A transport in which buffer 1 plays: the click on its play control
    from the mounted viewer, with a running context. *)
Definition playing_one : @Transport nat :=
  toggleAudio Running None (Some 1) mounted.

(** A book of two pages none of which has its image yet. *)
Definition book_without_images : list StoryPage :=
  [sample_page 1 None; sample_page 2 None].

(** ** Notions for the further properties *)

(** A byte of a [Uint8Array]. *)
Definition is_byte (b : Z) : Prop := (0 <= b <= 255)%Z.

(** A response that carries audio in its first part, an audio context
    that takes every payload for raw PCM, and a host with an [atob] that
    yields four code units. *)
Definition speech_response : Response :=
  {| text := None;
     candidates :=
       Some [{| content :=
                  Some {| parts :=
                            Some [{| inlineData :=
                                       Some {| data := Some (js "AAD/fw==") |} |}]
                       |} |}] |}.

Definition backend_speech : Backend := fun _ _ => Ok speech_response.

Definition pcm_host : Host :=
  {| atob := fun _ => Ok [0; 0; 255; 127]%N;
     audioContext := sample_context;
     Math_random := js "0.5" |}.

(** The index after [n] clicks on the next-page control, each from an
    up-to-date render, starting at [start]. *)
Fixpoint after_next (pages : list StoryPage) (n : nat) (start : Z) : Z :=
  match n with
  | O => start
  | S n' =>
      let idx := after_next pages n' start in
      handleNext pages idx idx
  end.

(** The document that the export draws when every rasterization
    succeeds: one page per image, after a blank page when the first page
    of the book has no image. *)
Definition one_per_page (html2canvas : StoryPage -> jsstring)
    (pages : list StoryPage) : PdfDoc :=
  map (fun page => [html2canvas page]) (with_image pages).

Definition drawn_document (html2canvas : StoryPage -> jsstring)
    (pages : list StoryPage) : PdfDoc :=
  match pages with
  | page :: _ =>
      if truthy (imageUrl page) then one_per_page html2canvas pages
      else [] :: one_per_page html2canvas pages
  | [] => [[]]
  end.

(** A rasterizer that fails on page 2. *)
Definition html2canvas_fails_on_2 (page : StoryPage) : outcome jsstring :=
  if pageNumber page =? 2 then Throw (js "SecurityError")
  else sample_html2canvas page.

(** The record that [updatePage] stores for a page that exists. *)
Definition merged_page (page : StoryPage) (updates : Updates) : StoryPage :=
  let merged := spread page updates in
  if truthy (imageUrl merged) && bool_decide (is_Some (audioBuffer merged))
  then set_isLoadingAssets false merged
  else merged.

(** [page'] is [page] with its assets settled: it has an image, it is
    not loading, and its number and texts are those of [page]. *)
Definition settled (page page' : StoryPage) : Prop :=
  truthy (imageUrl page') = true
  /\ isLoadingAssets page' = Some false
  /\ pageNumber page' = pageNumber page
  /\ illustrationDescription page' = illustrationDescription page
  /\ storyText page' = storyText page
  /\ voiceText page' = voiceText page.

(** The message that the error view shows for a reply of the backend to
    the text request, if the reply is a failure. *)
Definition failure_message (reply : outcome Response) : option jsstring :=
  match reply with
  | Throw [] => Some (js "Something went wrong while creating your story.")
  | Throw e => Some e
  | Ok response =>
      match text response with
      | Some (c :: t) =>
          match parseStoryResponse (c :: t) with
          | [] => Some (js "Failed to generate valid story structure.")
          | _ :: _ => None
          end
      | _ => Some (js "No text generated")
      end
  end.

(** Updates that carry an image and an end of loading. *)
Definition image_update (url : jsstring) : Updates :=
  {| u_pageNumber := None; u_illustrationDescription := None;
     u_storyText := None; u_voiceText := None;
     u_imageUrl := Some (Some url); u_audioBuffer := None;
     u_isLoadingAssets := Some (Some false) |}.

(** [s] neither starts nor ends with white space. *)
Definition starts_clean (s : jsstring) : Prop :=
  match s with
  | [] => True
  | c :: _ => is_space c = false
  end.

Definition trimmed (s : jsstring) : Prop :=
  starts_clean s /\ starts_clean (rev s).

(** A page as the parser makes it. *)
Definition fresh_page (n : nat) (d s v : jsstring) : StoryPage :=
  {| pageNumber := n;
     illustrationDescription := d;
     storyText := s;
     voiceText := v;
     imageUrl := None;
     audioBuffer := None;
     isLoadingAssets := Some true |}.

(** [clash l b]: comparing the label [l] with the text that starts with
    [b] fails at a character of [b], whatever comes after [b]. *)
Fixpoint clash (l b : jsstring) : bool :=
  match l, b with
  | c :: l', d :: b' =>
      if (canonicalize d =? canonicalize c)%N then clash l' b' else true
  | _, _ => false
  end.

(** The label [l] begins at no position of [w], whatever follows [w]. *)
Fixpoint clear_of (l w : jsstring) : bool :=
  match w with
  | [] => true
  | _ :: w' => clash l w && clear_of l w'
  end.

(** Text without an opening bracket. *)
Definition plain (s : jsstring) : Prop := Forall (fun c => c <> 91%N) s.

(** What may follow the voice section: the end of the block, or a rule of
    ten or more [=]. *)
Definition closes (tail : jsstring) : Prop :=
  tail = [] \/ exists tail', tail = repeat 61%N 10 ++ tail'.

(** A page as the system instruction prescribes it (FORMAT OUTPUT WAJIB):
    the separator lines with the page number, a blank line, the three
    labelled sections, each followed by a blank line, and a closing rule. *)
Record Written : Type := {
  w_token : jsstring;
  w_description : jsstring;
  w_story : jsstring;
  w_voice : jsstring
}.

Definition page_sections (p : Written) : jsstring :=
  nl ++ nl ++ DESKRIPSI_ILUSTRASI ++ nl ++ w_description p ++ nl ++ nl
  ++ TEKS_CERITA ++ nl ++ w_story p ++ nl ++ nl
  ++ TEKS_SUARA ++ nl ++ w_voice p ++ nl ++ nl.

Definition page_body (p : Written) : jsstring :=
  page_sections p ++ eq40 ++ nl ++ nl.

Definition page_text (p : Written) : jsstring :=
  separator_lines (w_token p) ++ page_body p.

Definition response (preamble : jsstring) (ps : list Written) : jsstring :=
  preamble ++ flat_map page_text ps.

(** The page number is a run of digits; the description and the story
    hold neither [=] nor an opening bracket, the narration no [=]. *)
Definition is_written (p : Written) : Prop :=
  is_token (w_token p)
  /\ Forall (fun c => c <> 61%N /\ c <> 91%N) (w_description p)
  /\ Forall (fun c => c <> 61%N /\ c <> 91%N) (w_story p)
  /\ Forall (fun c => c <> 61%N) (w_voice p).

(** The page to expect for the page written at position [i]. *)
Definition parsed (i : nat) (p : Written) : StoryPage :=
  fresh_page (i + 1) (trim (w_description p)) (trim (w_story p))
             (trim (w_voice p)).

Definition sample_written : list Written :=
  [ {| w_token := js "1";
       w_description := js "A grey cat on a red roof, at dusk.";
       w_story := js "Once upon a time a cat sat on a roof.";
       w_voice := js "Meow [softly]." |};
    {| w_token := js "2";
       w_description := js "The cat jumps down.";
       w_story := js "Then it went home.";
       w_voice := js "Good night!" |} ].

(** What follows a closing rule and its blank line: nothing, or the rule
    of the next separator. *)
Definition after_rule (t : jsstring) : Prop :=
  match t with
  | [] => True
  | d :: _ => d = 61%N
  end.


(** * Properties *)

(** ** The matcher on the patterns of the parser *)

Section MatcherFacts.

Implicit Types (s l : jsstring) (k : mstate -> option mstate) (x : mstate).

Lemma orelse_None_r {A} (o : option A) : orelse o None = o.
Proof. by destruct o. Qed.

Lemma m_lit l x k :
  m (lit l) x k =
  match strip_ci l (rest x) with
  | Some s' => k (MState s' (cap1 x))
  | None => None
  end.
Proof.
  revert x k. induction l as [|c l IH]; intros [s c1] k; simpl.
  - reflexivity.
  - destruct s as [|d s]; [reflexivity|].
    destruct (canonicalize d =? canonicalize c)%N; [|reflexivity].
    apply IH.
Qed.

Lemma any_class d : existsb (fun a => atom_matches a d) [ASpace; ANonSpace] = true.
Proof. simpl. by destruct (is_space d). Qed.

Lemma length_cons_neqb {A} (d : A) (t : list A) :
  (length t =? length (d :: t)) = false.
Proof. apply Nat.eqb_neq. simpl. lia. Qed.

Lemma rep_loop_any_lazy fuel s c k :
  length s <= fuel ->
  rep_loop (m (Cls [ASpace; ANonSpace])) false k fuel 0 (MState s c)
  = scan_lazy k c s.
Proof.
  revert s. induction fuel as [|fuel IH]; intros s Hlen.
  - destruct s; [|simpl in Hlen; lia]. simpl. by rewrite orelse_None_r.
  - destruct s as [|d s].
    + simpl. reflexivity.
    + cbn [rep_loop scan_lazy m rest cap1]. rewrite any_class.
      rewrite length_cons_neqb. rewrite IH by (simpl in Hlen; lia).
      reflexivity.
Qed.

Lemma m_any_lazy x k : m any_lazy x k = scan_lazy k (cap1 x) (rest x).
Proof.
  destruct x as [s c]. unfold any_lazy. cbn [m]. simpl rest.
  apply rep_loop_any_lazy. simpl. lia.
Qed.

Lemma scan_lazy_Some k c s y :
  scan_lazy k c s = Some y ->
  exists mid t, s = mid ++ t /\ k (MState t c) = Some y.
Proof.
  induction s as [|d s IH]; simpl.
  - destruct (k (MState [] c)) eqn:E; [|discriminate].
    intros [= <-]. by exists [], [].
  - destruct (k (MState (d :: s) c)) eqn:E.
    + intros [= <-]. by exists [], (d :: s).
    + intros H. destruct (IH H) as (mid & t & -> & Hk).
      by exists (d :: mid), t.
Qed.

Lemma scan_lazy_complete k c mid t :
  is_Some (k (MState t c)) -> is_Some (scan_lazy k c (mid ++ t)).
Proof.
  intros Hk. induction mid as [|d mid IH]; simpl.
  - destruct t; simpl; destruct (k _); try done; by destruct Hk.
  - destruct (k (MState (d :: mid ++ t) c)); [done|]. exact IH.
Qed.

Lemma strip_ci_Some l s s' :
  strip_ci l s = Some s' <-> exists a, s = a ++ s' /\ ci_eq a l.
Proof.
  revert s. induction l as [|c l IH]; intros s; simpl.
  - split.
    + intros [= ->]. by exists [].
    + intros (a & -> & Ha). destruct a; [done|discriminate].
  - destruct s as [|d s].
    + split; [done|]. intros (a & Hs & Ha).
      destruct a; [discriminate Ha|discriminate Hs].
    + destruct (canonicalize d =? canonicalize c)%N eqn:E.
      * apply N.eqb_eq in E. rewrite IH. split.
        -- intros (a & -> & Ha). exists (d :: a). split; [done|].
           unfold ci_eq in *. simpl. by rewrite E, Ha.
        -- intros (a & Hs & Ha). destruct a as [|d' a]; [discriminate Ha|].
           injection Hs as <- ->. injection Ha as _ Ha. by exists a.
      * apply N.eqb_neq in E. split; [done|].
        intros (a & Hs & Ha). destruct a as [|d' a]; [discriminate Ha|].
        injection Hs as <- ->. injection Ha as Ha _. done.
Qed.

Lemma exec_Some r s y :
  exec r s = Some y -> exists pre t, s = pre ++ t /\ match_at r t = Some y.
Proof.
  induction s as [|d s IH]; simpl.
  - destruct (match_at r []) eqn:E; [|discriminate].
    intros [= <-]. by exists [], [].
  - destruct (match_at r (d :: s)) eqn:E.
    + intros [= <-]. by exists [], (d :: s).
    + intros H. destruct (IH H) as (pre & t & -> & Ht).
      by exists (d :: pre), t.
Qed.

Lemma exec_complete r pre t :
  is_Some (match_at r t) -> is_Some (exec r (pre ++ t)).
Proof.
  intros Ht. induction pre as [|d pre IH]; simpl.
  - destruct t; simpl; destruct (match_at r _); try done; by destruct Ht.
  - destruct (match_at r (d :: pre ++ t)); [done|]. exact IH.
Qed.

End MatcherFacts.

(** ** The quantifier never runs out of fuel

    The matcher of [r{min,}] satisfies the two equations of the
    [RepeatMatcher] of the language: any fuel from the minimum plus the
    length of the input on gives the same result. *)

Section RepeatFacts.

Implicit Types (r : regex) (x y : mstate) (k : mstate -> option mstate).

Lemma rep_loop_ext (body : mstate -> (mstate -> option mstate) -> option mstate)
    greedy :
  (forall x k k',
      (forall y, length (rest y) <= length (rest x) -> k y = k' y) ->
      body x k = body x k') ->
  forall fuel min x k k',
    (forall y, length (rest y) <= length (rest x) -> k y = k' y) ->
    rep_loop body greedy k fuel min x = rep_loop body greedy k' fuel min x.
Proof.
  intros Hbody. induction fuel as [|fuel IH]; intros min x k k' Hk; simpl.
  - destruct min; [|done]. by apply Hk.
  - destruct min as [|min].
    + rewrite (Hk x) by done.
      rewrite (Hbody x _ (fun y => if length (rest y) =? length (rest x) then None
                                   else rep_loop body greedy k' fuel 0 y)); [done|].
      intros y Hy. destruct (length (rest y) =? length (rest x)); [done|].
      apply IH. intros z Hz. apply Hk. lia.
    + apply Hbody. intros y Hy. apply IH. intros z Hz. apply Hk. lia.
Qed.

Lemma m_ext r :
  forall x k k',
    (forall y, length (rest y) <= length (rest x) -> k y = k' y) ->
    m r x k = m r x k'.
Proof.
  induction r as [|c|atoms|r1 IH1 r2 IH2|r1 IH1 r2 IH2|greedy min r IH|r IH|];
    intros x k k' Hk; simpl.
  - by apply Hk.
  - destruct (rest x) as [|d s'] eqn:E; [done|].
    destruct (_ =? _)%N; [|done]. apply Hk. simpl. lia.
  - destruct (rest x) as [|d s'] eqn:E; [done|].
    destruct (existsb _ _); [|done]. apply Hk. simpl. lia.
  - apply IH1. intros y Hy. apply IH2. intros z Hz. apply Hk. lia.
  - by rewrite (IH1 x k k'), (IH2 x k k').
  - by apply rep_loop_ext.
  - apply IH. intros y Hy. by apply Hk.
  - destruct (rest x) eqn:E; [|done]. apply Hk. by rewrite E.
Qed.

Lemma rep_loop_fail (body : mstate -> (mstate -> option mstate) -> option mstate)
    greedy :
  (forall x k, (forall y, k y = None) -> body x k = None) ->
  forall fuel min x, rep_loop body greedy (fun _ => None) fuel min x = None.
Proof.
  intros Hbody. induction fuel as [|fuel IH]; intros min x; simpl.
  - by destruct min.
  - destruct min as [|min].
    + rewrite Hbody; [by destruct greedy|].
      intros y. by destruct (_ =? _).
    + by apply Hbody.
Qed.

Lemma m_fail r : forall x k, (forall y, k y = None) -> m r x k = None.
Proof.
  induction r as [|c|atoms|r1 IH1 r2 IH2|r1 IH1 r2 IH2|greedy min r IH|r IH|];
    intros x k Hk; simpl.
  - apply Hk.
  - destruct (rest x); [done|]. by destruct (_ =? _)%N.
  - destruct (rest x); [done|]. by destruct (existsb _ _).
  - apply IH1. intros y. by apply IH2.
  - by rewrite IH1, IH2.
  - rewrite (rep_loop_ext (m r) greedy (m_ext r) _ _ _ k (fun _ => None))
      by (intros; apply Hk).
    by apply rep_loop_fail.
  - apply IH. intros y. apply Hk.
  - by destruct (rest x).
Qed.

(** At the end of the input one more iteration cannot make progress. *)
Lemma no_progress_at_end r greedy k fuel x :
  length (rest x) = 0 ->
  m r x (fun y => if length (rest y) =? length (rest x) then None
                  else rep_loop (m r) greedy k fuel 0 y) = None.
Proof.
  intros Hx.
  rewrite (m_ext r x _ (fun _ => None)); [by apply m_fail|].
  intros y Hy. by assert ((length (rest y) =? length (rest x)) = true) as ->
    by (apply Nat.eqb_eq; lia).
Qed.

Lemma rep_loop_fuel r greedy k :
  forall fuel fuel' min x,
    min + length (rest x) <= fuel ->
    min + length (rest x) <= fuel' ->
    rep_loop (m r) greedy k fuel min x = rep_loop (m r) greedy k fuel' min x.
Proof.
  assert (forall fuel x,
             length (rest x) = 0 ->
             rep_loop (m r) greedy k fuel 0 x = k x) as Hend.
  { intros [|fuel] x Hx; simpl; [done|].
    rewrite no_progress_at_end by done.
    destruct greedy; [done|apply orelse_None_r]. }
  induction fuel as [|fuel IH]; intros fuel' min x Hfuel Hfuel'.
  - assert (min = 0) as -> by lia. by rewrite !Hend by lia.
  - destruct fuel' as [|fuel'].
    { assert (min = 0) as -> by lia. by rewrite !Hend by lia. }
    simpl. destruct min as [|min].
    + rewrite (m_ext r x _
                 (fun y => if length (rest y) =? length (rest x) then None
                           else rep_loop (m r) greedy k fuel' 0 y)); [done|].
      intros y Hy. destruct (length (rest y) =? length (rest x)) eqn:E; [done|].
      apply Nat.eqb_neq in E. apply IH; simpl in *; lia.
    + apply m_ext. intros y Hy. apply IH; simpl in *; lia.
Qed.

(** [r{n+1,}] is one [r] and then [r{n,}]. *)
Lemma m_Rep_succ greedy n r x k :
  m (Rep greedy (S n) r) x k = m r x (fun y => m (Rep greedy n r) y k).
Proof.
  cbn [m]. simpl rep_loop. apply m_ext. intros y Hy.
  apply rep_loop_fuel; lia.
Qed.

(** [r{0,}] is, in the order that greediness sets, one [r] that consumes
    input and then [r{0,}] again, or the continuation. *)
Lemma m_Rep_zero greedy r x k :
  m (Rep greedy 0 r) x k
  = let again :=
      m r x (fun y => if length (rest y) =? length (rest x) then None
                      else m (Rep greedy 0 r) y k) in
    if greedy then orelse again (k x) else orelse (k x) again.
Proof.
  cbn [m]. cbv zeta. destruct (length (rest x)) as [|n] eqn:Hx.
  - cbn [Nat.add rep_loop].
    rewrite (m_ext r x _ (fun _ => None)), m_fail by
      (done || (intros y Hy; by assert ((length (rest y) =? 0) = true) as ->
                  by (apply Nat.eqb_eq; lia))).
    destruct greedy; [done|by rewrite orelse_None_r].
  - cbn [Nat.add rep_loop]. rewrite Hx.
    rewrite (m_ext r x _
               (fun y => if length (rest y) =? S n then None
                         else rep_loop (m r) greedy k (0 + length (rest y)) 0 y));
      [done|].
    intros y Hy. destruct (length (rest y) =? S n) eqn:E; [done|].
    apply Nat.eqb_neq in E. apply rep_loop_fuel; lia.
Qed.

End RepeatFacts.

Section SectionPatterns.

Implicit Types (s l raw : jsstring) (r : regex) (y : mstate).

(** A pattern of the shape [label ( [\s\S]*? ) tail]. *)
Lemma section_pattern_at l r s y :
  match_at (cat [lit l; Grp any_lazy; r]) s = Some y ->
  exists a mid t,
    s = a ++ mid ++ t /\ ci_eq a l /\
    m r (MState t (Some mid)) Some = Some y.
Proof.
  unfold match_at. cbn [cat m]. rewrite m_lit. cbn [rest cap1].
  destruct (strip_ci l s) as [s1|] eqn:Hl; [|discriminate].
  apply strip_ci_Some in Hl as (a & -> & Ha).
  rewrite m_any_lazy. cbn [rest cap1]. intros H.
  apply scan_lazy_Some in H as (mid & t & -> & H). cbn [rest] in H.
  exists a, mid, t. split; [done|]. split; [done|].
  rewrite length_app in H.
  replace (length mid + length t - length t) with (length mid) in H by lia.
  rewrite take_app_length in H. exact H.
Qed.

Lemma section_pattern_complete l r a mid t :
  ci_eq a l ->
  is_Some (m r (MState t (Some mid)) Some) ->
  is_Some (match_at (cat [lit l; Grp any_lazy; r]) (a ++ mid ++ t)).
Proof.
  intros Ha Hr. unfold match_at. cbn [cat m]. rewrite m_lit. cbn [rest cap1].
  assert (strip_ci l (a ++ mid ++ t) = Some (mid ++ t)) as ->.
  { apply strip_ci_Some. by exists a. }
  rewrite m_any_lazy. cbn [rest cap1].
  apply scan_lazy_complete. cbn [rest].
  rewrite length_app.
  replace (length mid + length t - length t) with (length mid) by lia.
  rewrite take_app_length. exact Hr.
Qed.

Lemma lit_tail_Some l t c y :
  m (lit l) (MState t c) Some = Some y ->
  exists b post, t = b ++ post /\ ci_eq b l /\ y = MState post c.
Proof.
  rewrite m_lit. cbn [rest cap1].
  destruct (strip_ci l t) as [post|] eqn:Hl; [|discriminate].
  intros [= <-]. apply strip_ci_Some in Hl as (b & -> & Hb). by exists b, post.
Qed.

Lemma lit_tail_complete l b post c :
  ci_eq b l -> is_Some (m (lit l) (MState (b ++ post) c) Some).
Proof.
  intros Hb. rewrite m_lit. cbn [rest cap1].
  assert (strip_ci l (b ++ post) = Some post) as ->; [|done].
  apply strip_ci_Some. by exists b.
Qed.

(** The label patterns with a closing label. *)
Lemma labelled_match_iff l1 l2 raw :
  is_Some (exec (cat [lit l1; Grp any_lazy; lit l2]) raw)
  <-> labels_in_order l1 l2 raw.
Proof.
  split.
  - intros [y Hy]. apply exec_Some in Hy as (pre & s & -> & Hs).
    apply section_pattern_at in Hs as (a & mid & t & -> & Ha & Ht).
    apply lit_tail_Some in Ht as (b & post & -> & Hb & _).
    by exists pre, a, mid, b, post.
  - intros (pre & a & mid & b & post & -> & Ha & Hb).
    apply exec_complete, section_pattern_complete; [done|].
    by apply lit_tail_complete.
Qed.

Lemma labelled_match_cap1 l1 l2 raw y :
  exec (cat [lit l1; Grp any_lazy; lit l2]) raw = Some y -> is_Some (cap1 y).
Proof.
  intros Hy. apply exec_Some in Hy as (pre & s & -> & Hs).
  apply section_pattern_at in Hs as (a & mid & t & -> & Ha & Ht).
  apply lit_tail_Some in Ht as (b & post & -> & Hb & ->). by eexists.
Qed.

End SectionPatterns.

Section CaptureFacts.

Implicit Types (r : regex) (x y z : mstate) (k : mstate -> option mstate).

Lemma rep_loop_keeps_cap1 (body : mstate -> (mstate -> option mstate) -> option mstate)
    greedy k :
  (forall x k' z, body x k' = Some z -> exists y, cap1 y = cap1 x /\ k' y = Some z) ->
  forall fuel min x z,
    rep_loop body greedy k fuel min x = Some z ->
    exists y, cap1 y = cap1 x /\ k y = Some z.
Proof.
  intros Hbody. induction fuel as [|fuel IH]; intros min x z; simpl.
  - destruct min; [|discriminate]. intros Hk. by exists x.
  - destruct min as [|min].
    + assert (forall z',
        body x (fun y => if length (rest y) =? length (rest x) then None
                         else rep_loop body greedy k fuel 0 y) = Some z' ->
        exists y, cap1 y = cap1 x /\ k y = Some z') as Hagain.
      { intros z' H. apply Hbody in H as (y1 & Hc1 & H).
        destruct (length (rest y1) =? length (rest x)); [discriminate|].
        apply IH in H as (y & Hc & Hk). exists y. split; [congruence|done]. }
      destruct greedy; unfold orelse.
      * destruct (body x _) eqn:E.
        -- intros [= <-]. by apply Hagain.
        -- intros Hk. by exists x.
      * destruct (k x) eqn:E.
        -- intros [= <-]. by exists x.
        -- apply Hagain.
    + intros H. apply Hbody in H as (y1 & Hc1 & H).
      apply IH in H as (y & Hc & Hk). exists y. split; [congruence|done].
Qed.

Lemma m_keeps_cap1 r :
  no_grp r = true ->
  forall x k z, m r x k = Some z -> exists y, cap1 y = cap1 x /\ k y = Some z.
Proof.
  induction r as [|c|atoms|r1 IH1 r2 IH2|r1 IH1 r2 IH2|greedy min r IH|r IH|];
    simpl; intros Hg x k z.
  - intros Hk. by exists x.
  - destruct (rest x) as [|d s']; [discriminate|].
    destruct (_ =? _)%N; [|discriminate]. intros Hk.
    by exists (MState s' (cap1 x)).
  - destruct (rest x) as [|d s']; [discriminate|].
    destruct (existsb _ _); [|discriminate]. intros Hk.
    by exists (MState s' (cap1 x)).
  - apply andb_true_iff in Hg as [Hg1 Hg2]. intros H.
    apply (IH1 Hg1) in H as (y1 & Hc1 & H).
    apply (IH2 Hg2) in H as (y & Hc & Hk). exists y. split; [congruence|done].
  - apply andb_true_iff in Hg as [Hg1 Hg2]. unfold orelse.
    destruct (m r1 x k) eqn:E.
    + intros [= <-]. by apply (IH1 Hg1).
    + by apply (IH2 Hg2).
  - apply rep_loop_keeps_cap1. by apply IH.
  - discriminate.
  - destruct (rest x); [|discriminate]. intros Hk. by exists x.
Qed.

Lemma voice_match_iff raw :
  is_Some (exec voiceRe raw) <-> label_present TEKS_SUARA raw.
Proof.
  unfold voiceRe. split.
  - intros [y Hy]. apply exec_Some in Hy as (pre & s & -> & Hs).
    apply section_pattern_at in Hs as (a & mid & t & -> & Ha & _).
    by exists pre, a, (mid ++ t).
  - intros (pre & a & post & -> & Ha).
    rewrite <- (app_nil_r post).
    by apply exec_complete, section_pattern_complete.
Qed.

Lemma voice_match_cap1 raw y :
  exec voiceRe raw = Some y -> is_Some (cap1 y).
Proof.
  intros Hy. apply exec_Some in Hy as (pre & s & -> & Hs).
  apply section_pattern_at in Hs as (a & mid & t & -> & Ha & Ht).
  apply m_keeps_cap1 in Ht as (y' & Hc & [= <-]); [|reflexivity].
  rewrite Hc. by eexists.
Qed.

(** Capture 1 takes part in every match of the three section patterns,
    so [match[1].trim()] is never applied to undefined. *)
Lemma section_match_cap1 raw y :
  exec descRe raw = Some y \/ exec storyRe raw = Some y
  \/ exec voiceRe raw = Some y ->
  is_Some (cap1 y).
Proof.
  intros [H|[H|H]].
  - by apply labelled_match_cap1 in H.
  - by apply labelled_match_cap1 in H.
  - by apply voice_match_cap1 in H.
Qed.

(** A block gets a page exactly when its three labels are found: the
    description label with a story label after it, a story label with a
    voice label after it, and a voice label. *)
Lemma page_of_block_iff raw index :
  is_Some (page_of_block raw index)
  <-> labels_in_order DESKRIPSI_ILUSTRASI TEKS_CERITA raw
      /\ labels_in_order TEKS_CERITA TEKS_SUARA raw
      /\ label_present TEKS_SUARA raw.
Proof.
  rewrite <- !labelled_match_iff, <- voice_match_iff.
  unfold page_of_block. fold descRe storyRe.
  destruct (exec descRe raw), (exec storyRe raw), (exec voiceRe raw);
    split; try (intros [? [=]]; fail); try (intros (H1 & H2 & H3));
    try (by destruct H1); try (by destruct H2); try (by destruct H3);
    eauto.
Qed.

End CaptureFacts.

(** ** The story parser *)

Section ParserFacts.

Implicit Types (blocks : list jsstring) (raw : jsstring) (index : nat).

Lemma forEach_block_app blocks index pages :
  forEach_block blocks index pages = pages ++ pages_of_blocks blocks index.
Proof.
  revert index pages. induction blocks as [|raw blocks IH]; intros index pages; simpl.
  - by rewrite app_nil_r.
  - rewrite IH. destruct (page_of_block raw index); [|done].
    by rewrite <- app_assoc.
Qed.

Lemma parseStoryResponse_blocks text :
  parseStoryResponse text = pages_of_blocks (rawPages text) 0.
Proof. unfold parseStoryResponse. by rewrite forEach_block_app. Qed.

Lemma page_of_block_index raw index index' :
  is_Some (page_of_block raw index) <-> is_Some (page_of_block raw index').
Proof. by rewrite !page_of_block_iff. Qed.

Lemma emitted_iff raw index :
  emitted raw = true <-> is_Some (page_of_block raw index).
Proof.
  rewrite (page_of_block_index raw index 0). unfold emitted.
  destruct (page_of_block raw 0); split; try done; try by intros [? [=]].
Qed.

Lemma page_of_block_pageNumber raw index page :
  page_of_block raw index = Some page -> pageNumber page = index + 1.
Proof.
  unfold page_of_block.
  destruct (exec descRe raw), (exec storyRe raw), (exec voiceRe raw);
    try discriminate.
  by intros [= <-].
Qed.

Lemma pageNumber_pages_of_blocks blocks index :
  map pageNumber (pages_of_blocks blocks index) = emitted_positions blocks index.
Proof.
  revert index. induction blocks as [|raw blocks IH]; intros index; simpl; [done|].
  destruct (page_of_block raw index) as [page|] eqn:E.
  - assert (emitted raw = true) as -> by (apply (emitted_iff raw index); eauto).
    simpl. by rewrite IH, (page_of_block_pageNumber _ _ _ E).
  - destruct (emitted raw) eqn:E'; [|by apply IH].
    apply (emitted_iff raw index) in E' as [? E']. congruence.
Qed.

Lemma emitted_positions_bounds blocks index :
  Forall (fun n => index < n <= index + length blocks)
         (emitted_positions blocks index).
Proof.
  revert index. induction blocks as [|raw blocks IH]; intros index; simpl; [constructor|].
  assert (Forall (fun n => index < n <= index + S (length blocks))
                 (emitted_positions blocks (S index))) as Htl.
  { eapply Forall_impl; [apply IH|]. simpl. intros n. lia. }
  destruct (emitted raw); [constructor; [lia|done]|done].
Qed.

Lemma emitted_positions_sorted blocks index :
  StronglySorted lt (emitted_positions blocks index).
Proof.
  revert index. induction blocks as [|raw blocks IH]; intros index; simpl; [constructor|].
  destruct (emitted raw); [|apply IH].
  constructor; [apply IH|].
  eapply Forall_impl; [apply emitted_positions_bounds|]. simpl. intros n. lia.
Qed.

Lemma emitted_positions_length blocks index :
  length (emitted_positions blocks index)
  = length (filter (fun b => emitted b = true) blocks).
Proof.
  revert index. induction blocks as [|raw blocks IH]; intros index; simpl; [done|].
  destruct (emitted raw) eqn:E.
  - rewrite filter_cons_True by done. simpl. by rewrite IH.
  - rewrite filter_cons_False by congruence. apply IH.
Qed.

Lemma emitted_positions_none blocks index :
  Forall (fun b => emitted b = false) blocks -> emitted_positions blocks index = [].
Proof.
  revert index. induction blocks as [|raw blocks IH]; intros index Hall; simpl; [done|].
  apply Forall_cons in Hall as [-> Hall]. by apply IH.
Qed.

Lemma emitted_positions_prefix good bad index :
  Forall (fun b => emitted b = true) good ->
  Forall (fun b => emitted b = false) bad ->
  emitted_positions (good ++ bad) index = seq (index + 1) (length good).
Proof.
  intros Hgood Hbad. revert index.
  induction Hgood as [|raw good Hraw _ IH]; intros index; simpl.
  - by apply emitted_positions_none.
  - by rewrite Hraw, IH.
Qed.

Lemma well_formed_emitted raw : well_formed raw = true -> emitted raw = true.
Proof. unfold well_formed, emitted. by destruct (page_of_block raw 0). Qed.

End ParserFacts.

(** ** The separator pattern on a response in the prescribed format *)

Section SeparatorFacts.

Implicit Types (s t w token body : jsstring) (P : char -> bool).

Lemma m_Chr_char_step c :
  m (Chr c) = char_step (fun d => (canonicalize d =? canonicalize c)%N).
Proof. reflexivity. Qed.

Lemma m_Cls_char_step atoms :
  m (Cls atoms) = char_step (fun d => existsb (fun a => atom_matches a d) atoms).
Proof. reflexivity. Qed.

(** A greedy quantifier over one-character iterations takes the whole
    run [w] when the continuation succeeds after it. *)
Lemma rep_greedy_run P k w t c z :
  Forall (fun d => P d = true) w ->
  stops P t ->
  k (MState t c) = Some z ->
  forall fuel min,
    min <= length w ->
    min + length (w ++ t) <= fuel ->
    rep_loop (char_step P) true k fuel min (MState (w ++ t) c) = Some z.
Proof.
  intros Hw Ht Hk. induction Hw as [|d w Hd _ IH]; intros fuel min Hmin Hfuel.
  - simpl in Hmin. assert (min = 0) as -> by lia. simpl.
    destruct fuel as [|fuel]; simpl; [done|].
    unfold char_step at 1. simpl.
    destruct t as [|d t]; [by rewrite Hk|].
    simpl in Ht. by rewrite Ht, Hk.
  - destruct fuel as [|fuel]; [simpl in Hfuel; lia|].
    simpl in Hmin, Hfuel. destruct min as [|min]; simpl.
    + unfold char_step at 1. cbn [rest cap1]. rewrite Hd.
      assert ((length (w ++ t) =? S (length (w ++ t))) = false) as ->
        by (apply Nat.eqb_neq; lia).
      rewrite IH by lia. reflexivity.
    + unfold char_step at 1. cbn [rest cap1]. rewrite Hd.
      apply IH; lia.
Qed.

Lemma canonicalize_eq_61 d : canonicalize d = 61%N <-> d = 61%N.
Proof.
  unfold canonicalize.
  destruct ((97 <=? d) && (d <=? 122))%N eqn:E; [|done].
  apply andb_true_iff in E as [E1 E2].
  apply N.leb_le in E1, E2. lia.
Qed.

Lemma is_eq_sign_false d :
  d <> 61%N -> (canonicalize d =? canonicalize 61)%N = false.
Proof.
  intros Hd. apply N.eqb_neq. change (canonicalize 61%N) with 61%N.
  by rewrite canonicalize_eq_61.
Qed.

Lemma is_digit_not_space d : is_digit d = true -> is_space d = false.
Proof.
  unfold is_digit, is_space. intros H.
  apply andb_true_iff in H as [H1 H2]. apply N.leb_le in H1, H2.
  repeat (apply orb_false_intro); try (apply andb_false_iff);
    rewrite ?N.eqb_neq, ?N.leb_gt; lia.
Qed.

Lemma m_Cat r1 r2 x k : m (Cat r1 r2) x k = m r1 x (fun y => m r2 y k).
Proof. reflexivity. Qed.

Lemma m_Rep greedy min r x k :
  m (Rep greedy min r) x k
  = rep_loop (m r) greedy k (min + length (rest x)) min x.
Proof. reflexivity. Qed.

Lemma separator_at_lines token t :
  is_token token ->
  stops (fun d => (canonicalize d =? canonicalize 61%N)%N) t ->
  match_at separator (separator_lines token ++ t) = Some (MState t None).
Proof.
  intros [Hne Hdigits] Ht.
  unfold match_at, separator, separator_lines, eq10, ws. cbn [cat].
  rewrite <- !app_assoc.
  rewrite m_Cat, m_Rep, m_Chr_char_step.
  apply rep_greedy_run;
    [by repeat constructor | done | | simpl; lia | cbn [rest]; lia].
  (* \s* over the line break *)
  rewrite m_Cat, m_Rep, m_Cls_char_step.
  apply (rep_greedy_run _ _ nl);
    [by repeat constructor | done | | simpl; lia | cbn [rest]; lia].
  (* HALAMAN *)
  rewrite m_Cat, m_lit. cbn [rest cap1].
  assert (strip_ci (js "HALAMAN") (js "HALAMAN " ++ token ++ nl ++ eq40 ++ t)
          = Some ([32%N] ++ token ++ nl ++ eq40 ++ t)) as ->.
  { apply strip_ci_Some. exists (js "HALAMAN"). split; [|done].
    change (js "HALAMAN ") with (js "HALAMAN" ++ [32%N]).
    by rewrite <- app_assoc. }
  (* \s* over the blank *)
  rewrite m_Cat, m_Rep, m_Cls_char_step.
  apply (rep_greedy_run _ _ [32%N]);
    [by apply Forall_cons | | | simpl; lia | done].
  { destruct Hdigits as [|d token Hd _]; [done|]. simpl.
    by rewrite (is_digit_not_space d Hd). }
  (* \d+ over the token *)
  rewrite m_Cat, m_Rep, m_Cls_char_step.
  apply (rep_greedy_run _ _ token).
  { eapply Forall_impl; [exact Hdigits|]. simpl. by intros d ->. }
  { done. }
  2:{ destruct token; [done|simpl; lia]. }
  2:{ cbn [rest]; lia. }
  (* \s* over the line break *)
  rewrite m_Cat, m_Rep, m_Cls_char_step.
  apply (rep_greedy_run _ _ nl);
    [by repeat constructor | done | | simpl; lia | cbn [rest]; lia].
  (* ={10,} *)
  rewrite m_Cat, m_Rep, m_Chr_char_step.
  apply rep_greedy_run;
    [by repeat constructor | done | done | simpl; lia | cbn [rest]; lia].
Qed.

End SeparatorFacts.

Section SplitFacts.

Implicit Types (s t w token body cur : jsstring)
               (blocks : list (jsstring * jsstring)).

Lemma separator_not_at d s : d <> 61%N -> match_at separator (d :: s) = None.
Proof.
  intros Hd. unfold match_at, separator, eq10. cbn [cat].
  rewrite m_Cat, m_Rep, m_Chr_char_step. cbn [rest length Nat.add rep_loop].
  unfold char_step at 1. cbn [rest]. by rewrite is_eq_sign_false.
Qed.

Lemma split_scan_skip r w t cur :
  split_scan r (w ++ t) (length w) cur = split_scan r t 0 cur.
Proof. induction w as [|d w IH]; [done|]. exact IH. Qed.

Lemma split_scan_body body t cur :
  Forall (fun c => c <> 61%N) body ->
  split_scan separator (body ++ t) 0 cur
  = split_scan separator t 0 (rev body ++ cur).
Proof.
  intros Hbody. revert cur. induction Hbody as [|d body Hd _ IH]; intros cur.
  - reflexivity.
  - cbn [app split_scan]. rewrite separator_not_at by done.
    rewrite IH. cbn [rev]. by rewrite <- app_assoc.
Qed.

Lemma split_scan_at_separator token t cur :
  is_token token ->
  stops (fun d => (canonicalize d =? canonicalize 61%N)%N) t ->
  split_scan separator (separator_lines token ++ t) 0 cur
  = rev cur :: split_scan separator t 0 [].
Proof.
  intros Htoken Ht.
  pose proof (separator_at_lines token t Htoken Ht) as Hm.
  destruct (separator_lines token) as [|c w] eqn:E; [discriminate E|].
  change ((c :: w) ++ t) with (c :: (w ++ t)) in *.
  cbn [split_scan]. rewrite Hm. cbn [rest].
  replace (length (c :: w ++ t) - length t) with (S (length w))
    by (simpl; rewrite length_app; lia).
  by rewrite split_scan_skip.
Qed.

Lemma is_body_stops body t :
  is_body body ->
  stops (fun d => (canonicalize d =? canonicalize 61%N)%N) (body ++ t).
Proof.
  intros [Hne Hbody]. destruct Hbody as [|d body Hd _]; [done|].
  simpl. by apply is_eq_sign_false.
Qed.

Lemma split_scan_blocks blocks cur :
  Forall is_block blocks ->
  split_scan separator
    (flat_map (fun b => separator_lines (fst b) ++ snd b) blocks) 0 cur
  = rev cur :: map snd blocks.
Proof.
  intros Hblocks. revert cur.
  induction Hblocks as [|[token body] blocks [Htoken Hbody] _ IH]; intros cur.
  - reflexivity.
  - cbn [flat_map fst snd map] in *. rewrite <- app_assoc.
    rewrite split_scan_at_separator by (done || by apply is_body_stops).
    rewrite split_scan_body by apply Hbody.
    rewrite IH. by rewrite app_nil_r, rev_involutive.
Qed.

(** The blocks of a response in the prescribed format are the bodies:
    the tokens of the separator lines leave no trace. *)
Lemma rawPages_blob preamble blocks :
  Forall (fun c => c <> 61%N) preamble ->
  Forall is_block blocks ->
  rawPages (blob preamble blocks) = map snd blocks.
Proof.
  intros Hpre Hblocks. unfold rawPages, split.
  destruct (blob preamble blocks) as [|c s] eqn:E.
  - unfold blob in E. apply app_eq_nil in E as [_ E].
    destruct Hblocks as [|[token body] blocks _ _]; [done|].
    discriminate E.
  - rewrite <- E. unfold blob.
    rewrite split_scan_body by done.
    by rewrite split_scan_blocks.
Qed.

End SplitFacts.

Section ParserTheorems.

Lemma In_pages_of_blocks page blocks index :
  In page (pages_of_blocks blocks index) <->
  exists i rawPage,
    blocks !! i = Some rawPage /\ page_of_block rawPage (index + i) = Some page.
Proof.
  revert index. induction blocks as [|raw blocks IH]; intros index; simpl.
  - split; [done|]. by intros (i & rawPage & [=] & _).
  - assert (In page (pages_of_blocks blocks (S index)) <->
            exists i rawPage, blocks !! i = Some rawPage
              /\ page_of_block rawPage (index + S i) = Some page) as IH'.
    { rewrite IH. by setoid_rewrite Nat.add_succ_r. }
    split.
    + intros H.
      destruct (page_of_block raw index) as [p|] eqn:E.
      * destruct H as [<-|H].
        -- exists 0, raw. by rewrite Nat.add_0_r.
        -- apply IH' in H as (i & rawPage & Hi & Hp). by exists (S i), rawPage.
      * apply IH' in H as (i & rawPage & Hi & Hp). by exists (S i), rawPage.
    + intros (i & rawPage & Hi & Hp). destruct i as [|i].
      * injection Hi as <-. rewrite Nat.add_0_r in Hp. rewrite Hp. by left.
      * assert (In page (pages_of_blocks blocks (S index))) as H
          by (apply IH'; by exists i, rawPage).
        destruct (page_of_block raw index); [by right|done].
Qed.

Lemma parse_blob_empty_section :
  parseStoryResponse blob_empty_section = [page_empty_description].
Proof. vm_compute. reflexivity. Qed.

(** C1, as stated, fails: in [blob_dropped_first] the only well-formed
    block is the second one, so K is 1, and the one page returned is
    numbered 2, not 1. *)
Lemma pages_numbered_1_to_K_fails :
  map pageNumber (parseStoryResponse blob_dropped_first) = [2]
  /\ map well_formed (rawPages blob_dropped_first) = [false; true]
  /\ ~ pages_numbered_1_to_K.
Proof.
  split; [vm_compute; reflexivity|]. split; [vm_compute; reflexivity|].
  intros H. specialize (H blob_dropped_first).
  vm_compute in H. discriminate H.
Qed.

(** C1, amended.  For every response, the parser returns one page per
    block in which the three section patterns match, in the order of the
    blocks; every well-formed block is such a block.  The [pageNumber] of
    a page is the 1-based position of its block among all the blocks of
    the response, dropped ones included: the numbers increase strictly,
    lie between 1 and the number of blocks, and are 1..K when no dropped
    block comes before an emitted one.  The [{N}] tokens of the separator
    lines play no part: on a response in the prescribed format the pages
    are those of the bodies, by position. *)
Theorem parseStoryResponse_numbers_by_position :
  (forall text,
      let blocks := rawPages text in
      let pages := parseStoryResponse text in
      pages = pages_of_blocks blocks 0
      /\ length pages = length (filter (fun b => emitted b = true) blocks)
      /\ map pageNumber pages = emitted_positions blocks 0
      /\ StronglySorted lt (map pageNumber pages)
      /\ Forall (fun n => 1 <= n <= length blocks) (map pageNumber pages)
      /\ (forall good bad,
             blocks = good ++ bad ->
             Forall (fun b => emitted b = true) good ->
             Forall (fun b => emitted b = false) bad ->
             map pageNumber pages = seq 1 (length good)))
  /\ (forall rawPage, well_formed rawPage = true -> emitted rawPage = true)
  /\ (forall preamble blocks,
         Forall (fun c => c <> 61%N) preamble ->
         Forall is_block blocks ->
         parseStoryResponse (blob preamble blocks)
         = pages_of_blocks (map snd blocks) 0).
Proof.
  split; [|split].
  - intros text blocks pages.
    assert (pages = pages_of_blocks blocks 0) as Hpages
      by apply parseStoryResponse_blocks.
    assert (map pageNumber pages = emitted_positions blocks 0) as Hnum
      by (rewrite Hpages; apply pageNumber_pages_of_blocks).
    split; [done|]. split.
    { rewrite <- (length_map pageNumber), Hnum. apply emitted_positions_length. }
    split; [done|]. split.
    { rewrite Hnum. apply emitted_positions_sorted. }
    split.
    { rewrite Hnum. eapply Forall_impl; [apply emitted_positions_bounds|].
      simpl. intros n. lia. }
    intros good bad Hsplit Hgood Hbad.
    rewrite Hnum, Hsplit. by apply emitted_positions_prefix.
  - apply well_formed_emitted.
  - intros preamble blocks Hpre Hblocks.
    by rewrite parseStoryResponse_blocks, rawPages_blob.
Qed.

Lemma sample_blocks_are_blocks : Forall is_block sample_blocks.
Proof.
  unfold is_block, is_token, is_body.
  apply (bool_decide_unpack _). vm_compute. exact I.
Defined.

Lemma parseStoryResponse_numbers_by_position_witness :
  map pageNumber (parseStoryResponse blob_dropped_first) = [2]
  /\ map pageNumber (parseStoryResponse (blob (js "Here is your story.") sample_blocks))
     = [2].
Proof.
  destruct parseStoryResponse_numbers_by_position as (Hgeneral & _ & Hformat).
  split.
  - destruct (Hgeneral blob_dropped_first) as (_ & _ & -> & _).
    vm_compute. reflexivity.
  - rewrite Hformat.
    + vm_compute. reflexivity.
    + apply (bool_decide_unpack _). vm_compute. exact I.
    + apply sample_blocks_are_blocks.
Defined.

(** C3, as stated, fails: the block of [blob_empty_section] has its three
    labels and a description that is empty after trimming, and its page is
    returned, with the empty string as description. *)
Lemma only_nonempty_sections_emitted_fails :
  parseStoryResponse blob_empty_section = [page_empty_description]
  /\ illustrationDescription page_empty_description = []
  /\ ~ only_nonempty_sections_emitted.
Proof.
  split; [apply parse_blob_empty_section|]. split; [reflexivity|].
  intros H.
  destruct (H blob_empty_section page_empty_description) as (Hdesc & _).
  - rewrite parse_blob_empty_section. by left.
  - by apply Hdesc.
Qed.

(** C3, amended.  The parser emits a page for a block if and only if the
    three labeled sections are found in it: [DESKRIPSI ILUSTRASI] with
    [TEKS CERITA] somewhere after it, [TEKS CERITA] with [TEKS SUARA]
    somewhere after it, and [TEKS SUARA]; every other block is dropped.
    The fields of the page are the trimmed captures, which are not
    checked: the block of [blob_empty_section], whose description is
    empty after trimming, is emitted with the empty string. *)
Theorem page_emitted_iff_labels_found :
  (forall text page,
      In page (parseStoryResponse text) <->
      exists index rawPage,
        rawPages text !! index = Some rawPage
        /\ page_of_block rawPage index = Some page)
  /\ (forall rawPage index,
         is_Some (page_of_block rawPage index) <->
         labels_in_order DESKRIPSI_ILUSTRASI TEKS_CERITA rawPage
         /\ labels_in_order TEKS_CERITA TEKS_SUARA rawPage
         /\ label_present TEKS_SUARA rawPage)
  /\ (forall rawPage index page,
         page_of_block rawPage index = Some page ->
         exists descMatch storyMatch voiceMatch d s v,
           exec descRe rawPage = Some descMatch /\ cap1 descMatch = Some d
           /\ exec storyRe rawPage = Some storyMatch /\ cap1 storyMatch = Some s
           /\ exec voiceRe rawPage = Some voiceMatch /\ cap1 voiceMatch = Some v
           /\ illustrationDescription page = trim d
           /\ storyText page = trim s
           /\ voiceText page = trim v)
  /\ parseStoryResponse blob_empty_section = [page_empty_description].
Proof.
  split; [|split; [|split]].
  - intros text page. rewrite parseStoryResponse_blocks.
    apply In_pages_of_blocks.
  - intros rawPage index. apply page_of_block_iff.
  - intros rawPage index page. unfold page_of_block.
    destruct (exec descRe rawPage) as [dm|] eqn:Ed; [|discriminate].
    destruct (exec storyRe rawPage) as [sm|] eqn:Es; [|discriminate].
    destruct (exec voiceRe rawPage) as [vm|] eqn:Ev; [|discriminate].
    intros [= <-].
    destruct (section_match_cap1 rawPage dm) as [d Hd]; [by left|].
    destruct (section_match_cap1 rawPage sm) as [s Hs]; [by right; left|].
    destruct (section_match_cap1 rawPage vm) as [v Hv]; [by right; right|].
    exists dm, sm, vm, d, s, v. unfold group1_trim. simpl.
    by rewrite Hd, Hs, Hv.
  - apply parse_blob_empty_section.
Qed.

Lemma page_emitted_iff_labels_found_witness :
  In page_empty_description (parseStoryResponse blob_empty_section)
  /\ labels_in_order DESKRIPSI_ILUSTRASI TEKS_CERITA
       (js "[Deskripsi Ilustrasi][teks cerita] x [TEKS SUARA]").
Proof.
  destruct page_emitted_iff_labels_found as (Hin & Hlabels & _ & _).
  split.
  - apply (proj2 (Hin blob_empty_section page_empty_description)).
    exists 0, (nth 0 (rawPages blob_empty_section) []).
    split; vm_compute; reflexivity.
  - apply (proj1 (Hlabels _ 0)). vm_compute. eexists. reflexivity.
Defined.

End ParserTheorems.

(** ** The raw PCM fallback *)

Section AudioFacts.

Local Open Scope Z_scope.

Lemma int16_le_encode s :
  is_int16 s -> int16_le (s mod 256) ((s / 256) mod 256) = s.
Proof.
  unfold is_int16, int16_le. intros Hs. cbv zeta.
  destruct (s mod 256 + 256 * ((s / 256) mod 256) <? 32768) eqn:E;
    [apply Z.ltb_lt in E|apply Z.ltb_ge in E];
    Z.div_mod_to_equations; lia.
Qed.

Lemma Int16Array_of_encode samples :
  Forall is_int16 samples -> Int16Array_of (encode_le samples) = Ok samples.
Proof.
  induction 1 as [|s samples Hs _ IH]; [done|].
  cbn [encode_le flat_map app Int16Array_of].
  fold (encode_le samples). by rewrite IH, int16_le_encode.
Qed.

Lemma map_nth_seq {A B} (f : A -> B) (d : A) (l : list A) :
  map (fun i => f (nth (i * 1 + 0)%nat l d)) (seq 0 (length l)) = map f l.
Proof.
  induction l as [|a l IH]; [done|].
  cbn [length seq map]. f_equal. rewrite <- seq_shift, map_map.
  rewrite <- IH. apply map_ext. intros i.
  by replace (S i * 1 + 0)%nat with (S (i * 1 + 0)) by lia.
Qed.

Lemma normalized_bounds s :
  is_int16 s -> (-1 <= s # 32768)%Q /\ (s # 32768 <= 1)%Q.
Proof. unfold is_int16, Qle. simpl. lia. Qed.

Lemma normalized_representable s :
  is_int16 s ->
  exists mantissa exponent : Z,
    Z.abs mantissa < 2 ^ 24 /\ -149 <= exponent <= 104
    /\ (s # 32768 == inject_Z mantissa * (1 # 2 ^ Z.to_pos (- exponent)))%Q.
Proof.
  unfold is_int16. intros Hs. exists s, (-15). split; [lia|]. split; [lia|].
  unfold Qeq, Qmult, inject_Z. simpl. lia.
Qed.

Lemma fill_channel_prefix (f : nat -> Q) (cd : list Q) (k : nat) :
  (k <= length cd)%nat ->
  foldl (fun cd i => <[i := f i]> cd) cd (seq 0 k)
  = map f (seq 0 k) ++ drop k cd.
Proof.
  induction k as [|k IH]; intros Hk; [by rewrite drop_0|].
  rewrite seq_S, foldl_app, map_app. cbn [foldl map Nat.add].
  rewrite IH by lia. rewrite <- app_assoc.
  rewrite insert_app_r_alt by (rewrite length_map, length_seq; lia).
  rewrite length_map, length_seq, Nat.sub_diag.
  destruct (drop k cd) as [|q dr] eqn:Hdrop.
  - apply (f_equal length) in Hdrop. rewrite length_drop in Hdrop.
    simpl in Hdrop. lia.
  - cbn. do 2 f_equal.
    assert (drop 1 (drop k cd) = dr) as <- by (by rewrite Hdrop).
    rewrite drop_drop. f_equal. lia.
Qed.

Lemma fill_channel_all dataInt16 numChannels channel (cd : list Q) :
  fill_channel dataInt16 numChannels (length cd) channel cd
  = map (sample_at dataInt16 numChannels channel) (seq 0 (length cd)).
Proof.
  unfold fill_channel.
  rewrite (fill_channel_prefix (sample_at dataInt16 numChannels channel)) by lia.
  by rewrite drop_all, app_nil_r.
Qed.

(** C6.  For every array of 16-bit signed samples, the raw PCM fallback
    at 24000 Hz and one channel, fed the little-endian bytes of the array
    and given by [createBuffer] a buffer of one channel with as many
    frames as there are samples, returns that buffer with one frame per
    sample; the frame of a sample is the sample divided by 32768, so it
    lies in [-1, 1] and is within 1/32768 of the normalized sample.
    [decodeAudioData] returns that buffer whenever the host's decoder
    rejects the bytes. *)
Theorem rawPcmFallback_round_trip (ctx : AudioContext) (samples : list Z) :
  Forall is_int16 samples ->
  ctx_createBuffer ctx 1 (length samples) 24000
  = Ok (silence 1 (length samples) 24000) ->
  exists buffer frames,
    rawPcmFallback (encode_le samples) ctx 24000 1 = Ok buffer
    /\ sampleRate buffer = 24000
    /\ channels buffer = [frames]
    /\ length frames = length samples
    /\ frames = map (fun s => s # 32768)%Q samples
    /\ Forall (fun q => -1 <= q /\ q <= 1)%Q frames
    /\ Forall2 (fun q s => Qabs (q - (s # 32768)) <= 1 # 32768)%Q
               frames samples
    /\ (forall e,
           ctx_decodeAudioData ctx (encode_le samples) = Throw e ->
           decodeAudioData (encode_le samples) ctx 24000 1 = Ok buffer).
Proof.
  intros Hsamples Hcreate.
  assert (rawPcmFallback (encode_le samples) ctx 24000 1
          = Ok {| sampleRate := 24000;
                  channels := [map (fun s => s # 32768)%Q samples] |}) as Hraw.
  { unfold rawPcmFallback. rewrite Int16Array_of_encode by done.
    cbn [mbind outcome_bind]. rewrite Nat.div_1_r, Hcreate.
    cbn [mbind outcome_bind silence channels repeat fill_channels lookup
           list_lookup insert list_insert].
    pose proof (fill_channel_all samples 1 0 (repeat 0%Q (length samples))) as Hfill.
    rewrite repeat_length in Hfill. rewrite Hfill.
    unfold sample_at, with_channels. cbn [sampleRate].
    by rewrite (map_nth_seq (fun s => s # 32768)%Q). }
  eexists _, _. split; [exact Hraw|]. cbn [sampleRate channels].
  split; [done|]. split; [done|]. split; [by rewrite length_map|].
  split; [done|]. split; [|split].
  - apply Forall_map. eapply Forall_impl; [exact Hsamples|].
    intros s Hs. by apply normalized_bounds.
  - clear Hraw Hcreate. induction Hsamples as [|s samples Hs _ IH]; [constructor|].
    cbn [map]. constructor; [|exact IH].
    unfold Qle, Qabs, Qminus, Qplus, Qopp. simpl. lia.
  - intros e He. unfold decodeAudioData. by rewrite He.
Qed.

Lemma rawPcmFallback_round_trip_witness :
  exists buffer,
    rawPcmFallback (encode_le [0; 1; -1; 32767; -32768]) sample_context 24000 1
    = Ok buffer
    /\ channels buffer
       = [[0 # 32768; 1 # 32768; -1 # 32768; 32767 # 32768; -32768 # 32768]%Q].
Proof.
  destruct (rawPcmFallback_round_trip sample_context [0; 1; -1; 32767; -32768])
    as (buffer & frames & Hraw & _ & Hch & _ & Hframes & _).
  - repeat constructor; unfold is_int16; lia.
  - reflexivity.
  - exists buffer. split; [exact Hraw|]. rewrite Hch, Hframes. reflexivity.
Defined.

End AudioFacts.

(** ** The page merge and the asset pipeline *)

Section PipelineFacts.

Implicit Types (prev current : list StoryPage) (updates : Updates)
               (log : list Request).

Lemma updatePage_out_of_range index updates prev :
  prev !! index = None -> updatePage index updates prev = prev.
Proof. unfold updatePage. by intros ->. Qed.

Lemma updatePage_length index updates prev :
  length (updatePage index updates prev) = length prev.
Proof.
  unfold updatePage. destruct (prev !! index); [|done]. apply length_insert.
Qed.

Lemma updatePage_other index updates prev j :
  j <> index -> updatePage index updates prev !! j = prev !! j.
Proof.
  intros Hj. unfold updatePage. destruct (prev !! index); [|done].
  by apply list_lookup_insert_ne.
Qed.




Lemma assets_of_page_log ai host selectedStyle i page log :
  snd (assets_of_page ai host selectedStyle i page log)
  = log ++ requests_of_page selectedStyle page.
Proof.
  unfold requests_of_page.
  change (log ++ [?a; ?b]) with (log ++ [a] ++ [b]).
  rewrite app_assoc. reflexivity.
Qed.

Lemma pipeline_log ai host selectedStyle storyPages :
  forall i current log,
    snd (generateAssetsInBackground_from ai host selectedStyle i storyPages
           current log)
    = log ++ flat_map (requests_of_page selectedStyle) storyPages.
Proof.
  induction storyPages as [|page storyPages IH]; intros i current log.
  - cbn. by rewrite app_nil_r.
  - cbn [generateAssetsInBackground_from flat_map]. unfold io_bind at 1.
    pose proof (assets_of_page_log ai host selectedStyle i page log) as Hlog.
    destruct (assets_of_page ai host selectedStyle i page log) as [merge log'].
    cbn [snd] in Hlog. subst log'.
    by rewrite IH, <- app_assoc.
Qed.

Lemma narration_texts_app log1 log2 :
  narration_texts (log1 ++ log2) = narration_texts log1 ++ narration_texts log2.
Proof. apply omap_app. Qed.

Lemma narration_texts_requests selectedStyle storyPages :
  narration_texts (flat_map (requests_of_page selectedStyle) storyPages)
  = map storyText storyPages.
Proof.
  induction storyPages as [|page storyPages IH]; [done|].
  cbn [flat_map]. rewrite narration_texts_app, IH. reflexivity.
Qed.

Lemma assets_of_page_voiceText ai host selectedStyle i page v log :
  assets_of_page ai host selectedStyle i (with_voiceText v page) log
  = assets_of_page ai host selectedStyle i page log.
Proof. reflexivity. Qed.

Lemma pipeline_voiceText ai host selectedStyle (vs : StoryPage -> jsstring)
    storyPages :
  forall i current log,
    generateAssetsInBackground_from ai host selectedStyle i
      (map (fun page => with_voiceText (vs page) page) storyPages) current log
    = generateAssetsInBackground_from ai host selectedStyle i storyPages
        current log.
Proof.
  induction storyPages as [|page storyPages IH]; intros i current log; [done|].
  cbn [map generateAssetsInBackground_from].
  change (io_bind ?c ?f log) with (let (a, log') := c log in f a log').
  rewrite assets_of_page_voiceText.
  destruct (assets_of_page ai host selectedStyle i page log) as [merge log'].
  apply IH.
Qed.

(** C10.  For every page, in order, the pipeline asks for the narration
    of the page's [storyText]; the requests it makes are, page by page,
    the image request for the description and the speech request for
    the story text.  The [voiceText] of the pages is in no request:
    replacing it by anything changes neither the requests nor the
    result. *)
Theorem narration_is_requested_for_storyText ai host storyPages selectedStyle
    current log :
  let run := generateAssetsInBackground ai host storyPages selectedStyle
               current log in
  snd run = log ++ flat_map (requests_of_page selectedStyle) storyPages
  /\ narration_texts (snd run) = narration_texts log ++ map storyText storyPages
  /\ (forall vs : StoryPage -> jsstring,
         generateAssetsInBackground ai host
           (map (fun page => with_voiceText (vs page) page) storyPages)
           selectedStyle current log
         = run).
Proof.
  unfold generateAssetsInBackground. cbv zeta. split; [apply pipeline_log|].
  split.
  - by rewrite pipeline_log, narration_texts_app, narration_texts_requests.
  - intros vs. apply pipeline_voiceText.
Qed.

End PipelineFacts.

(** ** Failures of the service client and the top-level state machine *)

Section ServiceFacts.

Implicit Types (ai : Backend) (host : Host) (app : AppModel)
               (log : list Request).

Lemma generateStoryText_result ai topic style log :
  fst (generateStoryText ai topic style log)
  = match ai (length log)
            (TextRequest (js "Buatkan storybook berdasarkan: " ++ topic
                          ++ js ". Gaya ilustrasi: " ++ style_name style
                          ++ js ".")) with
    | Ok response =>
        match text response with
        | Some (c :: t) => Ok (parseStoryResponse (c :: t))
        | _ => Throw (js "No text generated")
        end
    | Throw e => Throw e
    end.
Proof.
  unfold generateStoryText, io_bind, io_ret, generateContent. cbn [fst].
  destruct (ai _ _) as [response|e]; [|done].
  cbn. by destruct (text response) as [[|c t]|].
Qed.

Lemma handleGenerate_result ai app log :
  trim (topic app) <> [] ->
  fst (handleGenerate ai app log)
  = match fst (generateStoryText ai (topic app) (style app) log) with
    | Ok (p :: ps) =>
        with_state app Reading (p :: ps)
          (js "Painting illustrations and recording voices...") None
    | Ok [] =>
        with_state app Error (pages app)
          (js "Weaving your story text with Gemini...")
          (Some (js "Failed to generate valid story structure."))
    | Throw e =>
        with_state app Error (pages app)
          (js "Weaving your story text with Gemini...")
          (Some match e with
                | [] => js "Something went wrong while creating your story."
                | _ :: _ => e
                end)
    end.
Proof.
  intros Htopic. unfold handleGenerate.
  destruct (trim (topic app)) as [|c t]; [done|].
  unfold io_bind, io_ret.
  destruct (generateStoryText ai (topic app) (style app) log) as [result log'].
  cbn [fst]. by destruct result as [[|p ps]|e].
Qed.

(** C7.  With a topic that is not blank, [handleGenerate] ends in the
    error state exactly when the backend gave no text (the call was
    rejected, or the text of the response is undefined or empty) or the
    parser finds no page in the text; otherwise it ends in the reading
    state with the parsed pages.  [generateStoryText] throws when there
    is no text.  In the error state a message is set and the page
    sequence is the one from before; [resetApp], which the error view
    offers, leads back to the input state with no page and no error. *)
Theorem handleGenerate_fatal_iff ai app log :
  trim (topic app) <> [] ->
  let reply := ai (length log) (text_request app) in
  let app' := fst (handleGenerate ai app log) in
  (appState app' = Error <-> no_text reply \/ no_pages reply)
  /\ (appState app' <> Error ->
      appState app' = Reading /\ pages app' <> []
      /\ exists response t,
           reply = Ok response /\ text response = Some t
           /\ pages app' = parseStoryResponse t)
  /\ (no_text reply ->
      exists e, fst (generateStoryText ai (topic app) (style app) log) = Throw e)
  /\ (appState app' = Error ->
      is_Some (error app') /\ pages app' = pages app
      /\ appState (resetApp app') = Input
      /\ pages (resetApp app') = []
      /\ error (resetApp app') = None).
Proof.
  intros Htopic reply app'. subst app'.
  rewrite (handleGenerate_result ai app log Htopic).
  rewrite generateStoryText_result.
  fold (text_request app). fold reply.
  unfold no_text, no_pages.
  destruct reply as [response|e] eqn:Hreply.
  - destruct (text response) as [[|c t]|] eqn:Htext.
    + cbn. repeat split; try done; eauto.
    + destruct (parseStoryResponse (c :: t)) as [|p ps] eqn:Hparse; cbn.
      * repeat split; try done; eauto.
        intros _. right. exists response, (c :: t). by rewrite Hparse.
      * repeat split; try done.
        -- intros [[=]|(r & t' & [= <-] & Ht' & _ & Hnone)].
           rewrite Htext in Ht'. injection Ht' as <-.
           rewrite Hparse in Hnone. discriminate.
        -- exists response, (c :: t). by rewrite Hparse.
    + cbn. repeat split; try done; eauto.
  - cbn. repeat split; try done; eauto.
Qed.

Lemma handleGenerate_fatal_iff_witness :
  appState (fst (handleGenerate backend_down sample_app [])) = Error
  /\ appState (fst (handleGenerate backend_story sample_app [])) = Reading.
Proof.
  split.
  - apply (handleGenerate_fatal_iff backend_down sample_app []).
    + by vm_compute.
    + by left.
  - apply (handleGenerate_fatal_iff backend_story sample_app []).
    + by vm_compute.
    + by vm_compute.
Defined.

Lemma first_inline_data_Some ps d :
  first_inline_data ps = Some d <->
  exists before part after,
    ps = before ++ part :: after
    /\ Forall (fun p => image_of_part p = None) before
    /\ image_of_part part = Some d.
Proof.
  induction ps as [|p ps IH]; simpl.
  - split; [done|]. intros (before & part & after & Hps & _).
    by destruct before.
  - destruct (image_of_part p) as [d'|] eqn:Hp.
    + assert (match inlineData p with
              | Some {| data := Some (c :: d0) |} => Some (c :: d0)
              | _ => first_inline_data ps
              end = Some d') as ->.
      { unfold image_of_part in Hp.
        by destruct (inlineData p) as [[[[|c d0]|]]|]. }
      split.
      * intros [= <-]. exists [], p, ps. by repeat split.
      * intros (before & part & after & Hps & Hbefore & Hpart).
        destruct before as [|b before].
        -- injection Hps as <- <-. congruence.
        -- injection Hps as <- _. apply Forall_cons in Hbefore as [Hb _].
           congruence.
    + assert (match inlineData p with
              | Some {| data := Some (c :: d0) |} => Some (c :: d0)
              | _ => first_inline_data ps
              end = first_inline_data ps) as ->.
      { unfold image_of_part in Hp.
        by destruct (inlineData p) as [[[[|c d0]|]]|]. }
      rewrite IH. split.
      * intros (before & part & after & -> & Hbefore & Hpart).
        exists (p :: before), part, after. repeat split; [|done].
        by apply Forall_cons.
      * intros (before & part & after & Hps & Hbefore & Hpart).
        destruct before as [|b before].
        -- injection Hps as <- <-. congruence.
        -- injection Hps as <- ->. apply Forall_cons in Hbefore as [_ Hbefore].
           by exists before, part, after.
Qed.

(** C8.  [generateIllustration] returns for every prompt, style, backend
    and host: its result is never a thrown error but a string, which is
    the [data:image/png;base64,] URI of the first part of the response
    that carries inline data, when the call succeeded and there is such
    a part, and the placeholder URL in every other case. *)
Theorem generateIllustration_never_throws ai host prompt style log :
  let reply := ai (length log)
                 (ImageRequest (style_name style ++ js " style. " ++ prompt)) in
  exists url,
    fst (generateIllustration ai host prompt style log) = Ok url
    /\ url <> []
    /\ ((exists response ps before part after d,
            reply = Ok response /\ first_parts response = Some ps
            /\ ps = before ++ part :: after
            /\ Forall (fun p => image_of_part p = None) before
            /\ image_of_part part = Some d
            /\ url = data_uri d)
        \/ ((forall response ps,
                reply = Ok response -> first_parts response = Some ps ->
                first_inline_data ps = None)
            /\ url = placeholder host)).
Proof.
  intros reply. unfold generateIllustration, io_bind, io_ret, generateContent.
  cbn [fst]. fold reply.
  destruct reply as [response|e]; cbn.
  - destruct (first_parts response) as [ps|] eqn:Hparts; cbn.
    + destruct (first_inline_data ps) as [d|] eqn:Hd; cbn.
      * exists (data_uri d). split; [done|]. split; [done|]. left.
        apply first_inline_data_Some in Hd
          as (before & part & after & Hps & Hbefore & Hpart).
        by exists response, ps, before, part, after, d.
      * exists (placeholder host). split; [done|]. split; [done|]. right.
        split; [|done]. intros r ps' [= <-] Hps'. congruence.
    + exists (placeholder host). split; [done|]. split; [done|]. right.
      split; [|done]. intros r ps' [= <-] Hps'. congruence.
  - exists (placeholder host). split; [done|]. split; [done|]. right.
    split; [|done]. by intros r ps' [=].
Qed.

End ServiceFacts.

(** ** Navigation *)

Section NavigationFacts.

Local Open Scope Z_scope.

(** C4.  In a viewer state with [currentPageIndex > 0], the handler of
    the previous-page control hands [setCurrentPageIndex] the function
    [prev => prev + 1], the one that the handler of the next-page control
    uses: the index becomes [currentPageIndex + 1], not
    [currentPageIndex - 1].  From the last page, at an index of at least
    1, the index leaves the range of the page sequence, where
    [pages[currentPageIndex]] is undefined. *)
Theorem handlePrev_moves_forward (pages : list StoryPage) (currentPageIndex : Z) :
  currentPageIndex > 0 ->
  handlePrev pages currentPageIndex currentPageIndex = currentPageIndex + 1
  /\ handlePrev pages currentPageIndex currentPageIndex <> currentPageIndex - 1
  /\ (forall prev, handlePrev pages currentPageIndex prev = prev + 1)
  /\ (forall prev,
         currentPageIndex < Z.of_nat (length pages) - 1 ->
         handleNext pages currentPageIndex prev
         = handlePrev pages currentPageIndex prev)
  /\ (currentPageIndex = Z.of_nat (length pages) - 1 ->
      index_in_range pages currentPageIndex
      /\ ~ index_in_range pages
             (handlePrev pages currentPageIndex currentPageIndex)
      /\ currentPage pages (handlePrev pages currentPageIndex currentPageIndex)
         = None).
Proof.
  intros Hpos. unfold handlePrev, handleNext, index_in_range, currentPage.
  assert ((currentPageIndex >? 0) = true) as -> by lia.
  split; [done|]. split; [lia|]. split; [done|]. split.
  - intros prev Hlt.
    by assert ((currentPageIndex <? Z.of_nat (length pages) - 1) = true)
      as -> by lia.
  - intros Hlast. split; [lia|]. split; [lia|].
    assert ((currentPageIndex + 1 <? 0) = false) as -> by lia.
    apply lookup_ge_None. lia.
Qed.

Lemma handlePrev_moves_forward_witness :
  handlePrev [sample_page 1 None; sample_page 2 None] 1 1 = 2
  /\ currentPage [sample_page 1 None; sample_page 2 None]
       (handlePrev [sample_page 1 None; sample_page 2 None] 1 1) = None.
Proof.
  destruct (handlePrev_moves_forward [sample_page 1 None; sample_page 2 None] 1)
    as (Hprev & _ & _ & _ & Hlast).
  - reflexivity.
  - split; [exact Hprev|]. by apply Hlast.
Defined.

End NavigationFacts.

(** ** PDF export *)

Section PdfFacts.

Implicit Types (doc : PdfDoc) (pages : list StoryPage).

Lemma addImage_snoc doc last img :
  addImage img (doc ++ [last]) = doc ++ [last ++ [img]].
Proof. unfold addImage. by rewrite rev_unit, rev_involutive. Qed.

(** With a rasterizer that succeeds, the images of the exported
    document are those of the pages with an image, in order. *)
Lemma export_from_images (html2canvas : StoryPage -> jsstring) pages :
  forall i doc last,
    exists doc' last',
      export_from (fun page => Ok (html2canvas page)) i pages (doc ++ [last])
      = Ok (doc' ++ [last'])
      /\ images_of (doc' ++ [last'])
         = images_of (doc ++ [last]) ++ map html2canvas (with_image pages).
Proof.
  unfold images_of, with_image.
  induction pages as [|page pages IH]; intros i doc last.
  - exists doc, last. cbn. by rewrite app_nil_r.
  - cbn [export_from]. destruct (truthy (imageUrl page)) eqn:Himg; cbn [negb].
    + rewrite filter_cons_True by done. cbn [mbind outcome_bind map].
      cbv zeta. destruct (0 <? i).
      * unfold addPage. rewrite addImage_snoc.
        change ([] ++ [html2canvas page]) with [html2canvas page].
        destruct (IH (S i) (doc ++ [last]) [html2canvas page])
          as (doc' & last' & -> & Himages).
        exists doc', last'. split; [done|]. rewrite Himages.
        rewrite !concat_app. cbn. by rewrite !app_nil_r, <- !app_assoc.
      * rewrite addImage_snoc.
        destruct (IH (S i) doc (last ++ [html2canvas page]))
          as (doc' & last' & -> & Himages).
        exists doc', last'. split; [done|]. rewrite Himages.
        rewrite !concat_app. cbn. by rewrite !app_nil_r, <- !app_assoc.
    + rewrite filter_cons_False by (rewrite Himg; done).
      apply IH.
Qed.

(** From an index past 0, every page with an image adds a page to the
    document. *)
Lemma export_from_count (html2canvas : StoryPage -> jsstring) pages :
  forall i doc last,
    0 < i ->
    exists doc',
      export_from (fun page => Ok (html2canvas page)) i pages (doc ++ [last])
      = Ok doc'
      /\ length doc' = length (doc ++ [last]) + length (with_image pages).
Proof.
  unfold with_image.
  induction pages as [|page pages IH]; intros i doc last Hi.
  - exists (doc ++ [last]). cbn. split; [done|lia].
  - cbn [export_from]. destruct (truthy (imageUrl page)) eqn:Himg; cbn [negb].
    + rewrite filter_cons_True by done. cbn [mbind outcome_bind].
      cbv zeta. assert ((0 <? i) = true) as -> by (apply Nat.ltb_lt; lia).
      unfold addPage. rewrite addImage_snoc.
      destruct (IH (S i) (doc ++ [last]) ([] ++ [html2canvas page]))
        as (doc' & -> & Hlen); [lia|].
      exists doc'. split; [done|]. rewrite Hlen, !length_app. simpl. lia.
    + rewrite filter_cons_False by (rewrite Himg; done).
      apply IH. lia.
Qed.

(** The page count of the export: the number of pages with an image when
    the first page of the book has one, and one more than that when it
    has none. *)
Lemma export_page_count (html2canvas : StoryPage -> jsstring) page pages :
  exists doc,
    handleDownloadPdf true (fun page => Ok (html2canvas page)) (page :: pages)
    = Some doc
    /\ length doc
       = if truthy (imageUrl page) then length (with_image (page :: pages))
         else 1 + length (with_image (page :: pages)).
Proof.
  unfold handleDownloadPdf, with_image. cbn [negb export_from].
  destruct (truthy (imageUrl page)) eqn:Himg; cbn [negb].
  - rewrite filter_cons_True by done. cbn [mbind outcome_bind Nat.ltb Nat.leb].
    cbv zeta. unfold jsPDF_new. rewrite (addImage_snoc [] []).
    destruct (export_from_count html2canvas pages 1 [] ([] ++ [html2canvas page]))
      as (doc & -> & Hlen); [lia|].
    exists doc. split; [done|]. rewrite Hlen. simpl. done.
  - rewrite filter_cons_False by (rewrite Himg; done).
    destruct (export_from_count html2canvas pages 1 [] []) as (doc & Hdoc & Hlen);
      [lia|].
    unfold jsPDF_new. cbn [app] in Hdoc. rewrite Hdoc.
    exists doc. split; [done|]. rewrite Hlen. simpl. done.
Qed.

(** C2: the code misses the claim.  On a book whose first page has no
    image and whose second page has one, the exported document has two
    pages, the first of them blank, while one page has an image; on a
    book without any image it has one blank page.  In both the page count
    is not the number of pages with an image.  The guard [i > 0] tests the
    index in the book, not whether an image was drawn before. *)
Theorem export_blank_first_page :
  handleDownloadPdf true sample_html2canvas book_without_first_image
  = Some [[]; [js "data:image/png;base64,page++"]]
  /\ length (with_image book_without_first_image) = 1
  /\ handleDownloadPdf true sample_html2canvas book_without_images = Some [[]]
  /\ length (with_image book_without_images) = 0.
Proof.
  split; [vm_compute; reflexivity|]. split; [vm_compute; reflexivity|].
  split; vm_compute; reflexivity.
Qed.

End PdfFacts.

(** ** The playback transport *)

Section TransportFacts.

Context {B : Type} `{EqDecision B}.

Implicit Types (t : @Transport B) (n : @SourceNode B) (b : B) (id : nat).

Lemma filter_none {A} (P : A -> Prop) `{forall x, Decision (P x)} (l : list A) :
  (forall i x, l !! i = Some x -> ~ P x) -> filter P l = [].
Proof.
  induction l as [|a l IH]; intros Hl; [done|].
  rewrite filter_cons_False by (by apply (Hl 0)).
  apply IH. intros i x Hi. by apply (Hl (S i)).
Qed.

Lemma filter_at_most_one {A} (P : A -> Prop) `{forall x, Decision (P x)}
    (l : list A) :
  (forall i j x y, l !! i = Some x -> l !! j = Some y -> P x -> P y -> i = j) ->
  length (filter P l) <= 1.
Proof.
  induction l as [|a l IH]; intros Hl; [simpl; lia|].
  destruct (decide (P a)) as [Ha|Ha].
  - rewrite filter_cons_True by done.
    rewrite filter_none; [simpl; lia|].
    intros i x Hi Hx. by specialize (Hl 0 (S i) a x eq_refl Hi Ha Hx).
  - rewrite filter_cons_False by done. apply IH.
    intros i j x y Hi Hj Hx Hy.
    by specialize (Hl (S i) (S j) x y Hi Hj Hx Hy) as [= ->].
Qed.

Lemma one_source_at_most_one t :
  one_source t -> length (active_nodes t) <= 1.
Proof.
  intros Hone. apply filter_at_most_one.
  intros i j x y Hi Hj Hx Hy.
  pose proof (Hone i x Hi Hx). pose proof (Hone j y Hj Hy). congruence.
Qed.

Lemma silent_no_active t : silent t -> active_nodes t = [].
Proof.
  intros Hs. apply filter_none. intros i x Hi. rewrite (Hs i x Hi). done.
Qed.

Lemma silent_one_source t : silent t -> one_source t.
Proof. intros Hs id n Hid Hn. rewrite (Hs id n Hid) in Hn. done. Qed.

Lemma stop_and_disconnect_inactive n : active (stop_and_disconnect n) = false.
Proof.
  unfold stop_and_disconnect, active.
  destruct (started n) eqn:E; simpl; [done|by rewrite E].
Qed.

(** After [stopAudio] no node sounds and none is tracked. *)
Lemma stopAudio_silent t :
  one_source t ->
  silent (stopAudio t) /\ sourceNodeRef (stopAudio t) = None
  /\ playingAudioBuffer (stopAudio t) = None.
Proof.
  intros Hone. unfold stopAudio.
  destruct (sourceNodeRef t) as [rid|] eqn:Href; cbn; (split; [|done]).
  - intros id n. cbn. destruct (decide (rid = id)) as [->|Hne].
    + rewrite list_lookup_alter_eq. destruct (nodes t !! id); [|done].
      intros [= <-]. apply stop_and_disconnect_inactive.
    + rewrite list_lookup_alter_ne by done. intros Hid.
      destruct (active n) eqn:Hn; [|done].
      specialize (Hone id n Hid Hn). congruence.
  - intros id n Hid. cbn in Hid. destruct (active n) eqn:Hn; [|done].
    specialize (Hone id n Hid Hn). congruence.
Qed.

(** The node that [stopAudio] finds tracked and started is stopped and
    disconnected. *)
Lemma stopAudio_stops t id n :
  sourceNodeRef t = Some id -> nodes t !! id = Some n -> started n = true ->
  exists n', nodes (stopAudio t) !! id = Some n'
             /\ buffer n' = buffer n /\ stopped n' = true
             /\ connected n' = false.
Proof.
  intros Href Hid Hst. unfold stopAudio. rewrite Href. cbn.
  rewrite list_lookup_alter_eq, Hid. cbn. eexists. split; [done|].
  unfold stop_and_disconnect. by rewrite Hst.
Qed.

Lemma playAudio_body_nodes saw b t :
  silent (stopAudio t) ->
  nodes (playAudio_body saw b t)
  = nodes (stopAudio t)
    ++ [{| buffer := b; connected := true; started := true; stopped := false;
           ended := false; onended_saw := saw |}]
  /\ sourceNodeRef (playAudio_body saw b t) = Some (length (nodes (stopAudio t)))
  /\ playingAudioBuffer (playAudio_body saw b t) = Some b.
Proof.
  intros _. unfold playAudio_body, start_source, create_source. cbn.
  split; [|done].
  rewrite alter_app_r_alt by lia. by rewrite Nat.sub_diag.
Qed.

(** [playAudio_body] leaves the new node as the only one that sounds. *)
Lemma playAudio_body_one_source saw b t :
  one_source t ->
  one_source (playAudio_body saw b t)
  /\ exists nb, active_nodes (playAudio_body saw b t) = [nb] /\ buffer nb = b.
Proof.
  intros Hone. destruct (stopAudio_silent t Hone) as (Hsilent & _ & _).
  destruct (playAudio_body_nodes saw b t Hsilent) as (Hnodes & Href & _).
  split.
  - intros id n Hid Hn. rewrite Href. rewrite Hnodes in Hid.
    apply lookup_app_Some in Hid as [Hid|[Hge Hid]].
    + rewrite (Hsilent id n Hid) in Hn. done.
    + destruct (id - length (nodes (stopAudio t))) as [|k] eqn:Hk; [|done].
      f_equal. lia.
  - eexists. unfold active_nodes at 1. rewrite Hnodes, filter_app.
    fold (active_nodes (stopAudio t)). rewrite silent_no_active by done.
    rewrite filter_cons_True by done. done.
Qed.

(** Between the statements of [playAudio_body] no node sounds: after
    [stopAudio()], and with the new node created, connected and tracked
    but not started. *)
Lemma playAudio_body_stages saw b t :
  one_source t ->
  silent (stopAudio t) /\ silent (create_source saw b (stopAudio t)).
Proof.
  intros Hone. destruct (stopAudio_silent t Hone) as (Hsilent & _ & _).
  split; [done|]. intros id n. unfold create_source. cbn [nodes].
  intros Hid. apply lookup_app_Some in Hid as [Hid|[_ Hid]].
  - by apply (Hsilent id n).
  - destruct (id - length (nodes (stopAudio t))) as [|j]; [|done].
    by injection Hid as <-.
Qed.

Lemma mark_ended_inactive n : active (mark_ended n) = false.
Proof. unfold active, mark_ended. cbn. by rewrite andb_false_r. Qed.

Lemma on_ended_one_source id t : one_source t -> one_source (on_ended id t).
Proof.
  intros Hone. unfold on_ended. destruct (nodes t !! id) as [n0|] eqn:Hid; [|done].
  intros j n. cbn. destruct (decide (id = j)) as [->|Hne].
  - rewrite list_lookup_alter_eq, Hid. intros [= <-].
    by rewrite mark_ended_inactive.
  - rewrite list_lookup_alter_ne by done. apply Hone.
Qed.

Lemma open_context_one_source fresh t :
  one_source t -> one_source (open_context fresh t).
Proof. unfold open_context. by destruct (audioContextRef t) as [[]|]. Qed.

Lemma resumed_one_source t : one_source t -> one_source (resumed t).
Proof. done. Qed.

Lemma toggleAudio_one_source fresh saw ob t :
  one_source t -> one_source (toggleAudio fresh saw ob t).
Proof.
  intros Hone. unfold toggleAudio. destruct ob as [b|]; [|done].
  destruct (decide (saw = Some b)).
  - apply silent_one_source. by apply stopAudio_silent.
  - unfold playAudio.
    pose proof (open_context_one_source fresh t Hone) as Hopen.
    destruct (audioContextRef (open_context fresh t)) as [[]|];
      try done; by apply playAudio_body_one_source.
Qed.

Lemma step_one_source t t' : step t t' -> one_source t -> one_source t'.
Proof.
  intros Hstep Hone. destruct Hstep.
  - by apply toggleAudio_one_source.
  - by apply playAudio_body_one_source, resumed_one_source.
  - by apply on_ended_one_source.
  - apply silent_one_source. by apply stopAudio_silent.
  - apply silent_one_source.
    destruct (stopAudio_silent t Hone) as (Hsilent & _ & _). exact Hsilent.
Qed.

Lemma reachable_one_source t : reachable t -> one_source t.
Proof.
  induction 1 as [|t t' _ IH Hstep].
  - by intros id n Hid.
  - by apply (step_one_source t t').
Qed.

(** C5.  In every state that the transport can reach at most one source
    node sounds, and it is the one that [sourceNodeRef] tracks.
    Toggling the buffer that plays leaves the transport idle: no buffer
    marked as playing, no node tracked, no node sounding.  Toggling
    another buffer [b] while [a] plays, with a running context, first
    stops and disconnects the node of [a], after which no node sounds
    until the new node is started, and then leaves one node sounding,
    the new one, which plays [b]. *)
Theorem transport_single_source :
  (forall t, reachable t -> one_source t /\ length (active_nodes t) <= 1)
  /\ (forall fresh a t,
         one_source t -> playingAudioBuffer t = Some a ->
         let t' := toggleAudio fresh (playingAudioBuffer t) (Some a) t in
         playingAudioBuffer t' = None /\ sourceNodeRef t' = None
         /\ active_nodes t' = [])
  /\ (forall fresh a b id na t,
         one_source t -> playingAudioBuffer t = Some a ->
         sourceNodeRef t = Some id -> nodes t !! id = Some na ->
         buffer na = a -> started na = true ->
         audioContextRef t = Some Running -> b <> a ->
         let t' := toggleAudio fresh (playingAudioBuffer t) (Some b) t in
         t' = start_source b (create_source (playingAudioBuffer t) b (stopAudio t))
         /\ active_nodes (stopAudio t) = []
         /\ active_nodes (create_source (playingAudioBuffer t) b (stopAudio t)) = []
         /\ (exists na', nodes t' !! id = Some na' /\ buffer na' = a
                         /\ stopped na' = true /\ connected na' = false)
         /\ (exists nb, active_nodes t' = [nb] /\ buffer nb = b)
         /\ playingAudioBuffer t' = Some b
         /\ sourceNodeRef t' = Some (length (nodes t))).
Proof.
  split; [|split].
  - intros t Hr. apply reachable_one_source in Hr.
    split; [done|by apply one_source_at_most_one].
  - intros fresh a t Hone Hplay t'. subst t'. unfold toggleAudio.
    rewrite decide_True by done.
    destruct (stopAudio_silent t Hone) as (Hsilent & Href & Hnone).
    split; [done|]. split; [done|]. by apply silent_no_active.
  - intros fresh a b id na t Hone Hplay Href Hid Hbuf Hst Hctx Hne t'.
    assert (t' = playAudio_body (playingAudioBuffer t) b t) as Ht'.
    { subst t'. unfold toggleAudio. rewrite Hplay.
      rewrite decide_False by congruence.
      unfold playAudio.
      assert (open_context fresh t = t) as ->
        by (unfold open_context; by rewrite Hctx).
      cbv zeta. by rewrite Hctx. }
    destruct (stopAudio_silent t Hone) as (Hsilent & _ & _).
    destruct (playAudio_body_nodes (playingAudioBuffer t) b t Hsilent)
      as (Hnodes & Hnew & Hnow).
    destruct (stopAudio_stops t id na Href Hid Hst)
      as (na' & Hid' & Hbuf' & Hstop' & Hconn').
    split; [done|]. split; [by apply silent_no_active|].
    split; [by apply silent_no_active, playAudio_body_stages|].
    split; [|split; [|split]].
    + exists na'. rewrite Ht', Hnodes.
      rewrite (lookup_app_l_Some _ _ _ _ Hid'). split; [done|].
      split; [congruence|done].
    + rewrite Ht'. by apply playAudio_body_one_source.
    + by rewrite Ht'.
    + rewrite Ht', Hnew. f_equal. unfold stopAudio. rewrite Href. cbn.
      apply length_alter.
Qed.

End TransportFacts.

Lemma transport_single_source_witness :
  playingAudioBuffer
    (toggleAudio Running (playingAudioBuffer playing_one) (Some 1) playing_one)
  = None
  /\ exists nb,
       active_nodes
         (toggleAudio Running (playingAudioBuffer playing_one) (Some 2) playing_one)
       = [nb]
       /\ buffer nb = 2.
Proof.
  destruct (transport_single_source (B := nat)) as (Hreach & Hsame & Hother).
  assert (one_source playing_one) as Hone.
  { apply Hreach. unfold playing_one.
    eapply reachable_step; [apply reachable_mounted|apply step_toggle]. }
  split.
  - by apply (Hsame Running 1 playing_one).
  - apply (Hother Running 1 2 0
             {| buffer := 1; connected := true; started := true;
                stopped := false; ended := false; onended_saw := None |}
             playing_one); try done.
Defined.

(** * Further properties *)

(** ** The audio decode helper on arbitrary payloads *)

Section DecodeFacts.

Local Open Scope Z_scope.

Lemma list_pair_ind {A} (P : list A -> Prop) :
  P [] -> (forall a, P [a]) -> (forall a b l, P l -> P (a :: b :: l)) ->
  forall l, P l.
Proof.
  intros H0 H1 H2.
  assert (forall l, P l /\ forall a, P (a :: l)) as H.
  { induction l as [|b l [IHl IHa]]; split; auto. }
  intros l. apply H.
Qed.

Lemma int16_le_range lo hi :
  is_byte lo -> is_byte hi -> is_int16 (int16_le lo hi).
Proof.
  unfold is_byte, is_int16, int16_le. intros Hlo Hhi. cbv zeta.
  destruct (lo + 256 * hi <? 32768) eqn:E;
    [apply Z.ltb_lt in E|apply Z.ltb_ge in E]; lia.
Qed.

Lemma Int16Array_of_odd data :
  Nat.odd (length data) = true -> exists e, Int16Array_of data = Throw e.
Proof.
  induction data as [|a|a b data IH] using list_pair_ind; intros Hodd.
  - discriminate Hodd.
  - by eexists.
  - cbn [Int16Array_of]. destruct IH as [e ->]; [exact Hodd|]. by eexists.
Qed.

Lemma Int16Array_of_even data :
  Nat.even (length data) = true ->
  exists dataInt16,
    Int16Array_of data = Ok dataInt16
    /\ length data = (2 * length dataInt16)%nat
    /\ (Forall is_byte data -> Forall is_int16 dataInt16)
    /\ (forall i lo hi,
           data !! (2 * i)%nat = Some lo -> data !! (2 * i + 1)%nat = Some hi ->
           dataInt16 !! i = Some (int16_le lo hi)).
Proof.
  induction data as [|a|a b data IH] using list_pair_ind; intros Heven.
  - exists []. repeat split; done.
  - discriminate Heven.
  - destruct IH as (l & Hl & Hlen & Hrange & Hat); [exact Heven|].
    exists (int16_le a b :: l). cbn [Int16Array_of]. rewrite Hl.
    split; [done|]. split; [cbn [length]; lia|]. split.
    + intros Hbytes. apply Forall_cons in Hbytes as [Ha Hbytes].
      apply Forall_cons in Hbytes as [Hb Hbytes].
      apply Forall_cons. split; [by apply int16_le_range|by apply Hrange].
    + intros [|i] lo hi.
      * cbn. by intros [= <-] [= <-].
      * replace (2 * S i)%nat with (S (S (2 * i))) by lia.
        replace (S (S (2 * i)) + 1)%nat with (S (S (2 * i + 1))) by lia.
        cbn [lookup list_lookup]. apply Hat.
Qed.

Lemma fill_channels_all dataInt16 numChannels frameCount :
  forall todo channel chans,
    (forall c, (channel <= c < channel + todo)%nat ->
               exists cd, chans !! c = Some cd /\ length cd = frameCount) ->
    exists chans',
      fill_channels dataInt16 numChannels frameCount channel todo chans = Ok chans'
      /\ length chans' = length chans
      /\ forall c,
           chans' !! c
           = if decide (channel <= c < channel + todo)%nat
             then Some (map (sample_at dataInt16 numChannels c) (seq 0 frameCount))
             else chans !! c.
Proof.
  induction todo as [|todo IH]; intros channel chans Hchans.
  - exists chans. split; [done|]. split; [done|]. intros c.
    rewrite decide_False by lia. done.
  - cbn [fill_channels].
    destruct (Hchans channel) as (cd & Hcd & Hlen); [lia|]. rewrite Hcd.
    pose proof (fill_channel_all dataInt16 numChannels channel cd) as Hfill.
    rewrite Hlen in Hfill. rewrite Hfill.
    destruct (IH (S channel)
                (<[channel := map (sample_at dataInt16 numChannels channel)
                                  (seq 0 frameCount)]> chans))
      as (chans' & -> & Hlen' & Hat').
    { intros c Hc. rewrite list_lookup_insert_ne by lia. apply Hchans. lia. }
    exists chans'. split; [done|]. split; [by rewrite Hlen', length_insert|].
    intros c. rewrite Hat'.
    destruct (decide (c = channel)) as [->|Hne].
    + rewrite decide_False by lia. rewrite decide_True by lia.
      apply list_lookup_insert_eq. by apply lookup_lt_Some in Hcd.
    + rewrite list_lookup_insert_ne by done.
      destruct (decide (S channel <= c < S channel + todo)%nat);
        [rewrite decide_True by lia|rewrite decide_False by lia]; done.
Qed.

Lemma lookup_repeat {A} (x : A) n i : (i < n)%nat -> repeat x n !! i = Some x.
Proof.
  revert i. induction n as [|n IH]; intros [|i] Hi; try lia; [done|].
  cbn. apply IH. lia.
Qed.

Lemma lookup_map_seq {A} (f : nat -> A) n i :
  (i < n)%nat -> map f (seq 0 n) !! i = Some (f i).
Proof.
  intros Hi. change (map f (seq 0 n)) with (f <$> seq 0 n).
  by rewrite list_lookup_fmap, lookup_seq_lt.
Qed.

(** The fallback in closed form: channel [c] holds, frame by frame, the
    samples at [c], [numChannels + c], [2 * numChannels + c], ... *)
Lemma rawPcmFallback_closed_form ctx data dataInt16 rate numChannels :
  Int16Array_of data = Ok dataInt16 ->
  ctx_createBuffer ctx numChannels (length dataInt16 / numChannels) rate
  = Ok (silence numChannels (length dataInt16 / numChannels) rate) ->
  rawPcmFallback data ctx rate numChannels
  = Ok {| sampleRate := rate;
          channels :=
            map (fun c => map (sample_at dataInt16 numChannels c)
                              (seq 0 (length dataInt16 / numChannels)))
                (seq 0 numChannels) |}.
Proof.
  intros Hdata Hcreate. unfold rawPcmFallback. rewrite Hdata.
  cbn [mbind outcome_bind]. cbv zeta. rewrite Hcreate.
  cbn [mbind outcome_bind silence channels].
  destruct (fill_channels_all dataInt16 numChannels
              (length dataInt16 / numChannels) numChannels 0
              (repeat (repeat 0%Q (length dataInt16 / numChannels)) numChannels))
    as (chans & -> & Hlen & Hat).
  { intros c Hc. exists (repeat 0%Q (length dataInt16 / numChannels)).
    split; [apply lookup_repeat; lia|apply repeat_length]. }
  cbn [mbind outcome_bind]. unfold with_channels. cbn [sampleRate].
  do 2 f_equal. apply list_eq. intros c. rewrite Hat.
  destruct (decide (0 <= c < 0 + numChannels)%nat) as [Hc|Hc].
  - symmetry. apply (lookup_map_seq (fun c => map _ _)). lia.
  - rewrite !lookup_ge_None_2; [done| |].
    + rewrite length_map, length_seq. lia.
    + rewrite repeat_length. lia.
Qed.

Lemma sample_at_range dataInt16 numChannels channel i :
  Forall is_int16 dataInt16 ->
  (-1 <= sample_at dataInt16 numChannels channel i)%Q
  /\ (sample_at dataInt16 numChannels channel i < 1)%Q.
Proof.
  intros Hd. unfold sample_at.
  assert (is_int16 (nth (i * numChannels + channel) dataInt16 0)) as Hs.
  { rewrite nth_lookup.
    destruct (dataInt16 !! (i * numChannels + channel)%nat) as [s|] eqn:E.
    - cbn. eapply Forall_lookup_1; [exact Hd|exact E].
    - cbn. unfold is_int16. lia. }
  unfold is_int16 in Hs. unfold Qle, Qlt. simpl. lia.
Qed.

(** X1.  The raw PCM fallback de-interleaves: for every count of channels
    that is not zero, given by [createBuffer] a silent buffer of that
    many channels with [length / numChannels] frames, it returns a buffer
    of the requested rate in which frame [i] of channel [c] is sample
    [i * numChannels + c] of the [Int16Array] divided by 32768; samples
    past the last whole frame are left out. *)
Theorem rawPcmFallback_deinterleaves ctx data dataInt16 rate numChannels :
  (0 < numChannels)%nat ->
  Int16Array_of data = Ok dataInt16 ->
  ctx_createBuffer ctx numChannels (length dataInt16 / numChannels) rate
  = Ok (silence numChannels (length dataInt16 / numChannels) rate) ->
  exists buffer,
    rawPcmFallback data ctx rate numChannels = Ok buffer
    /\ sampleRate buffer = rate
    /\ length (channels buffer) = numChannels
    /\ forall c, (c < numChannels)%nat ->
         exists frames,
           channels buffer !! c = Some frames
           /\ length frames = (length dataInt16 / numChannels)%nat
           /\ forall i, (i < length dataInt16 / numChannels)%nat ->
                exists s, dataInt16 !! (i * numChannels + c)%nat = Some s
                          /\ frames !! i = Some (s # 32768)%Q.
Proof.
  intros Hnc Hdata Hcreate. eexists. split.
  { by apply rawPcmFallback_closed_form. }
  cbn [sampleRate channels]. split; [done|].
  split; [by rewrite length_map, length_seq|].
  intros c Hc. eexists. split.
  { by apply (lookup_map_seq (fun c => map _ _)). }
  split; [by rewrite length_map, length_seq|].
  intros i Hi.
  assert (i * numChannels + c < length dataInt16)%nat as Hin.
  { pose proof (Nat.Div0.mul_div_le (length dataInt16) numChannels). nia. }
  apply lookup_lt_is_Some_2 in Hin as [s Hs]. exists s. split; [done|].
  rewrite lookup_map_seq by done. unfold sample_at.
  by rewrite nth_lookup, Hs.
Qed.

Lemma rawPcmFallback_deinterleaves_witness :
  exists buffer,
    rawPcmFallback [1; 0; 2; 0; 3; 0; 4; 0; 5; 0] sample_context 48000 2
    = Ok buffer
    /\ channels buffer = [[1 # 32768; 3 # 32768]; [2 # 32768; 4 # 32768]]%Q.
Proof.
  destruct (rawPcmFallback_deinterleaves sample_context
              [1; 0; 2; 0; 3; 0; 4; 0; 5; 0] [1; 2; 3; 4; 5] 48000 2)
    as (buffer & Hraw & _); [lia|reflexivity|reflexivity|].
  exists buffer. split; [exact Hraw|].
  vm_compute in Hraw. injection Hraw as <-. reflexivity.
Defined.

(** X2.  Whatever bytes the payload holds, when their count is even and
    [createBuffer] gives a silent buffer, every frame of every channel
    that the fallback writes lies in [-1, 1), and every channel has
    [length / 2 / numChannels] frames. *)
Theorem rawPcmFallback_frames_in_range ctx data rate numChannels :
  Forall is_byte data ->
  Nat.even (length data) = true ->
  ctx_createBuffer ctx numChannels (length data / 2 / numChannels) rate
  = Ok (silence numChannels (length data / 2 / numChannels) rate) ->
  exists buffer,
    rawPcmFallback data ctx rate numChannels = Ok buffer
    /\ length (channels buffer) = numChannels
    /\ Forall (fun frames =>
                 length frames = (length data / 2 / numChannels)%nat
                 /\ Forall (fun q => -1 <= q /\ q < 1)%Q frames)
              (channels buffer).
Proof.
  intros Hbytes Heven Hcreate.
  destruct (Int16Array_of_even data Heven) as (dataInt16 & Hdata & Hlen & Hrange & _).
  assert (length data / 2 = length dataInt16)%nat as Hhalf.
  { rewrite Hlen, Nat.mul_comm. by apply Nat.div_mul. }
  rewrite Hhalf in *. eexists. split.
  { by apply rawPcmFallback_closed_form. }
  cbn [channels]. split; [by rewrite length_map, length_seq|].
  apply Forall_map. apply Forall_forall. intros c _.
  split; [by rewrite length_map, length_seq|].
  apply Forall_map. apply Forall_forall. intros i _.
  by apply sample_at_range, Hrange.
Qed.

Lemma rawPcmFallback_frames_in_range_witness :
  exists buffer,
    rawPcmFallback [255; 127; 0; 128; 7; 9] sample_context 24000 1 = Ok buffer
    /\ channels buffer = [[32767 # 32768; -32768 # 32768; 2311 # 32768]]%Q.
Proof.
  destruct (rawPcmFallback_frames_in_range sample_context
              [255; 127; 0; 128; 7; 9] 24000 1)
    as (buffer & Hraw & _).
  - repeat constructor; unfold is_byte; lia.
  - reflexivity.
  - reflexivity.
  - exists buffer. split; [exact Hraw|].
    vm_compute in Hraw. injection Hraw as <-. reflexivity.
Defined.



End DecodeFacts.

(** ** The narration request *)

Section NarrationFacts.

Implicit Types (ai : Backend) (host : Host) (log : list Request).

(** X4.  [generateNarration] makes one request, the speech request for the
    text it is given, and never throws.  It returns a buffer exactly when
    the call succeeded, the first part of the first candidate carries
    inline data that is not empty, [atob] accepted it and
    [decodeAudioData] at 24000 Hz and one channel returned the buffer;
    in every other case it returns undefined. *)
Theorem generateNarration_buffer_or_undefined ai host narration log :
  let reply := ai (length log) (SpeechRequest narration) in
  exists result,
    generateNarration ai host narration log
    = (Ok result, log ++ [SpeechRequest narration])
    /\ forall buffer,
         result = Some buffer <->
         exists response payload audioBytes,
           reply = Ok response
           /\ first_audio response = Some payload /\ payload <> []
           /\ decodeBase64 (atob host) payload = Ok audioBytes
           /\ decodeAudioData audioBytes (audioContext host) 24000 1 = Ok buffer.
Proof.
  intros reply. unfold generateNarration, io_bind, io_ret, generateContent.
  fold reply. destruct reply as [response|e]; cbn [mbind outcome_bind try_catch].
  - destruct (first_audio response) as [[|c b]|] eqn:Haudio.
    + exists None. split; [done|]. intros buffer. split; [done|].
      intros (r & payload & bytes & [= <-] & Hp & Hne & _). congruence.
    + destruct (decodeBase64 (atob host) (c :: b)) as [audioBytes|e] eqn:Hatob;
        cbn [mbind outcome_bind try_catch].
      * destruct (decodeAudioData audioBytes (audioContext host) 24000 1)
          as [buffer0|e] eqn:Hdecode; cbn [mbind outcome_bind try_catch].
        -- exists (Some buffer0). split; [done|]. intros buffer. split.
           ++ intros [= <-]. by exists response, (c :: b), audioBytes.
           ++ intros (r & payload & bytes & [= <-] & Hp & _ & Hb & Hd).
              rewrite Haudio in Hp. injection Hp as <-.
              rewrite Hatob in Hb. injection Hb as <-.
              rewrite Hdecode in Hd. by injection Hd as <-.
        -- exists None. split; [done|]. intros buffer. split; [done|].
           intros (r & payload & bytes & [= <-] & Hp & _ & Hb & Hd).
           rewrite Haudio in Hp. injection Hp as <-.
           rewrite Hatob in Hb. injection Hb as <-.
           rewrite Hdecode in Hd. discriminate Hd.
      * exists None. split; [done|]. intros buffer. split; [done|].
        intros (r & payload & bytes & [= <-] & Hp & _ & Hb & _).
        rewrite Haudio in Hp. injection Hp as <-.
        rewrite Hatob in Hb. discriminate Hb.
    + exists None. split; [done|]. intros buffer. split; [done|].
      intros (r & payload & bytes & [= <-] & Hp & _). congruence.
  - exists None. split; [done|]. intros buffer. split; [done|].
    by intros (r & payload & bytes & [=] & _).
Qed.

End NarrationFacts.

(** ** Forward navigation *)

Section NextFacts.

Local Open Scope Z_scope.

Lemma after_next_closed_form pages n :
  pages <> [] ->
  after_next pages n 0 = Z.min (Z.of_nat n) (Z.of_nat (length pages) - 1).
Proof.
  intros Hne. assert (0 < Z.of_nat (length pages)) as Hlen.
  { destruct pages; [done|]. cbn [length]. lia. }
  induction n as [|n IH].
  - cbn. lia.
  - cbn [after_next]. cbv zeta. rewrite IH. unfold handleNext.
    destruct (Z.min (Z.of_nat n) (Z.of_nat (length pages) - 1)
              <? Z.of_nat (length pages) - 1) eqn:E;
      [apply Z.ltb_lt in E|apply Z.ltb_ge in E]; lia.
Qed.

(** X5.  The next-page handler keeps the index inside the page sequence:
    from an index in range it moves one page forward, except on the last
    page, where it does nothing, and the page at the new index exists.
    After [n] clicks from the first page of a book that is not empty the
    index is [min n (pages.length - 1)].  The previous-page handler does
    nothing at index 0. *)
Theorem handleNext_stays_in_range (pages : list StoryPage) (currentPageIndex : Z) :
  index_in_range pages currentPageIndex ->
  let next := handleNext pages currentPageIndex currentPageIndex in
  index_in_range pages next
  /\ is_Some (currentPage pages next)
  /\ (currentPageIndex < Z.of_nat (length pages) - 1 -> next = currentPageIndex + 1)
  /\ (currentPageIndex = Z.of_nat (length pages) - 1 -> next = currentPageIndex)
  /\ (forall n, after_next pages n 0
                = Z.min (Z.of_nat n) (Z.of_nat (length pages) - 1))
  /\ (forall prev, handlePrev pages 0 prev = prev).
Proof.
  unfold index_in_range. intros Hrange. cbv zeta.
  assert (pages <> []) as Hne.
  { intros ->. cbn [length] in Hrange. lia. }
  unfold handleNext, currentPage.
  destruct (currentPageIndex <? Z.of_nat (length pages) - 1) eqn:E;
    [apply Z.ltb_lt in E|apply Z.ltb_ge in E].
  - split; [lia|]. split.
    { assert ((currentPageIndex + 1 <? 0) = false) as -> by lia.
      apply lookup_lt_is_Some_2. lia. }
    split; [done|]. split; [lia|].
    split; [intros n; by apply after_next_closed_form|done].
  - split; [lia|]. split.
    { assert ((currentPageIndex <? 0) = false) as -> by lia.
      apply lookup_lt_is_Some_2. lia. }
    split; [lia|]. split; [done|].
    split; [intros n; by apply after_next_closed_form|done].
Qed.

Lemma handleNext_stays_in_range_witness :
  handleNext [sample_page 1 None; sample_page 2 None] 0 0 = 1
  /\ handleNext [sample_page 1 None; sample_page 2 None] 1 1 = 1
  /\ after_next [sample_page 1 None; sample_page 2 None] 5 0 = 1.
Proof.
  destruct (handleNext_stays_in_range [sample_page 1 None; sample_page 2 None] 0)
    as (_ & _ & Hstep & _ & Hclicks & _).
  { unfold index_in_range. cbn [length]. lia. }
  destruct (handleNext_stays_in_range [sample_page 1 None; sample_page 2 None] 1)
    as (_ & _ & _ & Hlast & _).
  { unfold index_in_range. cbn [length]. lia. }
  split; [apply Hstep; cbn [length]; lia|].
  split; [apply Hlast; cbn [length]; lia|].
  rewrite Hclicks. reflexivity.
Defined.

End NextFacts.

(** ** PDF export: the document and its failures *)

Section ExportFacts.

Implicit Types (doc : PdfDoc) (pages : list StoryPage).

Lemma export_from_later (html2canvas : StoryPage -> jsstring) pages :
  forall i doc last,
    0 < i ->
    export_from (fun page => Ok (html2canvas page)) i pages (doc ++ [last])
    = Ok (doc ++ [last] ++ one_per_page html2canvas pages).
Proof.
  unfold one_per_page, with_image.
  induction pages as [|page pages IH]; intros i doc last Hi.
  - cbn. done.
  - cbn [export_from]. destruct (truthy (imageUrl page)) eqn:Himg; cbn [negb].
    + rewrite filter_cons_True by done. cbn [mbind outcome_bind map].
      cbv zeta. assert ((0 <? i) = true) as -> by (apply Nat.ltb_lt; lia).
      unfold addPage. rewrite addImage_snoc.
      change ([] ++ [html2canvas page]) with [html2canvas page].
      rewrite IH by lia. by rewrite <- !app_assoc.
    + rewrite filter_cons_False by (rewrite Himg; done).
      apply IH. lia.
Qed.

(** X6.  When the libraries are there and every rasterization succeeds,
    [handleDownloadPdf] saves a document that shows the pages with an
    image, in the order of the book, one image to a page; these pages
    come after one blank page when the first page of the book has no
    image, and an empty book gives one blank page. *)
Theorem handleDownloadPdf_document (html2canvas : StoryPage -> jsstring) pages :
  handleDownloadPdf true (fun page => Ok (html2canvas page)) pages
  = Some (drawn_document html2canvas pages).
Proof.
  unfold handleDownloadPdf, drawn_document. cbn [negb].
  destruct pages as [|page pages]; [done|].
  cbn [export_from]. unfold one_per_page, with_image.
  destruct (truthy (imageUrl page)) eqn:Himg; cbn [negb].
  - rewrite filter_cons_True by done. cbn [mbind outcome_bind map Nat.ltb Nat.leb].
    cbv zeta. unfold jsPDF_new. rewrite (addImage_snoc [] []).
    change ([] ++ [html2canvas page]) with [html2canvas page].
    by rewrite (export_from_later html2canvas pages 1 [] [html2canvas page]) by lia.
  - rewrite filter_cons_False by (rewrite Himg; done).
    unfold jsPDF_new.
    pose proof (export_from_later html2canvas pages 1 [] []) as H.
    cbn [app] in H. by rewrite H by lia.
Qed.

Lemma export_from_Ok_iff html2canvas pages :
  forall i doc,
    (exists doc', export_from html2canvas i pages doc = Ok doc')
    <-> Forall (fun page => exists imgData, html2canvas page = Ok imgData)
               (with_image pages).
Proof.
  unfold with_image.
  induction pages as [|page pages IH]; intros i doc.
  - cbn. split; [by intros _|]. intros _. by eexists.
  - cbn [export_from]. destruct (truthy (imageUrl page)) eqn:Himg; cbn [negb].
    + rewrite filter_cons_True by done. rewrite Forall_cons.
      destruct (html2canvas page) as [imgData|e]; cbn [mbind outcome_bind].
      * rewrite IH. split; [intros H; split; [by eexists|done]|by intros [_ H]].
      * split; [by intros [doc' [=]]|]. by intros [[imgData [=]] _].
    + rewrite filter_cons_False by (rewrite Himg; done). apply IH.
Qed.

(** X7.  [handleDownloadPdf] saves a document exactly when the two
    libraries were found and the rasterization of every page with an
    image succeeded: one failure leaves nothing saved, whatever was drawn
    before it, and the pages without an image are not rasterized, so a
    failure on one of them cannot occur. *)
Theorem handleDownloadPdf_saves_iff (libraries_found : bool)
    (html2canvas : StoryPage -> outcome jsstring) (pages : list StoryPage) :
  is_Some (handleDownloadPdf libraries_found html2canvas pages)
  <-> libraries_found = true
      /\ Forall (fun page => exists imgData, html2canvas page = Ok imgData)
                (with_image pages).
Proof.
  unfold handleDownloadPdf. destruct libraries_found; cbn [negb].
  - rewrite <- (export_from_Ok_iff html2canvas pages 0 jsPDF_new).
    destruct (export_from html2canvas 0 pages jsPDF_new) as [doc|e].
    + split; [intros _; split; [done|by eexists]|by intros _].
    + split; [by intros [? [=]]|]. by intros [_ [? [=]]].
  - split; [by intros [? [=]]|by intros [[=] _]].
Qed.

Lemma handleDownloadPdf_saves_iff_witness :
  handleDownloadPdf true html2canvas_fails_on_2 book_without_first_image = None
  /\ is_Some (handleDownloadPdf true html2canvas_fails_on_2 book_without_images).
Proof.
  split.
  - destruct (handleDownloadPdf true html2canvas_fails_on_2
                book_without_first_image) as [doc|] eqn:E; [|reflexivity].
    assert (is_Some (handleDownloadPdf true html2canvas_fails_on_2
                       book_without_first_image)) as H by (rewrite E; by eexists).
    apply handleDownloadPdf_saves_iff in H as [_ H].
    vm_compute in H. apply Forall_cons in H as [[imgData [=]] _].
  - apply handleDownloadPdf_saves_iff. split; [reflexivity|].
    vm_compute. constructor.
Defined.

End ExportFacts.

(** ** Stopping, and the end of a narration *)

Section EndedFacts.

Context {B : Type} `{EqDecision B}.

Implicit Types (t : @Transport B) (n : @SourceNode B) (b : B) (id : nat).

Lemma stopAudio_length t : length (nodes (stopAudio t)) = length (nodes t).
Proof.
  unfold stopAudio. destruct (sourceNodeRef t); cbn [nodes]; [|done].
  apply length_alter.
Qed.

(** X8.  [stopAudio] leaves the transport idle from every state: no
    buffer marked as playing, no node tracked.  It creates and removes no
    node, touches only the node that was tracked, leaves the audio context
    as it was, and a second call changes nothing. *)
Theorem stopAudio_idle_idempotent t :
  playingAudioBuffer (stopAudio t) = None
  /\ sourceNodeRef (stopAudio t) = None
  /\ audioContextRef (stopAudio t) = audioContextRef t
  /\ length (nodes (stopAudio t)) = length (nodes t)
  /\ (forall id, sourceNodeRef t <> Some id ->
                 nodes (stopAudio t) !! id = nodes t !! id)
  /\ stopAudio (stopAudio t) = stopAudio t.
Proof.
  split; [by unfold stopAudio; destruct (sourceNodeRef t)|].
  split; [by unfold stopAudio; destruct (sourceNodeRef t)|].
  split; [by unfold stopAudio; destruct (sourceNodeRef t)|].
  split; [apply stopAudio_length|]. split.
  - intros id Hid. unfold stopAudio.
    destruct (sourceNodeRef t) as [rid|]; cbn [nodes]; [|done].
    apply list_lookup_alter_ne. congruence.
  - unfold stopAudio. by destruct (sourceNodeRef t).
Qed.

Lemma toggleAudio_starts fresh saw b t :
  audioContextRef (open_context fresh t) <> Some Suspended -> saw <> Some b ->
  toggleAudio fresh saw (Some b) t = playAudio_body saw b (open_context fresh t).
Proof.
  intros Hctx Hsaw. unfold toggleAudio. rewrite decide_False by done.
  unfold playAudio. cbv zeta.
  by destruct (audioContextRef (open_context fresh t)) as [[]|].
Qed.

Lemma open_context_nodes fresh t : nodes (open_context fresh t) = nodes t.
Proof. unfold open_context. by destruct (audioContextRef t) as [[]|]. Qed.

(** X9.  The end of a narration does not return the transport to idle.
    A node started by [toggleAudio] carries an [onended] handler that
    closed over a [playingAudioBuffer] other than its own buffer, as
    [toggleAudio] starts a node only then; so when the node ends no node
    sounds, but the buffer stays marked as playing and the node stays
    tracked.  The next click on the same control, from a render that shows
    the buffer as playing, stops: it starts no node and leaves the
    transport idle. *)
Theorem ended_keeps_playing_mark fresh saw b t :
  one_source t ->
  audioContextRef (open_context fresh t) <> Some Suspended ->
  saw <> Some b ->
  let started_b := toggleAudio fresh saw (Some b) t in
  let id := length (nodes t) in
  let ended_b := on_ended id started_b in
  let clicked := toggleAudio fresh (playingAudioBuffer ended_b) (Some b) ended_b in
  sourceNodeRef started_b = Some id
  /\ (exists nb, nodes started_b !! id = Some nb /\ buffer nb = b
                 /\ active nb = true /\ onended_saw nb = saw)
  /\ active_nodes ended_b = []
  /\ playingAudioBuffer ended_b = Some b
  /\ sourceNodeRef ended_b = Some id
  /\ playingAudioBuffer clicked = None
  /\ length (nodes clicked) = length (nodes ended_b)
  /\ active_nodes clicked = [].
Proof.
  intros Hone Hctx Hsaw. cbv zeta.
  rewrite (toggleAudio_starts fresh saw b t Hctx Hsaw).
  rewrite <- (open_context_nodes fresh t).
  apply (open_context_one_source fresh) in Hone.
  remember (open_context fresh t) as t0 eqn:Heq. clear Heq Hctx t.
  rename t0 into t.
  destruct (stopAudio_silent t Hone) as (Hsilent & _ & _).
  destruct (playAudio_body_nodes saw b t Hsilent) as (Hnodes & Href & Hplay).
  rewrite stopAudio_length in Href.
  assert (nodes (playAudio_body saw b t) !! length (nodes t)
          = Some {| buffer := b; connected := true; started := true;
                    stopped := false; ended := false; onended_saw := saw |})
    as Hnew.
  { rewrite Hnodes, lookup_app_r by (rewrite stopAudio_length; lia).
    by rewrite stopAudio_length, Nat.sub_diag. }
  assert (silent (on_ended (length (nodes t)) (playAudio_body saw b t))) as Hended.
  { intros j n. unfold on_ended. rewrite Hnew. cbn [nodes].
    destruct (decide (length (nodes t) = j)) as [<-|Hne].
    - rewrite list_lookup_alter_eq, Hnew. intros [= <-]. done.
    - rewrite list_lookup_alter_ne by done. rewrite Hnodes. intros Hj.
      apply lookup_app_Some in Hj as [Hj|[Hge Hj]]; [by apply (Hsilent j n)|].
      rewrite stopAudio_length in Hge, Hj.
      destruct (j - length (nodes t)) as [|k] eqn:Hk; [lia|done]. }
  assert (playingAudioBuffer (on_ended (length (nodes t)) (playAudio_body saw b t))
          = Some b) as Hmark.
  { unfold on_ended. rewrite Hnew. cbn [playingAudioBuffer onended_saw buffer].
    by rewrite decide_False by done. }
  assert (sourceNodeRef (on_ended (length (nodes t)) (playAudio_body saw b t))
          = Some (length (nodes t))) as Htracked.
  { unfold on_ended. by rewrite Hnew. }
  split; [done|]. split; [by eexists|]. split; [by apply silent_no_active|].
  split; [done|]. split; [done|].
  rewrite Hmark. unfold toggleAudio. rewrite decide_True by done.
  destruct (stopAudio_silent _ (silent_one_source _ Hended)) as (Hsilent' & _ & Hidle).
  split; [done|]. split; [apply stopAudio_length|by apply silent_no_active].
Qed.

End EndedFacts.

Lemma stopAudio_idle_idempotent_witness :
  nodes (stopAudio playing_one) !! 5 = nodes playing_one !! 5.
Proof.
  destruct (stopAudio_idle_idempotent playing_one) as (_ & _ & _ & _ & Hother & _).
  apply Hother. discriminate.
Defined.

Lemma ended_keeps_playing_mark_witness :
  playingAudioBuffer (on_ended 0 playing_one) = Some 1
  /\ active_nodes (on_ended 0 playing_one) = [].
Proof.
  destruct (ended_keeps_playing_mark (B := nat) Running None 1 mounted)
    as (_ & _ & Hsilent & Hmark & _).
  - by intros id n Hid.
  - discriminate.
  - discriminate.
  - split; [exact Hmark|exact Hsilent].
Defined.

(** ** Merges into the page sequence *)

Section MergeFacts.

Implicit Types (prev current : list StoryPage) (updates u v : Updates)
               (page : StoryPage).

Lemma updatePage_Some index updates prev page :
  prev !! index = Some page ->
  updatePage index updates prev = <[index := merged_page page updates]> prev.
Proof. unfold updatePage, merged_page. by intros ->. Qed.

Lemma default_default {A} (x : A) (o : option A) :
  default (default x o) o = default x o.
Proof. by destruct o. Qed.

Lemma merged_page_idempotent page updates :
  merged_page (merged_page page updates) updates = merged_page page updates.
Proof.
  destruct page as [pn pd ps pv pi pa pl], updates as [un ud us uv ui ua ul].
  unfold merged_page, spread, set_isLoadingAssets.
  cbn [pageNumber illustrationDescription storyText voiceText imageUrl
       audioBuffer isLoadingAssets u_pageNumber u_illustrationDescription
       u_storyText u_voiceText u_imageUrl u_audioBuffer u_isLoadingAssets].
  cbv zeta.
  destruct (truthy (default pi ui) && bool_decide (is_Some (default pa ua))) eqn:E;
    cbn [pageNumber illustrationDescription storyText voiceText imageUrl
         audioBuffer isLoadingAssets];
    rewrite !default_default, E; [|done].
  by destruct ul.
Qed.

(** X10.  Merges at different indices commute, and merging the same
    updates twice into the same page is merging them once: the order in
    which the resolutions of two pages arrive does not matter, and a
    resolution that arrives again changes nothing. *)
Theorem updatePage_commutes_idempotent :
  (forall i j u v prev,
      i <> j ->
      updatePage i u (updatePage j v prev) = updatePage j v (updatePage i u prev))
  /\ (forall i u prev,
         updatePage i u (updatePage i u prev) = updatePage i u prev).
Proof.
  split.
  - intros i j u v prev Hij.
    destruct (prev !! i) as [pi|] eqn:Hi, (prev !! j) as [pj|] eqn:Hj.
    + rewrite (updatePage_Some j v prev pj Hj), (updatePage_Some i u prev pi Hi).
      rewrite (updatePage_Some i u _ pi) by (by rewrite list_lookup_insert_ne).
      rewrite (updatePage_Some j v _ pj) by (by rewrite list_lookup_insert_ne).
      by apply list_insert_insert_ne.
    + rewrite (updatePage_out_of_range j v prev Hj).
      rewrite (updatePage_out_of_range j v); [done|].
      by rewrite updatePage_other.
    + rewrite (updatePage_out_of_range i u prev Hi).
      rewrite (updatePage_out_of_range i u); [done|].
      by rewrite updatePage_other.
    + by rewrite (updatePage_out_of_range j v prev Hj),
        (updatePage_out_of_range i u prev Hi), (updatePage_out_of_range j v prev Hj).
  - intros i u prev. destruct (prev !! i) as [page|] eqn:Hi.
    + rewrite (updatePage_Some i u prev page Hi).
      rewrite (updatePage_Some i u _ (merged_page page u)).
      * by rewrite list_insert_insert_eq, merged_page_idempotent.
      * apply list_lookup_insert_eq. by apply lookup_lt_Some in Hi.
    + by rewrite !(updatePage_out_of_range i u prev Hi).
Qed.

Lemma updatePage_commutes_idempotent_witness :
  updatePage 0 (image_update png_of_cat)
    (updatePage 1 (image_update png_of_cat) book_without_images)
  = updatePage 1 (image_update png_of_cat)
      (updatePage 0 (image_update png_of_cat) book_without_images).
Proof.
  destruct updatePage_commutes_idempotent as (Hcomm & _).
  apply Hcomm. discriminate.
Defined.

End MergeFacts.

(** ** The asset pipeline to its end *)

Section PipelineEnd.

Implicit Types (ai : Backend) (host : Host) (log : list Request)
               (current storyPages : list StoryPage).

Lemma generateIllustration_Ok ai host prompt style log :
  exists url log',
    generateIllustration ai host prompt style log = (Ok url, log') /\ url <> [].
Proof.
  unfold generateIllustration, io_bind, io_ret, generateContent.
  destruct (ai _ _) as [response|e]; cbn.
  - destruct (first_parts response) as [ps|]; cbn.
    + destruct (first_inline_data ps) as [d|]; cbn; by eexists _, _.
    + by eexists _, _.
  - by eexists _, _.
Qed.

Lemma generateNarration_Ok ai host narration log :
  exists result log', generateNarration ai host narration log = (Ok result, log').
Proof.
  unfold generateNarration, io_bind, io_ret, generateContent.
  destruct (ai _ _) as [response|e]; cbn; [|by eexists _, _].
  destruct (first_audio response) as [[|c b]|]; try by eexists _, _.
  destruct (decodeBase64 _ _) as [audioBytes|e]; cbn; [|by eexists _, _].
  destruct (decodeAudioData _ _ _ _) as [buffer0|e]; cbn; by eexists _, _.
Qed.

Lemma assets_of_page_success ai host selectedStyle i page log :
  exists url audio log',
    url <> []
    /\ assets_of_page ai host selectedStyle i page log
       = (updatePage i
            {| u_pageNumber := None; u_illustrationDescription := None;
               u_storyText := None; u_voiceText := None;
               u_imageUrl := Some (Some url);
               u_audioBuffer := Some audio;
               u_isLoadingAssets := Some (Some false) |}, log').
Proof.
  unfold assets_of_page, io_bind, io_ret.
  destruct (generateIllustration_Ok ai host (illustrationDescription page)
              selectedStyle log) as (url & log1 & -> & Hurl).
  destruct (generateNarration_Ok ai host (storyText page) log1)
    as (audio & log2 & ->).
  by exists url, audio, log2.
Qed.

Lemma merged_page_settled page url audio :
  url <> [] ->
  settled page
    (merged_page page
       {| u_pageNumber := None; u_illustrationDescription := None;
          u_storyText := None; u_voiceText := None;
          u_imageUrl := Some (Some url);
          u_audioBuffer := Some audio;
          u_isLoadingAssets := Some (Some false) |}).
Proof.
  intros Hurl. destruct url as [|c url]; [done|].
  unfold settled, merged_page, spread. cbn.
  by destruct audio.
Qed.

Lemma pipeline_settles ai host selectedStyle storyPages :
  forall i current log,
    let final := fst (generateAssetsInBackground_from ai host selectedStyle i
                        storyPages current log) in
    length final = length current
    /\ forall j page,
         current !! j = Some page ->
         (i <= j < i + length storyPages ->
          exists page', final !! j = Some page' /\ settled page page')
         /\ (~ i <= j < i + length storyPages -> final !! j = Some page).
Proof.
  induction storyPages as [|p storyPages IH]; intros i current log; cbv zeta.
  - cbn. split; [done|]. intros j page Hj. split; [lia|done].
  - cbn [generateAssetsInBackground_from].
    change (io_bind ?c ?f log) with (let (a, log') := c log in f a log').
    destruct (assets_of_page_success ai host selectedStyle i p log)
      as (url & audio & log' & Hurl & ->).
    specialize (IH (S i) (updatePage i
            {| u_pageNumber := None; u_illustrationDescription := None;
               u_storyText := None; u_voiceText := None;
               u_imageUrl := Some (Some url);
               u_audioBuffer := Some audio;
               u_isLoadingAssets := Some (Some false) |} current) log').
    cbv zeta in IH. destruct IH as (Hlen & Hat).
    split; [by rewrite Hlen, updatePage_length|].
    intros j page Hj. cbn [length].
    destruct (decide (j = i)) as [->|Hne].
    + split; [|lia]. intros _.
      destruct (Hat i (merged_page page
            {| u_pageNumber := None; u_illustrationDescription := None;
               u_storyText := None; u_voiceText := None;
               u_imageUrl := Some (Some url);
               u_audioBuffer := Some audio;
               u_isLoadingAssets := Some (Some false) |})) as (_ & Hkeep).
      { rewrite (updatePage_Some i _ current page Hj).
        apply list_lookup_insert_eq. by apply lookup_lt_Some in Hj. }
      eexists. split; [apply Hkeep; lia|]. by apply merged_page_settled.
    + destruct (Hat j page) as (Hin & Hout).
      { by rewrite updatePage_other. }
      split; [intros Hj'; apply Hin; lia|intros Hj'; apply Hout; lia].
Qed.

(** X11.  When nothing else touches the page sequence while it runs, the
    pipeline ends with a sequence of the same length in which every page
    at an index below [storyPages.length] has an image and is not loading
    any more, whatever the backend replied, and keeps its number and its
    three texts; the pages from that index on are as they were. *)
Theorem pipeline_settles_every_page ai host storyPages selectedStyle current log :
  let final := fst (generateAssetsInBackground ai host storyPages selectedStyle
                      current log) in
  length final = length current
  /\ forall j page,
       current !! j = Some page ->
       (j < length storyPages ->
        exists page', final !! j = Some page' /\ settled page page')
       /\ (length storyPages <= j -> final !! j = Some page).
Proof.
  unfold generateAssetsInBackground.
  destruct (pipeline_settles ai host selectedStyle storyPages 0 current log)
    as (Hlen & Hat).
  cbv zeta. split; [exact Hlen|]. intros j page Hj.
  destruct (Hat j page Hj) as (Hin & Hout).
  split; [intros Hlt; apply Hin; lia|intros Hge; apply Hout; lia].
Qed.

Lemma pipeline_settles_every_page_witness :
  exists page',
    fst (generateAssetsInBackground backend_down sample_host
           book_without_images Watercolor book_without_images []) !! 1
    = Some page'
    /\ settled (sample_page 2 None) page'.
Proof.
  destruct (pipeline_settles_every_page backend_down sample_host
              book_without_images Watercolor book_without_images [])
    as (_ & Hat).
  destruct (Hat 1 (sample_page 2 None)) as (Hin & _); [reflexivity|].
  apply Hin. cbn [length book_without_images]. lia.
Defined.

End PipelineEnd.

(** ** What [handleGenerate] asks and shows *)

Section GenerateFacts.

Implicit Types (ai : Backend) (app : AppModel) (log : list Request).

Lemma trim_nil : trim [] = [].
Proof. reflexivity. Qed.



(** X13.  With a topic that is not blank, the message of the error view
    after [handleGenerate] is: the message of the rejection when the
    backend rejected the call, or a fixed text when that message is
    empty; ["No text generated"] when the response has no text; and
    ["Failed to generate valid story structure."] when the parser finds
    no page in the text.  It is unset exactly when the reading view is
    shown. *)
Theorem handleGenerate_error_message ai app log :
  trim (topic app) <> [] ->
  let app' := fst (handleGenerate ai app log) in
  error app' = failure_message (ai (length log) (text_request app))
  /\ (error app' = None <-> appState app' = Reading).
Proof.
  intros Htopic. cbv zeta.
  rewrite (handleGenerate_result ai app log Htopic).
  rewrite generateStoryText_result. fold (text_request app).
  unfold failure_message.
  destruct (ai (length log) (text_request app)) as [response|[|c e]].
  - destruct (text response) as [[|c t]|]; [done| |done].
    destruct (parseStoryResponse (c :: t)); done.
  - done.
  - done.
Qed.

Lemma handleGenerate_error_message_witness :
  error (fst (handleGenerate backend_down sample_app []))
  = Some (js "Failed to fetch").
Proof.
  destruct (handleGenerate_error_message backend_down sample_app [])
    as (Hmessage & _).
  - vm_compute. discriminate.
  - rewrite Hmessage. reflexivity.
Defined.

End GenerateFacts.

(** ** Trimming *)

Section TrimFacts.

Implicit Types (s w x : jsstring).

Lemma drop_space_starts_clean s : starts_clean (drop_space s).
Proof.
  induction s as [|c s IH]; [done|]. cbn [drop_space].
  destruct (is_space c) eqn:E; [exact IH|exact E].
Qed.

Lemma drop_space_suffix s : exists w, s = w ++ drop_space s.
Proof.
  induction s as [|c s [w IH]]; [by exists []|]. cbn [drop_space].
  destruct (is_space c); [|by exists []].
  exists (c :: w). cbn. by rewrite <- IH.
Qed.

Lemma drop_space_spaces w x :
  Forall (fun c => is_space c = true) w -> drop_space (w ++ x) = drop_space x.
Proof.
  induction 1 as [|c w Hc _ IH]; [done|]. cbn. by rewrite Hc.
Qed.

Lemma drop_space_clean s : starts_clean s -> drop_space s = s.
Proof. destruct s as [|c s]; [done|]. cbn. by intros ->. Qed.

Lemma drop_space_app x w :
  drop_space (x ++ w)
  = match drop_space x with
    | [] => drop_space w
    | _ :: _ => drop_space x ++ w
    end.
Proof.
  induction x as [|c x IH]; [cbn; by destruct (drop_space w)|].
  cbn. destruct (is_space c); [exact IH|done].
Qed.

Lemma trim_trimmed s : trimmed (trim s).
Proof.
  unfold trimmed, trim. rewrite rev_involutive. split.
  - pose proof (drop_space_starts_clean s) as Hs.
    destruct (drop_space_suffix (rev (drop_space s))) as [w Hw].
    apply (f_equal (@rev _)) in Hw. rewrite rev_involutive, rev_app_distr in Hw.
    destruct (rev (drop_space (rev (drop_space s)))) as [|c u]; [done|].
    rewrite Hw in Hs. exact Hs.
  - apply drop_space_starts_clean.
Qed.

Lemma trim_leading w x :
  Forall (fun c => is_space c = true) w -> trim (w ++ x) = trim x.
Proof. intros Hw. unfold trim. by rewrite drop_space_spaces. Qed.

Lemma trim_trailing x w :
  Forall (fun c => is_space c = true) w -> trim (x ++ w) = trim x.
Proof.
  intros Hw. unfold trim. rewrite drop_space_app.
  destruct (drop_space x) as [|c u] eqn:E.
  - rewrite <- (app_nil_r w), drop_space_spaces by done. done.
  - rewrite rev_app_distr, drop_space_spaces; [done|].
    by apply Forall_rev.
Qed.

Lemma trim_of_trimmed s : trimmed s -> trim s = s.
Proof.
  intros [Hs Hr]. unfold trim.
  by rewrite (drop_space_clean s), (drop_space_clean (rev s)), rev_involutive.
Qed.

End TrimFacts.

(** ** The section patterns on a block *)

Section BlockFacts.

Implicit Types (s t w l a b lead mid post tail : jsstring) (r : regex)
               (k : mstate -> option mstate).

Lemma exec_skip r w t :
  (forall a b, w = a ++ b -> b <> [] -> match_at r (b ++ t) = None) ->
  exec r (w ++ t) = exec r t.
Proof.
  induction w as [|d w IH]; intros Hw; [done|].
  pose proof (Hw [] (d :: w) eq_refl ltac:(done)) as H0.
  cbn [app] in *. cbn [exec]. rewrite H0.
  apply IH. intros a b -> Hb. by apply (Hw (d :: a) b).
Qed.

Lemma exec_at r s y : match_at r s = Some y -> exec r s = Some y.
Proof. intros H. destruct s; simpl; by rewrite H. Qed.

Lemma scan_lazy_skip k c w t :
  (forall a b, w = a ++ b -> b <> [] -> k (MState (b ++ t) c) = None) ->
  scan_lazy k c (w ++ t) = scan_lazy k c t.
Proof.
  induction w as [|d w IH]; intros Hw; [done|].
  pose proof (Hw [] (d :: w) eq_refl ltac:(done)) as H0.
  cbn [app] in *. cbn [scan_lazy]. rewrite H0.
  apply IH. intros a b -> Hb. by apply (Hw (d :: a) b).
Qed.

Lemma scan_lazy_at k c t y : k (MState t c) = Some y -> scan_lazy k c t = Some y.
Proof. intros H. destruct t; simpl; by rewrite H. Qed.

Lemma clash_strip l b t : clash l b = true -> strip_ci l (b ++ t) = None.
Proof.
  revert b. induction l as [|c l IH]; intros [|d b]; simpl; try done.
  destruct (canonicalize d =? canonicalize c)%N; [apply IH|done].
Qed.

Lemma clash_app l b t : clash l b = true -> clash l (b ++ t) = true.
Proof.
  revert b. induction l as [|c l IH]; intros [|d b]; simpl; try done.
  destruct (canonicalize d =? canonicalize c)%N; [apply IH|done].
Qed.

Lemma clear_of_suffix l w a b :
  clear_of l w = true -> w = a ++ b -> b <> [] -> clash l b = true.
Proof.
  revert w. induction a as [|d a IH]; intros w Hw -> Hb.
  - destruct b as [|d b]; [done|]. simpl in Hw.
    by apply andb_true_iff in Hw as [Hw _].
  - simpl in Hw. apply andb_true_iff in Hw as [_ Hw]. by apply (IH (a ++ b)).
Qed.

Lemma clear_of_app l w1 w2 :
  clear_of l w1 = true -> clear_of l w2 = true -> clear_of l (w1 ++ w2) = true.
Proof.
  intros H1 H2. induction w1 as [|d w1 IH]; [done|].
  cbn [clear_of] in H1. apply andb_true_iff in H1 as [Hc H1].
  cbn [app clear_of]. apply andb_true_iff. split; [|by apply IH].
  by apply (clash_app l (d :: w1) w2).
Qed.

Lemma canonicalize_idem c : canonicalize (canonicalize c) = canonicalize c.
Proof.
  unfold canonicalize.
  destruct ((97 <=? c) && (c <=? 122))%N eqn:E; [|by rewrite E].
  apply andb_true_iff in E as [E1 E2]. apply N.leb_le in E1, E2.
  assert ((97 <=? c - 32) && (c - 32 <=? 122) = false)%N as ->; [|done].
  apply andb_false_iff. left. apply N.leb_gt. lia.
Qed.

Lemma clash_canonical l b : clash l (map canonicalize b) = clash l b.
Proof.
  revert b. induction l as [|c l IH]; intros [|d b]; simpl; try done.
  rewrite canonicalize_idem. by rewrite IH.
Qed.

Lemma clear_of_canonical l w : clear_of l (map canonicalize w) = clear_of l w.
Proof.
  induction w as [|d w IH]; [done|].
  cbn [map clear_of]. rewrite IH. f_equal.
  apply (clash_canonical l (d :: w)).
Qed.

(** A label is clear of a copy, in any case, of another label. *)
Lemma clear_of_ci l a la :
  ci_eq a la -> clear_of l la = true -> clear_of l a = true.
Proof.
  intros Ha H. rewrite <- clear_of_canonical, Ha, clear_of_canonical. exact H.
Qed.

Lemma canonicalize_eq_91 d : canonicalize d = 91%N <-> d = 91%N.
Proof.
  unfold canonicalize.
  destruct ((97 <=? d) && (d <=? 122))%N eqn:E; [|done].
  apply andb_true_iff in E as [E1 E2].
  apply N.leb_le in E1, E2. lia.
Qed.

(** A label that opens with a bracket is clear of plain text. *)
Lemma clear_of_plain l w : plain w -> clear_of (91%N :: l) w = true.
Proof.
  induction 1 as [|d w Hd _ IH]; [done|].
  cbn [clear_of]. rewrite IH, andb_true_r. cbn [clash].
  assert ((canonicalize d =? canonicalize 91)%N = false) as ->; [|done].
  apply N.eqb_neq. change (canonicalize 91%N) with 91%N.
  by rewrite canonicalize_eq_91.
Qed.

Lemma section_pattern_not_at l r s :
  strip_ci l s = None -> match_at (cat [lit l; Grp any_lazy; r]) s = None.
Proof.
  intros H. unfold match_at. cbn [cat m]. rewrite m_lit. cbn [rest cap1].
  by rewrite H.
Qed.

Lemma exec_section_skip l r w t :
  clear_of l w = true ->
  exec (cat [lit l; Grp any_lazy; r]) (w ++ t)
  = exec (cat [lit l; Grp any_lazy; r]) t.
Proof.
  intros Hw. apply exec_skip. intros a b Hab Hb.
  apply section_pattern_not_at, clash_strip.
  by apply (clear_of_suffix l w a b).
Qed.

(** The match of a section pattern at its label: the capture is [mid]
    when the closing pattern fails at every position of [mid] and succeeds
    after it. *)
Lemma section_pattern_capture l r a mid t z :
  ci_eq a l ->
  (forall u b c, mid = u ++ b -> b <> [] -> m r (MState (b ++ t) c) Some = None) ->
  m r (MState t (Some mid)) Some = Some z ->
  match_at (cat [lit l; Grp any_lazy; r]) (a ++ mid ++ t) = Some z.
Proof.
  intros Ha Hmid Hz. unfold match_at. cbn [cat m]. rewrite m_lit. cbn [rest cap1].
  assert (strip_ci l (a ++ mid ++ t) = Some (mid ++ t)) as ->.
  { apply strip_ci_Some. by exists a. }
  rewrite m_any_lazy. cbn [rest cap1].
  rewrite scan_lazy_skip.
  - apply scan_lazy_at. cbn [rest]. rewrite length_app.
    replace (length mid + length t - length t) with (length mid) by lia.
    rewrite take_app_length. exact Hz.
  - intros u b Hub Hb. cbn [rest]. by apply (Hmid u b).
Qed.

(** The two patterns with a closing label. *)
Lemma exec_labelled la lb lead a mid b post :
  clear_of la lead = true -> ci_eq a la ->
  clear_of lb mid = true -> ci_eq b lb ->
  exec (cat [lit la; Grp any_lazy; lit lb]) (lead ++ a ++ mid ++ b ++ post)
  = Some (MState post (Some mid)).
Proof.
  intros Hlead Ha Hmid Hb. rewrite exec_section_skip by done.
  apply exec_at, section_pattern_capture; [done| |].
  - intros u b' c Hu Hb'. rewrite m_lit. cbn [rest cap1].
    by rewrite (clash_strip lb b' (b ++ post) (clear_of_suffix lb mid u b' Hmid Hu Hb')).
  - rewrite m_lit. cbn [rest cap1].
    assert (strip_ci lb (b ++ post) = Some post) as ->; [|done].
    apply strip_ci_Some. by exists b.
Qed.

Lemma run_split (P : char -> bool) s :
  exists w t, s = w ++ t /\ Forall (fun d => P d = true) w /\ stops P t.
Proof.
  induction s as [|d s (w & t & -> & Hw & Ht)]; [by exists [], []|].
  destruct (P d) eqn:E.
  - exists (d :: w), t. split; [done|]. split; [by apply Forall_cons|done].
  - by exists [], (d :: w ++ t).
Qed.

(** The closing pattern of the voice section, (?:={10,}|$). *)
Lemma closing_at c tail :
  closes tail ->
  exists post, m (Alt eq10 Eoi) (MState tail c) Some = Some (MState post c).
Proof.
  intros [->|[tail' ->]]; [by exists []|].
  destruct (run_split (fun d => (canonicalize d =? canonicalize 61%N)%N) tail')
    as (w & t & -> & Hw & Ht).
  exists t. cbn [m]. fold eq10. unfold eq10.
  rewrite m_Rep, m_Chr_char_step. rewrite app_assoc.
  rewrite (rep_greedy_run _ Some (repeat 61%N 10 ++ w) t c (MState t c)); try done.
  - apply Forall_app. split; [by repeat constructor|done].
  - rewrite length_app. simpl. lia.
Qed.

Lemma closing_not_at c d s :
  d <> 61%N -> m (Alt eq10 Eoi) (MState (d :: s) c) Some = None.
Proof.
  intros Hd. cbn [m]. fold eq10. unfold eq10.
  rewrite m_Rep, m_Chr_char_step. cbn [rest length Nat.add rep_loop].
  unfold char_step at 1. cbn [rest]. by rewrite is_eq_sign_false.
Qed.

Lemma exec_voice lead a v tail :
  clear_of TEKS_SUARA lead = true -> ci_eq a TEKS_SUARA ->
  Forall (fun c => c <> 61%N) v -> closes tail ->
  exists post, exec voiceRe (lead ++ a ++ v ++ tail) = Some (MState post (Some v)).
Proof.
  intros Hlead Ha Hv Htail.
  destruct (closing_at (Some v) tail Htail) as [post Hpost].
  exists post. unfold voiceRe. rewrite exec_section_skip by done.
  apply exec_at, section_pattern_capture; [done| |done].
  intros u b c -> Hb. apply Forall_app in Hv as [_ Hv].
  destruct Hv as [|d b Hd _]; [done|]. by apply closing_not_at.
Qed.

Lemma label_clear_of_plain l w :
  In l [DESKRIPSI_ILUSTRASI; TEKS_CERITA; TEKS_SUARA] ->
  plain w -> clear_of l w = true.
Proof.
  intros Hl Hw. assert (l = 91%N :: List.tl l) as ->.
  { destruct Hl as [<-|[<-|[<-|[]]]]; reflexivity. }
  by apply clear_of_plain.
Qed.

(** A block that holds the three labels, in any case, with plain text
    before and between them, and after the voice label text without [=]
    up to the end of the block or a rule: the sections are the texts
    between the labels, trimmed. *)
Lemma page_of_block_sections lead l1 d l2 s l3 v tail index :
  plain lead -> plain d -> plain s ->
  Forall (fun c => c <> 61%N) v -> closes tail ->
  ci_eq l1 DESKRIPSI_ILUSTRASI -> ci_eq l2 TEKS_CERITA -> ci_eq l3 TEKS_SUARA ->
  page_of_block (lead ++ l1 ++ d ++ l2 ++ s ++ l3 ++ v ++ tail) index
  = Some (fresh_page (index + 1) (trim d) (trim s) (trim v)).
Proof.
  intros Hlead Hd Hs Hv Htail H1 H2 H3. unfold page_of_block.
  assert (forall l w, In l [DESKRIPSI_ILUSTRASI; TEKS_CERITA; TEKS_SUARA] ->
            plain w -> clear_of l w = true) as Hp by apply label_clear_of_plain.
  unfold descRe. rewrite exec_labelled; [|apply Hp; simpl; auto|done|apply Hp; simpl; auto|done].
  assert (exec storyRe (lead ++ l1 ++ d ++ l2 ++ s ++ l3 ++ v ++ tail)
          = Some (MState (v ++ tail) (Some s))) as ->.
  { replace (lead ++ l1 ++ d ++ l2 ++ s ++ l3 ++ v ++ tail)
      with ((lead ++ l1 ++ d) ++ l2 ++ s ++ l3 ++ v ++ tail)
      by (by rewrite <- !app_assoc).
    apply exec_labelled; [|done|apply Hp; simpl; auto|done].
    repeat apply clear_of_app; [apply Hp; simpl; auto| |apply Hp; simpl; auto].
    by apply (clear_of_ci _ _ _ H1). }
  destruct (exec_voice (lead ++ l1 ++ d ++ l2 ++ s) l3 v tail) as [post Hpost];
    [|done|done|done|].
  { repeat apply clear_of_app; try (apply Hp; simpl; by auto).
    - by apply (clear_of_ci _ _ _ H1).
    - by apply (clear_of_ci _ _ _ H2). }
  rewrite <- !app_assoc in Hpost. rewrite Hpost. reflexivity.
Qed.

End BlockFacts.

(** ** The separator pattern on the closing rule of a page *)

Section RuleFacts.

Implicit Types (s t w cur : jsstring) (P : char -> bool)
               (k : mstate -> option mstate).

(** A greedy quantifier over one-character iterations fails when the
    continuation fails at every point of the run [w] it can stop at. *)
Lemma rep_greedy_fail P k w t c :
  Forall (fun d => P d = true) w ->
  stops P t ->
  (forall a b, w = a ++ b -> k (MState (b ++ t) c) = None) ->
  forall fuel min,
    rep_loop (char_step P) true k fuel min (MState (w ++ t) c) = None.
Proof.
  intros Hw Ht. induction Hw as [|d w Hd _ IH]; intros Hk fuel min.
  - pose proof (Hk [] [] eq_refl) as Hk0. cbn [app] in *.
    destruct fuel as [|fuel], min as [|min]; cbn [rep_loop]; try done.
    + unfold char_step at 1. cbn [rest]. destruct t as [|d t]; [by rewrite Hk0|].
      simpl in Ht. by rewrite Ht, Hk0.
    + unfold char_step. cbn [rest]. destruct t as [|d t]; [done|].
      simpl in Ht. by rewrite Ht.
  - pose proof (Hk [] (d :: w) eq_refl) as Hk0. cbn [app] in *.
    assert (forall fuel min,
              rep_loop (char_step P) true k fuel min (MState (w ++ t) c) = None)
      as IH'.
    { apply IH. intros a b ->. apply (Hk (d :: a) b eq_refl). }
    destruct fuel as [|fuel], min as [|min]; cbn [rep_loop]; try done.
    + unfold char_step at 1. cbn [rest cap1]. rewrite Hd.
      destruct (_ =? _); by rewrite ?IH', Hk0.
    + unfold char_step at 1. cbn [rest cap1]. by rewrite Hd, IH'.
Qed.

Lemma Forall_repeat {A} (Q : A -> Prop) (x : A) n : Q x -> Forall Q (repeat x n).
Proof. intros Hx. induction n; by constructor. Qed.

Lemma strip_HALAMAN_None d t :
  d = 10%N \/ d = 61%N -> strip_ci (js "HALAMAN") (d :: t) = None.
Proof. by intros [->| ->]. Qed.

(** The separator pattern does not match at a closing rule: after the
    signs and the blank line comes no HALAMAN. *)
Lemma separator_not_at_rule j t :
  after_rule t ->
  match_at separator (repeat 61%N j ++ nl ++ nl ++ t) = None.
Proof.
  intros Ht. unfold match_at, separator, eq10, ws. cbn [cat].
  rewrite m_Cat, m_Rep, m_Chr_char_step.
  apply rep_greedy_fail; [by apply Forall_repeat|done|].
  intros a b Hab.
  assert (exists i, b = repeat 61%N i) as [i ->].
  { exists (length b). symmetry. by apply (repeat_eq_app _ _ _ _ Hab). }
  rewrite m_Cat, m_Rep, m_Cls_char_step.
  destruct i as [|i].
  - (* \s* over the blank line *)
    cbn [repeat app]. apply (rep_greedy_fail _ _ (nl ++ nl) t);
      [by repeat constructor| |].
    { destruct t as [|d t]; [done|]. simpl in Ht. by subst d. }
    intros a' b' Hab'. rewrite m_Cat, m_lit. cbn [rest cap1].
    destruct b' as [|d b'].
    + cbn [app]. destruct t as [|d t]; [done|]. simpl in Ht.
      rewrite strip_HALAMAN_None; [done|by right].
    + cbn [app]. rewrite strip_HALAMAN_None; [done|]. left.
      destruct a' as [|? [|? [|? ?]]]; by simplify_eq.
  - (* \s* over nothing *)
    cbn [repeat app]. apply (rep_greedy_fail _ _ [] (61%N :: _)); [done|done|].
    intros a' b' Hab'. destruct a'; [|done]. cbn [app] in Hab'. subst b'.
    rewrite m_Cat, m_lit. cbn [rest cap1 app].
    rewrite strip_HALAMAN_None; [done|by right].
Qed.

Lemma split_scan_nomatch w t cur :
  (forall a b, w = a ++ b -> b <> [] -> match_at separator (b ++ t) = None) ->
  split_scan separator (w ++ t) 0 cur = split_scan separator t 0 (rev w ++ cur).
Proof.
  revert cur. induction w as [|d w IH]; intros cur Hw; [done|].
  pose proof (Hw [] (d :: w) eq_refl ltac:(done)) as H0.
  cbn [app] in *. cbn [split_scan]. rewrite H0.
  rewrite IH; [cbn [rev]; by rewrite <- app_assoc|].
  intros a b -> Hb. by apply (Hw (d :: a) b).
Qed.

(** No separator is found inside the closing rule of a page. *)
Lemma split_scan_rule t cur :
  after_rule t ->
  split_scan separator (eq40 ++ nl ++ nl ++ t) 0 cur
  = split_scan separator t 0 (rev (eq40 ++ nl ++ nl) ++ cur).
Proof.
  intros Ht. rewrite split_scan_nomatch.
  - rewrite (app_assoc nl nl t), split_scan_body by (by repeat constructor).
    by rewrite (app_assoc eq40), rev_app_distr, <- app_assoc.
  - intros a b Hab Hb.
    assert (exists i, b = repeat 61%N i) as [i ->].
    { exists (length b). symmetry. by apply (repeat_eq_app _ _ _ _ Hab). }
    by apply separator_not_at_rule.
Qed.

End RuleFacts.

(** ** A response in the prescribed format *)

Section FormatFacts.

Implicit Types (p : Written) (ps : list Written) (t cur preamble : jsstring).

Lemma label_no_eq l :
  In l [DESKRIPSI_ILUSTRASI; TEKS_CERITA; TEKS_SUARA] ->
  Forall (fun c => c <> 61%N) l.
Proof.
  intros [<-|[<-|[<-|[]]]]; apply (bool_decide_unpack _); vm_compute; exact I.
Qed.

Lemma page_sections_no_eq p :
  is_written p -> Forall (fun c => c <> 61%N) (page_sections p).
Proof.
  intros (_ & Hd & Hs & Hv). unfold page_sections.
  repeat (apply Forall_app; split);
    try (apply label_no_eq; simpl; by auto);
    try (by repeat constructor); try done.
  - eapply Forall_impl; [exact Hd|]. by intros c [? _].
  - eapply Forall_impl; [exact Hs|]. by intros c [? _].
Qed.

Lemma flat_map_after_rule ps : after_rule (flat_map page_text ps).
Proof. by destruct ps. Qed.

Lemma split_scan_pages ps cur :
  Forall is_written ps ->
  split_scan separator (flat_map page_text ps) 0 cur
  = rev cur :: map page_body ps.
Proof.
  intros Hps. revert cur. induction Hps as [|p ps Hp _ IH]; intros cur.
  - reflexivity.
  - cbn [flat_map map]. unfold page_text at 1. rewrite <- app_assoc.
    rewrite split_scan_at_separator; [|apply Hp|done].
    unfold page_body at 1. rewrite <- !app_assoc.
    rewrite split_scan_body by (by apply page_sections_no_eq).
    rewrite split_scan_rule by apply flat_map_after_rule.
    rewrite IH. by rewrite app_nil_r, rev_app_distr, !rev_involutive.
Qed.

(** The blocks of a response in the prescribed format are the bodies of
    its pages, closing rule included. *)
Lemma rawPages_response preamble ps :
  Forall (fun c => c <> 61%N) preamble ->
  Forall is_written ps ->
  rawPages (response preamble ps) = map page_body ps.
Proof.
  intros Hpre Hps. unfold rawPages, split.
  destruct (response preamble ps) as [|c s] eqn:E.
  - unfold response in E. apply app_eq_nil in E as [_ E].
    destruct ps as [|p ps]; [done|]. discriminate E.
  - rewrite <- E. unfold response.
    rewrite split_scan_body by done.
    by rewrite split_scan_pages.
Qed.

Lemma page_of_block_written p index :
  is_written p -> page_of_block (page_body p) index = Some (parsed index p).
Proof.
  intros (_ & Hd & Hs & Hv).
  replace (page_body p)
    with ((nl ++ nl) ++ DESKRIPSI_ILUSTRASI ++ (nl ++ w_description p ++ nl ++ nl)
          ++ TEKS_CERITA ++ (nl ++ w_story p ++ nl ++ nl)
          ++ TEKS_SUARA ++ (nl ++ w_voice p ++ nl ++ nl) ++ (eq40 ++ nl ++ nl))
    by (unfold page_body, page_sections; by rewrite <- !app_assoc).
  rewrite page_of_block_sections; try done.
  - unfold parsed. f_equal.
    by rewrite !(trim_leading nl), !(trim_trailing _ (nl ++ nl))
      by (by repeat constructor).
  - by repeat constructor.
  - repeat (apply Forall_app; split); try (by repeat constructor).
    eapply Forall_impl; [exact Hd|]. by intros c [_ ?].
  - repeat (apply Forall_app; split); try (by repeat constructor).
    eapply Forall_impl; [exact Hs|]. by intros c [_ ?].
  - by repeat (apply Forall_app; split); try (by repeat constructor).
  - right. by exists (repeat 61%N 30 ++ nl ++ nl).
Qed.

Lemma pages_of_written ps index :
  Forall is_written ps ->
  pages_of_blocks (map page_body ps) index
  = imap (fun i => parsed (index + i)) ps.
Proof.
  intros Hps. revert index. induction Hps as [|p ps Hp _ IH]; intros index.
  - reflexivity.
  - cbn [map pages_of_blocks]. rewrite page_of_block_written by done.
    rewrite imap_cons, Nat.add_0_r, IH. f_equal.
    apply imap_ext. intros i x _. simpl. f_equal. lia.
Qed.

End FormatFacts.

(** ** What the parser reads *)

Section ReadingFacts.

(** X14.  A response written in the format that the system instruction
    prescribes is read back page for page.  The response is any text
    without [=], followed by the pages; a page is the separator lines with
    a number of digits, a blank line, the three labels, each on its own
    line before its text and followed by a blank line, and a closing rule
    of forty [=] with a blank line; the description and the story hold
    neither [=] nor an opening bracket and the narration no [=].  The
    blocks that [split] gives are the page bodies, closing rule included
    (no separator is found at a closing rule), and the parser returns one
    page per written page, in order, numbered from 1 by position, whose
    three fields are the written texts, trimmed. *)
Theorem parseStoryResponse_prescribed_format preamble ps :
  Forall (fun c => c <> 61%N) preamble ->
  Forall is_written ps ->
  rawPages (response preamble ps) = map page_body ps
  /\ parseStoryResponse (response preamble ps) = imap parsed ps.
Proof.
  intros Hpre Hps.
  assert (rawPages (response preamble ps) = map page_body ps) as Hraw
    by (by apply rawPages_response).
  split; [exact Hraw|].
  rewrite parseStoryResponse_blocks, Hraw.
  by rewrite pages_of_written.
Qed.

Lemma parseStoryResponse_prescribed_format_witness :
  parseStoryResponse (response (js "Berikut ceritanya:") sample_written)
  = imap parsed sample_written.
Proof.
  apply (parseStoryResponse_prescribed_format (js "Berikut ceritanya:")
           sample_written).
  - apply (bool_decide_unpack _). vm_compute. exact I.
  - repeat (apply Forall_cons; split); [| |apply Forall_nil];
      unfold is_written, is_token; cbn [sample_written w_token w_description
        w_story w_voice];
      repeat split; try discriminate;
      apply (bool_decide_unpack _); vm_compute; exact I.
Defined.

(** X15.  The three section patterns on one block.  When the block holds
    a description label, a story label and a voice label in this order,
    each in any letter case, with no opening bracket before the first
    label or in the texts after the first two labels, with no [=] in the
    text after the voice label, and with the end of the block or ten [=]
    after that text, then a page is pushed whose number is the index plus
    one and whose fields are the three texts, trimmed; the block is
    well-formed exactly when none of them is empty after trimming. *)
Theorem page_of_block_reads_sections lead l1 d l2 s l3 v tail index :
  plain lead -> plain d -> plain s ->
  Forall (fun c => c <> 61%N) v -> closes tail ->
  ci_eq l1 DESKRIPSI_ILUSTRASI -> ci_eq l2 TEKS_CERITA -> ci_eq l3 TEKS_SUARA ->
  page_of_block (lead ++ l1 ++ d ++ l2 ++ s ++ l3 ++ v ++ tail) index
  = Some (fresh_page (index + 1) (trim d) (trim s) (trim v))
  /\ (well_formed (lead ++ l1 ++ d ++ l2 ++ s ++ l3 ++ v ++ tail) = true
      <-> trim d <> [] /\ trim s <> [] /\ trim v <> []).
Proof.
  intros Hlead Hd Hs Hv Htail H1 H2 H3.
  split; [by apply page_of_block_sections|].
  unfold well_formed. rewrite page_of_block_sections by done.
  cbn [fresh_page illustrationDescription storyText voiceText].
  rewrite !andb_true_iff.
  assert (forall x : jsstring, nonempty x = true <-> x <> []) as Hne
    by (by intros [|c x]).
  rewrite !Hne. tauto.
Qed.

Lemma page_of_block_reads_sections_witness :
  page_of_block
    (js "Halaman pertama. " ++ js "[deskripsi ilustrasi]" ++ js " A grey cat. "
     ++ js "[Teks Cerita]" ++ js " Once upon a time. " ++ js "[teks suara]"
     ++ js " Meow [softly]. " ++ repeat 61%N 10 ++ js "=== the end") 4
  = Some (fresh_page (4 + 1) (trim (js " A grey cat. "))
            (trim (js " Once upon a time. ")) (trim (js " Meow [softly]. "))).
Proof.
  apply (page_of_block_reads_sections (js "Halaman pertama. ")
           (js "[deskripsi ilustrasi]") (js " A grey cat. ")
           (js "[Teks Cerita]") (js " Once upon a time. ")
           (js "[teks suara]") (js " Meow [softly]. ")
           (repeat 61%N 10 ++ js "=== the end") 4).
  - apply (bool_decide_unpack _). vm_compute. exact I.
  - apply (bool_decide_unpack _). vm_compute. exact I.
  - apply (bool_decide_unpack _). vm_compute. exact I.
  - apply (bool_decide_unpack _). vm_compute. exact I.
  - right. by exists (js "=== the end").
  - vm_compute. reflexivity.
  - vm_compute. reflexivity.
  - vm_compute. reflexivity.
Defined.

(** X16.  A text without the character [=] holds no separator line:
    [split] returns the text as its only piece, [slice(1)] drops it, and
    the parser returns no page, whatever labelled sections the text
    holds. *)
Theorem parseStoryResponse_without_separator text :
  Forall (fun c => c <> 61%N) text ->
  split separator text = [text]
  /\ rawPages text = []
  /\ parseStoryResponse text = [].
Proof.
  intros Htext.
  assert (split separator text = [text]) as Hsplit.
  { unfold split. destruct text as [|c s]; [reflexivity|].
    pose proof (split_scan_body (c :: s) [] [] Htext) as H.
    rewrite !app_nil_r in H. rewrite H.
    cbn [split_scan]. by rewrite rev_involutive. }
  split; [exact Hsplit|].
  assert (rawPages text = []) as Hraw by (unfold rawPages; by rewrite Hsplit).
  split; [exact Hraw|].
  by rewrite parseStoryResponse_blocks, Hraw.
Qed.

Lemma parseStoryResponse_without_separator_witness :
  parseStoryResponse
    (js "[DESKRIPSI ILUSTRASI] A cat. [TEKS CERITA] Once. [TEKS SUARA] Meow.")
  = [].
Proof.
  apply parseStoryResponse_without_separator.
  apply (bool_decide_unpack _). vm_compute. exact I.
Defined.

(** X17.  Every page that the parser returns, for any text, is fresh: its
    three text fields neither start nor end with white space, it has no
    image and no audio yet, and it is marked as loading its assets. *)
Theorem parseStoryResponse_pages_fresh text page :
  In page (parseStoryResponse text) ->
  trimmed (illustrationDescription page)
  /\ trimmed (storyText page)
  /\ trimmed (voiceText page)
  /\ imageUrl page = None
  /\ audioBuffer page = None
  /\ isLoadingAssets page = Some true.
Proof.
  rewrite parseStoryResponse_blocks. intros Hin.
  apply In_pages_of_blocks in Hin as (i & rawPage & _ & Hpage).
  unfold page_of_block in Hpage.
  destruct (exec descRe rawPage) as [descMatch|]; [|discriminate].
  destruct (exec storyRe rawPage) as [storyMatch|]; [|discriminate].
  destruct (exec voiceRe rawPage) as [voiceMatch|]; [|discriminate].
  injection Hpage as <-. cbn. unfold group1_trim.
  repeat split; apply trim_trimmed.
Qed.

Lemma parseStoryResponse_pages_fresh_witness :
  trimmed (storyText page_empty_description)
  /\ isLoadingAssets page_empty_description = Some true.
Proof.
  destruct (parseStoryResponse_pages_fresh blob_empty_section
              page_empty_description) as (_ & Hstory & _ & _ & _ & Hloading).
  - vm_compute. left. reflexivity.
  - split; [exact Hstory|exact Hloading].
Defined.

End ReadingFacts.

(** ** The narration from the request to the buffer *)

Section NarrationPcm.

Implicit Types (ai : Backend) (host : Host) (log : list Request).

Lemma decodeBase64_bytes atob base64 binaryString :
  atob base64 = Ok binaryString ->
  decodeBase64 atob base64
  = Ok (map (fun c => (Z.of_N c mod 256)%Z) binaryString)
  /\ Forall is_byte (map (fun c => (Z.of_N c mod 256)%Z) binaryString).
Proof.
  intros Hatob. unfold decodeBase64. rewrite Hatob. split; [done|].
  apply Forall_map, Forall_forall. intros c _. unfold is_byte.
  cbv beta.
  pose proof (Z.mod_pos_bound (Z.of_N c) 256 ltac:(lia)). lia.
Qed.

(** X18.  The narration of a payload that the host does not decode as an
    audio container, from the request to the buffer.  The backend
    answered, the first part carries a payload, [atob] accepted it and
    the decoder of the host rejected the bytes.  With an odd count of
    bytes the [Int16Array] cannot be made and the narration is undefined,
    not an exception.  With an even count, and a silent buffer from
    [createBuffer] for one channel of half as many frames at 24000 Hz,
    the narration is a buffer of 24000 Hz with one channel, in which
    frame [i] is the little-endian 16-bit value of the code units [2 i]
    and [2 i + 1] of the decoded string, each taken modulo 256, divided
    by 32768; every frame lies in [-1, 1). *)
Theorem generateNarration_raw_pcm ai host narration log response payload
    binaryString e :
  ai (length log) (SpeechRequest narration) = Ok response ->
  first_audio response = Some payload ->
  payload <> [] ->
  atob host payload = Ok binaryString ->
  ctx_decodeAudioData (audioContext host)
    (map (fun c => (Z.of_N c mod 256)%Z) binaryString) = Throw e ->
  (Nat.odd (length binaryString) = true ->
   fst (generateNarration ai host narration log) = Ok None)
  /\ (Nat.even (length binaryString) = true ->
      ctx_createBuffer (audioContext host) 1 (length binaryString / 2) 24000
      = Ok (silence 1 (length binaryString / 2) 24000) ->
      exists frames,
        fst (generateNarration ai host narration log)
        = Ok (Some {| sampleRate := 24000; channels := [frames] |})
        /\ length frames = length binaryString / 2
        /\ Forall (fun q => -1 <= q /\ q < 1)%Q frames
        /\ forall i lo hi,
             binaryString !! (2 * i) = Some lo ->
             binaryString !! (2 * i + 1) = Some hi ->
             frames !! i
             = Some (Qmake (int16_le (Z.of_N lo mod 256) (Z.of_N hi mod 256))
                           32768)).
Proof.
  intros Hreply Haudio Hpayload Hatob Hreject.
  destruct (decodeBase64_bytes _ _ _ Hatob) as (Hbytes & Hrange).
  set (audioBytes := map (fun c => (Z.of_N c mod 256)%Z) binaryString) in *.
  assert (length audioBytes = length binaryString) as Hlen
    by apply length_map.
  assert (fst (generateNarration ai host narration log)
          = try_catch
              (buffer ← rawPcmFallback audioBytes (audioContext host) 24000 1;
               Ok (Some buffer))
              (fun _ => Ok None)) as ->.
  { unfold generateNarration, io_bind, io_ret, generateContent. rewrite Hreply.
    cbn [fst mbind outcome_bind]. rewrite Haudio.
    destruct payload as [|c b]; [done|]. rewrite Hbytes.
    cbn [mbind outcome_bind]. unfold decodeAudioData. by rewrite Hreject. }
  split.
  - intros Hodd. rewrite <- Hlen in Hodd. unfold rawPcmFallback.
    by destruct (Int16Array_of_odd audioBytes Hodd) as [e' ->].
  - intros Heven Hcreate. rewrite <- Hlen in Heven.
    destruct (Int16Array_of_even audioBytes Heven)
      as (dataInt16 & Hdata & Hlen16 & Hint & Hat).
    assert (length binaryString / 2 = length dataInt16) as Hhalf.
    { rewrite <- Hlen, Hlen16, Nat.mul_comm. by apply Nat.div_mul. }
    rewrite Hhalf in *.
    rewrite (rawPcmFallback_closed_form _ _ dataInt16 24000 1 Hdata)
      by (by rewrite Nat.div_1_r).
    rewrite Nat.div_1_r.
    exists (map (sample_at dataInt16 1 0) (seq 0 (length dataInt16))).
    split; [done|]. split; [by rewrite length_map, length_seq|]. split.
    + apply Forall_map, Forall_forall. intros i _.
      by apply sample_at_range, Hint.
    + intros i lo hi Hlo Hhi.
      assert (i < length dataInt16) as Hi.
      { apply lookup_lt_Some in Hhi.
        change (2 * i + 1 < length binaryString) in Hhi.
        rewrite <- Hlen, Hlen16 in Hhi. lia. }
      rewrite lookup_map_seq by done. unfold sample_at.
      rewrite Nat.mul_1_r, Nat.add_0_r, nth_lookup.
      rewrite (Hat i (Z.of_N lo mod 256)%Z (Z.of_N hi mod 256)%Z); [done| |].
      * unfold audioBytes. change (map ?f ?l) with (f <$> l).
        rewrite list_lookup_fmap.
        exact (f_equal (fmap (fun c => (Z.of_N c mod 256)%Z)) Hlo).
      * unfold audioBytes. change (map ?f ?l) with (f <$> l).
        rewrite list_lookup_fmap.
        exact (f_equal (fmap (fun c => (Z.of_N c mod 256)%Z)) Hhi).
Qed.

Lemma generateNarration_raw_pcm_witness :
  exists frames,
    fst (generateNarration backend_speech pcm_host (js "Meow.") [])
    = Ok (Some {| sampleRate := 24000; channels := [frames] |})
    /\ frames !! 1 = Some (32767 # 32768)%Q.
Proof.
  destruct (generateNarration_raw_pcm backend_speech pcm_host (js "Meow.") []
              speech_response (js "AAD/fw==") [0; 0; 255; 127]%N
              (js "EncodingError"))
    as (_ & Heven); try reflexivity; [discriminate|].
  destruct Heven as (frames & Hresult & _ & _ & Hat); try reflexivity.
  exists frames. split; [exact Hresult|].
  apply (Hat 1 255%N 127%N); reflexivity.
Defined.

End NarrationPcm.

(** ** The cleanup on unmount *)

Section UnmountFacts.

Context {B : Type} `{EqDecision B}.

Implicit Types (t : @Transport B).

(** X19.  The cleanup on unmount, from every state that the transport can
    reach: afterwards no node sounds, no node is tracked, no buffer is
    marked as playing, and the audio context, when one was ever made, is
    closed; no node is created or removed, and a second cleanup changes
    nothing. *)
Theorem unmount_silences t :
  reachable t ->
  active_nodes (unmount t) = []
  /\ sourceNodeRef (unmount t) = None
  /\ playingAudioBuffer (unmount t) = None
  /\ audioContextRef (unmount t)
     = match audioContextRef t with Some _ => Some Closed | None => None end
  /\ length (nodes (unmount t)) = length (nodes t)
  /\ unmount (unmount t) = unmount t.
Proof.
  intros Hr. apply reachable_one_source in Hr.
  destruct (stopAudio_silent t Hr) as (Hsilent & Href & Hplay).
  split.
  { apply silent_no_active. intros id n Hid. by apply (Hsilent id n). }
  split; [exact Href|]. split; [exact Hplay|].
  split; [by unfold unmount, stopAudio; destruct (sourceNodeRef t)|].
  split; [apply stopAudio_length|].
  unfold unmount, stopAudio.
  destruct (sourceNodeRef t), (audioContextRef t); reflexivity.
Qed.

End UnmountFacts.

Lemma unmount_silences_witness :
  active_nodes (unmount playing_one) = []
  /\ audioContextRef (unmount playing_one) = Some Closed.
Proof.
  destruct (unmount_silences playing_one) as (Hnone & _ & _ & Hctx & _).
  - unfold playing_one.
    eapply reachable_step; [apply reachable_mounted|apply step_toggle].
  - split; [exact Hnone|exact Hctx].
Defined.
